(** * Image compression and Cloudinary migration utilities: model and properties

    A shallow embedding of four TypeScript modules of the catalog admin tool:

    - [src/lib/cloudinary.ts]: the URL classifiers [isCloudinaryUrl] and
      [isFirebaseStorageUrl]; the client [uploadToCloudinary],
      [uploadFromUrl] with its two fallbacks, [deleteFromCloudinary],
      [generateSignature], [extractPublicId] and [sha256];
    - the image compression utility: [compressImage], [smartCompress],
      [needsCompression] and [getRecommendedOptions];
    - the migration utility: [migrateProductToCloudinary],
      [migrateAllToCloudinary], [testCloudinaryMigration] and
      [checkMigrationStatus];
    - [src/lib/supabase.ts]: the callers of the client,
      [uploadImageToStorage], [deleteImageFromStorage] and [deleteProduct].

    Conventions of the embedding.

    - An [async] function is a state-passing computation over the world it
      runs in (the browser, the network, the document store); its result is
      an [Outcome]: the promise resolves, rejects with the thrown value, or
      never settles.
    - JavaScript numbers are modelled by exact rationals ([Q]); byte counts
      and pixel counts that the platform provides are naturals ([N]) injected
      into [Q].  Rounding, infinities and NaN of IEEE doubles are outside the
      model ([x / 0] is [0] in [Q]).
    - What the platform decides (whether an image loads, what the encoder
      produces, what the network answers) is a parameter of the model.
    - The operations of the canvas do not throw, except in module
      [CanvasErrors], which gives [compressImage] with the [try] and [catch]
      of its [onload] handler; the rounding of the size of the canvas to
      whole pixels is not modelled.
    - Every computation appends what it did to a trace, which the properties
      below read; console output and the two-second pause between migrated
      items are not modelled.
    - Strings are sequences of 8-bit characters, compared by their codes as
      JavaScript compares code units. *)

From Stdlib Require Import QArith Qminmax Qround ZArith NArith Bool List String.
From Stdlib Require Import Lia Lqa.
From Stdlib Require PrimFloat.
From Stdlib Require Import Ascii DecimalString Permutation.
From Stdlib.Strings Require Byte.
From Stdlib Require OrderedTypeEx.
Import ListNotations.

(* ================================================================== *)
(** * Part I: the model                                                 *)
(* ================================================================== *)

(** ** JavaScript values and promises *)

Module Js.

(** A thrown value: an [Error] object with its message, or anything else. *)
Inductive Thrown : Type :=
| JsError (message : string)
| NonError.

(** How a promise ends. [Pending] is the promise that never settles. *)
Inductive Outcome (A : Type) : Type :=
| Resolved (a : A)
| Rejected (e : Thrown)
| Pending.

Arguments Resolved {A} a.
Arguments Rejected {A} e.
Arguments Pending {A}.

(** What an operation of the platform answers. *)
Inductive Response (A : Type) : Type :=
| Ok (a : A)
| Throws (e : Thrown).

Arguments Ok {A} a.
Arguments Throws {A} e.

Definition Async (S A : Type) : Type := S -> Outcome A * S.

Definition resolve {S A : Type} (a : A) : Async S A :=
  fun s => (Resolved a, s).

Definition reject {S A : Type} (e : Thrown) : Async S A :=
  fun s => (Rejected e, s).

Definition pending {S A : Type} : Async S A :=
  fun s => (Pending, s).

(** [await]: the continuation runs when the promise resolves. *)
Definition bind {S A B : Type} (m : Async S A) (k : A -> Async S B)
  : Async S B :=
  fun s =>
    match m s with
    | (Resolved a, s') => k a s'
    | (Rejected e, s') => (Rejected e, s')
    | (Pending, s') => (Pending, s')
    end.

(** [try { m } catch (e) { h e }]. *)
Definition try_catch {S A : Type} (m : Async S A) (h : Thrown -> Async S A)
  : Async S A :=
  fun s =>
    match m s with
    | (Rejected e, s') => h e s'
    | r => r
    end.

(** [error instanceof Error ? error.message : 'Unknown error']. *)
Definition message_of (e : Thrown) : string :=
  match e with
  | JsError m => m
  | NonError => "Unknown error"
  end.

(** A string is truthy when it is not empty. *)
Definition truthy (s : string) : bool :=
  negb (String.eqb s "").

(** Numbers. *)
Definition of_N (n : N) : Q := inject_Z (Z.of_N n).
Definition gtb (a b : Q) : bool := negb (Qle_bool a b).
Definition leb (a b : Q) : bool := Qle_bool a b.
Definition Math_max (a b : Q) : Q := Qmax a b.
Definition Math_min (a b : Q) : Q := Qmin a b.

End Js.

Import Js.

Declare Scope async_scope.
Delimit Scope async_scope with async.
Notation "x <- m ;; k" := (bind m (fun x => k))
  (at level 61, m at next level, right associativity) : async_scope.
Notation "m ;;; k" := (bind m (fun _ => k))
  (at level 61, right associativity) : async_scope.

(** ** URL classifiers ([src/lib/cloudinary.ts]) *)

Module Urls.

(** [s.includes(sub)]: [sub] occurs in [s] at some position. *)
Fixpoint includes (s sub : string) : bool :=
  String.prefix sub s ||
  match s with
  | EmptyString => false
  | String _ s' => includes s' sub
  end.

Definition isCloudinaryUrl (url : string) : bool :=
  includes url "cloudinary.com".

Definition isFirebaseStorageUrl (url : string) : bool :=
  includes url "firebasestorage.googleapis.com" || includes url "firebase".

(** [url] contains [sub]: it is [sub] with something before and after. *)
Definition contains (url sub : string) : Prop :=
  exists before after : string, url = (before ++ sub ++ after)%string.

End Urls.

(** ** Image compression (the compression utility) *)

Module Compression.

Set Implicit Arguments.

Local Open Scope Q_scope.
Local Open Scope async_scope.

Inductive Format : Type := jpeg | png | webp.

Definition format_name (f : Format) : string :=
  match f with
  | jpeg => "jpeg"
  | png => "png"
  | webp => "webp"
  end.

(** [`image/${format}`]. *)
Definition mime (f : Format) : string := ("image/" ++ format_name f)%string.

(** [interface CompressionOptions]: every field may be left out. *)
Record CompressionOptions : Type := {
  maxWidth : option Q;
  maxHeight : option Q;
  quality : option Q;
  format : option Format;
  maxSizeKB : option Q
}.

(** A destructuring default: the default stands in for a missing field. *)
Definition default {A : Type} (d : A) (o : option A) : A :=
  match o with
  | Some a => a
  | None => d
  end.

Definition maxAttempts : nat := 5.

Arguments maxAttempts : simpl never.

(** The new dimensions of the canvas (the block "Calculate new dimensions
    while maintaining aspect ratio" of [compressImage]). *)
Definition new_dimensions (maxWidth maxHeight width height : Q) : Q * Q :=
  if gtb width maxWidth || gtb height maxHeight then
    let aspectRatio := width / height in
    if gtb width height then
      let width' := Math_min maxWidth width in
      (width', width' / aspectRatio)
    else
      let height' := Math_min maxHeight height in
      (height' * aspectRatio, height')
  else (width, height).

(** [Math.max(0.1, quality * 0.7)]: the next quality of [smartCompress]. *)
Definition reduce_quality (quality : Q) : Q :=
  Math_max 0.1 (quality * 0.7).

Section Browser.

(** Encoded image data, and the state of the browser. *)
Variable Bytes : Type.
Variable World : Type.

Record Blob : Type := {
  blob_size : N;
  blob_type : string;
  blob_bytes : Bytes
}.

Record File : Type := {
  file_name : string;
  file_size : N;
  file_type : string;
  file_lastModified : N;
  file_bytes : Bytes
}.

(** The canvas after [drawImage(img, 0, 0, width, height)]. *)
Record Canvas : Type := {
  canvas_width : Q;
  canvas_height : Q;
  canvas_image : File
}.

(** [interface CompressionResult]. *)
Record CompressionResult : Type := {
  file : File;
  originalSize : N;
  compressedSize : N;
  compressionRatio : Q;
  width : Q;
  height : Q
}.

(** Loading the file into an [Image]: [onload] with the image's width
    and height, or [onerror]. *)
Variable img_load : File -> World -> option (N * N) * World.

(** [canvas.toBlob(callback, type, quality)]: the callback receives a
    blob, or null. *)
Variable canvas_toBlob :
  Canvas -> string -> Q -> World -> option Blob * World.

(** [Date.now()]. *)
Variable Date_now : World -> N.

Inductive Event : Type :=
| EvLoad (f : File) (r : option (N * N))
| EvToBlob (c : Canvas) (type : string) (q : Q) (r : option Blob)
| EvCompress (f : File) (o : CompressionOptions)
             (r : Outcome CompressionResult).

Record St : Type := {
  world : World;
  trace : list Event
}.

Definition record (e : Event) (st : St) : St :=
  {| world := world st; trace := trace st ++ [e] |}.

Definition load (f : File) : Async St (option (N * N)) :=
  fun st =>
    let '(r, w) := img_load f (world st) in
    (Resolved r, record (EvLoad f r) {| world := w; trace := trace st |}).

Definition toBlob (c : Canvas) (type : string) (q : Q)
  : Async St (option Blob) :=
  fun st =>
    let '(r, w) := canvas_toBlob c type q (world st) in
    (Resolved r,
     record (EvToBlob c type q r) {| world := w; trace := trace st |}).

Definition now : Async St N :=
  fun st => (Resolved (Date_now (world st)), st).

(** [new File([blob], file.name, { type, lastModified })] and the
    [CompressionResult] built from it. *)
Definition compression_result (f : File) (type : string) (b : Blob)
           (width height : Q) (lastModified : N) : CompressionResult :=
  {| file := {| file_name := file_name f;
                file_size := blob_size b;
                file_type := type;
                file_lastModified := lastModified;
                file_bytes := blob_bytes b |};
     originalSize := file_size f;
     compressedSize := blob_size b;
     compressionRatio := (1 - of_N (blob_size b) / of_N (file_size f)) * 100;
     width := width;
     height := height |}.

Definition result_of (f : File) (type : string) (b : Blob)
           (width height : Q) : Async St CompressionResult :=
  t <- now ;;
  resolve (compression_result f type b width height t).

Definition compressImage_run (f : File) (options : CompressionOptions)
  : Async St CompressionResult :=
  let maxWidth := default 1920 (maxWidth options) in
  let maxHeight := default 1080 (maxHeight options) in
  let quality := default 0.8 (quality options) in
  let format := default jpeg (format options) in
  let maxSizeKB := default 500 (maxSizeKB options) in
  loaded <- load f ;;
  match loaded with
  | None => reject (JsError "Failed to load image")
  | Some (w, h) =>
    let '(width, height) :=
      new_dimensions maxWidth maxHeight (of_N w) (of_N h) in
    let canvas := {| canvas_width := width;
                     canvas_height := height;
                     canvas_image := f |} in
    blob <- toBlob canvas (mime format) quality ;;
    match blob with
    | None => reject (JsError "Failed to compress image")
    | Some blob =>
      let compressedSizeKB := of_N (blob_size blob) / 1024 in
      if gtb compressedSizeKB maxSizeKB then
        let newQuality :=
          Math_max 0.1 (quality * (maxSizeKB / compressedSizeKB)) in
        finalBlobCompressed <- toBlob canvas (mime format) newQuality ;;
        match finalBlobCompressed with
        | None => reject (JsError "Failed to further compress image")
        | Some finalBlobCompressed =>
          result_of f (mime format) finalBlobCompressed width height
        end
      else result_of f (mime format) blob width height
    end
  end.

(** [compressImage], with the call and its outcome added to the trace. *)
Definition compressImage (f : File) (options : CompressionOptions)
  : Async St CompressionResult :=
  fun st =>
    let '(r, st') := compressImage_run f options st in
    (r, record (EvCompress f options r) st').

(** How the [while] loop of [smartCompress] ends: with a [return]
    inside the loop, or with its condition false. *)
Inductive LoopExit : Type :=
| Returned (result : CompressionResult)
| Exhausted (attempt : nat) (quality : Q).

(** The options of the attempts of the loop. *)
Definition attempt_options (quality targetSizeKB : Q)
  : CompressionOptions :=
  {| maxWidth := Some 1920;
     maxHeight := Some 1080;
     quality := Some quality;
     format := Some jpeg;
     maxSizeKB := Some targetSizeKB |}.

(** The 10% tolerance test on a result. *)
Definition within_tolerance (result : CompressionResult)
           (targetSizeKB : Q) : bool :=
  let resultSizeKB := of_N (compressedSize result) / 1024 in
  leb resultSizeKB (targetSizeKB * 1.1).

(** [while (attempt < maxAttempts) { try { ... } catch { ... } }].
    The fuel bounds the number of tests of the loop condition. *)
Fixpoint smartCompress_loop (fuel : nat) (f : File) (targetSizeKB : Q)
         (attempt : nat) (quality : Q) : Async St LoopExit :=
  match fuel with
  | O => pending
  | S fuel' =>
    if (attempt <? maxAttempts)%nat then
      returned <-
        try_catch
          (result <- compressImage f
                       (attempt_options quality targetSizeKB) ;;
           if within_tolerance result targetSizeKB
           then resolve (Some result)
           else resolve None)
          (fun _ => resolve None) ;;
      match returned with
      | Some result => resolve (Returned result)
      | None =>
        smartCompress_loop fuel' f targetSizeKB
                           (S attempt) (reduce_quality quality)
      end
    else resolve (Exhausted attempt quality)
  end.

(** The options of the call after the loop: [{ quality: 0.1 }]. *)
Definition fallback_options : CompressionOptions :=
  {| maxWidth := None;
     maxHeight := None;
     quality := Some 0.1;
     format := None;
     maxSizeKB := None |}.

(** The result of the last [catch]: the file itself. *)
Definition original_file_result (f : File) : CompressionResult :=
  {| file := f;
     originalSize := file_size f;
     compressedSize := file_size f;
     compressionRatio := 0;
     width := 0;
     height := 0 |}.

Definition smartCompress (f : File) (targetSizeKB : Q)
  : Async St CompressionResult :=
  exit <- smartCompress_loop (S maxAttempts) f targetSizeKB 0 0.9 ;;
  match exit with
  | Returned result => resolve result
  | Exhausted _ _ =>
    try_catch (compressImage f fallback_options)
              (fun _ => resolve (original_file_result f))
  end.

(** The result of [smartCompress] when the loop is exhausted, from the
    outcome of the call after the loop. *)
Definition after_loop (f : File) (r : Outcome CompressionResult)
  : CompressionResult :=
  match r with
  | Resolved result => result
  | _ => original_file_result f
  end.

(** *** Reading a trace *)

Definition is_load (e : Event) : bool :=
  match e with EvLoad _ _ => true | _ => false end.

Definition is_toBlob (e : Event) : bool :=
  match e with EvToBlob _ _ _ _ => true | _ => false end.

Definition is_compress (e : Event) : bool :=
  match e with EvCompress _ _ _ => true | _ => false end.

(** The image loads, the encoder calls and the [compressImage] calls. *)
Definition loads (tr : list Event) : list Event := filter is_load tr.
Definition encodes (tr : list Event) : list Event := filter is_toBlob tr.
Definition calls (tr : list Event) : list Event := filter is_compress tr.

(** *** Reading a call of [compressImage] *)

(** The canvas of a call on an image of [w] by [h] pixels. *)
Definition canvas_of (o : CompressionOptions) (f : File) (w h : N) : Canvas :=
  let '(width, height) :=
    new_dimensions (default 1920 (maxWidth o)) (default 1080 (maxHeight o))
                   (of_N w) (of_N h) in
  {| canvas_width := width; canvas_height := height; canvas_image := f |}.

(** The type and the quality of the first encoding. *)
Definition type_of (o : CompressionOptions) : string :=
  mime (default jpeg (format o)).

Definition first_quality (o : CompressionOptions) : Q :=
  default 0.8 (quality o).

(** The size test on the first blob, and the quality of the second
    encoding when the test holds. *)
Definition too_large (o : CompressionOptions) (b : Blob) : bool :=
  gtb (of_N (blob_size b) / 1024) (default 500 (maxSizeKB o)).

Definition second_quality (o : CompressionOptions) (b : Blob) : Q :=
  Math_max 0.1
    (first_quality o
     * (default 500 (maxSizeKB o) / (of_N (blob_size b) / 1024))).

(** The result built from a blob encoded from a canvas. *)
Definition result_from (o : CompressionOptions) (f : File) (c : Canvas)
           (b : Blob) (t : N) : CompressionResult :=
  compression_result f (type_of o) b (canvas_width c) (canvas_height c) t.

(** What a call does, by what the browser answers: the events it adds to
    the trace (before the event of the call itself), its outcome and the
    world it leaves. *)
Inductive call_run (f : File) (o : CompressionOptions) (w0 : World)
  : list Event -> Outcome CompressionResult -> World -> Prop :=
| load_failed w1 :
    img_load f w0 = (None, w1) ->
    call_run f o w0 [EvLoad f None]
             (Rejected (JsError "Failed to load image")) w1
| encode_failed w h w1 w2 :
    img_load f w0 = (Some (w, h), w1) ->
    canvas_toBlob (canvas_of o f w h) (type_of o) (first_quality o) w1
    = (None, w2) ->
    call_run f o w0
             [EvLoad f (Some (w, h));
              EvToBlob (canvas_of o f w h) (type_of o) (first_quality o) None]
             (Rejected (JsError "Failed to compress image")) w2
| encoded_once w h w1 b w2 :
    img_load f w0 = (Some (w, h), w1) ->
    canvas_toBlob (canvas_of o f w h) (type_of o) (first_quality o) w1
    = (Some b, w2) ->
    too_large o b = false ->
    call_run f o w0
             [EvLoad f (Some (w, h));
              EvToBlob (canvas_of o f w h) (type_of o) (first_quality o)
                       (Some b)]
             (Resolved (result_from o f (canvas_of o f w h) b (Date_now w2)))
             w2
| second_encode_failed w h w1 b w2 w3 :
    img_load f w0 = (Some (w, h), w1) ->
    canvas_toBlob (canvas_of o f w h) (type_of o) (first_quality o) w1
    = (Some b, w2) ->
    too_large o b = true ->
    canvas_toBlob (canvas_of o f w h) (type_of o) (second_quality o b) w2
    = (None, w3) ->
    call_run f o w0
             [EvLoad f (Some (w, h));
              EvToBlob (canvas_of o f w h) (type_of o) (first_quality o)
                       (Some b);
              EvToBlob (canvas_of o f w h) (type_of o) (second_quality o b)
                       None]
             (Rejected (JsError "Failed to further compress image")) w3
| encoded_twice w h w1 b w2 b' w3 :
    img_load f w0 = (Some (w, h), w1) ->
    canvas_toBlob (canvas_of o f w h) (type_of o) (first_quality o) w1
    = (Some b, w2) ->
    too_large o b = true ->
    canvas_toBlob (canvas_of o f w h) (type_of o) (second_quality o b) w2
    = (Some b', w3) ->
    call_run f o w0
             [EvLoad f (Some (w, h));
              EvToBlob (canvas_of o f w h) (type_of o) (first_quality o)
                       (Some b);
              EvToBlob (canvas_of o f w h) (type_of o) (second_quality o b)
                       (Some b')]
             (Resolved (result_from o f (canvas_of o f w h) b' (Date_now w3)))
             w3.

(** The tolerance test did not let the loop return on this outcome. *)
Definition retried (targetSizeKB : Q) (r : Outcome CompressionResult)
  : Prop :=
  match r with
  | Resolved result => within_tolerance result targetSizeKB = false
  | Rejected _ => True
  | Pending => False
  end.

(** What the loop of [smartCompress] does from a given attempt, quality
    and world: the events it adds to the trace, how it ends and the world
    it leaves. *)
Inductive loop_run (f : File) (targetSizeKB : Q)
  : nat -> Q -> World -> list Event -> LoopExit -> World -> Prop :=
| loop_exhausted attempt quality w :
    (attempt <? maxAttempts)%nat = false ->
    loop_run f targetSizeKB attempt quality w [] (Exhausted attempt quality) w
| loop_returned attempt quality w evs result w' :
    (attempt <? maxAttempts)%nat = true ->
    call_run f (attempt_options quality targetSizeKB) w evs
             (Resolved result) w' ->
    within_tolerance result targetSizeKB = true ->
    loop_run f targetSizeKB attempt quality w
             (evs ++ [EvCompress f (attempt_options quality targetSizeKB)
                                 (Resolved result)])
             (Returned result) w'
| loop_retried attempt quality w evs r w1 evs' exit w' :
    (attempt <? maxAttempts)%nat = true ->
    call_run f (attempt_options quality targetSizeKB) w evs r w1 ->
    retried targetSizeKB r ->
    loop_run f targetSizeKB (S attempt) (reduce_quality quality) w1
             evs' exit w' ->
    loop_run f targetSizeKB attempt quality w
             (evs ++ [EvCompress f (attempt_options quality targetSizeKB) r]
                  ++ evs')
             exit w'.

(** The call of the event, if it is one, did not pass the tolerance test. *)
Definition call_retried (targetSizeKB : Q) (e : Event) : Prop :=
  match e with
  | EvCompress _ _ r => retried targetSizeKB r
  | _ => True
  end.

(** A quality factor of the closed interval from 0.1 to 0.9. *)
Definition in_range (q : Q) : Prop := 0.1 <= q /\ q <= 0.9.

(** The quality of the event, a call or an encoding, is in range. *)
Definition quality_in_range (e : Event) : Prop :=
  match e with
  | EvCompress _ o _ => exists q, quality o = Some q /\ in_range q
  | EvToBlob _ _ q _ => in_range q
  | EvLoad _ _ => True
  end.

(** The encoder gave no blob in any of the events. *)
Definition no_blob (e : Event) : Prop :=
  match e with
  | EvToBlob _ _ _ (Some _) => False
  | _ => True
  end.

(** The call of the event, if it is one, rejected. *)
Definition call_rejected (e : Event) : Prop :=
  match e with
  | EvCompress _ _ (Rejected _) => True
  | EvCompress _ _ _ => False
  | _ => True
  end.

(** *** The calls of a trace *)

(** The events of a trace call by call: a call ends with its
    [EvCompress]; [cur] holds the events of the call being read. *)
Fixpoint split_calls (cur tr : list Event) : list (list Event) :=
  match tr with
  | [] =>
    match cur with
    | [] => []
    | _ :: _ => [cur]
    end
  | e :: tr' =>
    if is_compress e then (cur ++ [e]) :: split_calls [] tr'
    else split_calls (cur ++ [e]) tr'
  end.

(** The events of one call: one load first, then at most two encodings. *)
Definition is_call (evs : list Event) : bool :=
  match evs with
  | [EvLoad _ _; EvCompress _ _ _] => true
  | [EvLoad _ _; EvToBlob _ _ _ _; EvCompress _ _ _] => true
  | [EvLoad _ _; EvToBlob _ _ _ _; EvToBlob _ _ _ _; EvCompress _ _ _] =>
    true
  | _ => false
  end.

(** *** The other functions of the compression utility *)

(** [needsCompression(file, maxSizeKB)]. *)
Definition needsCompression (f : File) (maxSizeKB : Q) : bool :=
  let sizeKB := of_N (file_size f) / 1024 in
  gtb sizeKB maxSizeKB.

Definition preset (quality maxSizeKB : Q) : CompressionOptions :=
  {| maxWidth := Some 1920;
     maxHeight := Some 1080;
     quality := Some quality;
     format := Some jpeg;
     maxSizeKB := Some maxSizeKB |}.

(** [getRecommendedOptions(file)]. *)
Definition getRecommendedOptions (f : File) : CompressionOptions :=
  let sizeMB := of_N (file_size f) / (1024 * 1024) in
  if gtb sizeMB 5 then preset 0.6 300
  else if gtb sizeMB 2 then preset 0.7 400
  else if gtb sizeMB 1 then preset 0.8 500
  else preset 0.9 600.

(** The quality of the attempt of the loop after [reductions] reductions. *)
Definition attempt_quality (reductions : nat) : Q :=
  Nat.iter reductions reduce_quality 0.9.

(** The qualities the calls of [compressImage] in a trace were given. *)
Fixpoint call_qualities (tr : list Event) : list (option Q) :=
  match tr with
  | [] => []
  | EvCompress _ o _ :: tr' => quality o :: call_qualities tr'
  | _ :: tr' => call_qualities tr'
  end.

(** The qualities the encoder was given in a trace. *)
Fixpoint encode_qualities (tr : list Event) : list Q :=
  match tr with
  | [] => []
  | EvToBlob _ _ q _ :: tr' => q :: encode_qualities tr'
  | _ :: tr' => encode_qualities tr'
  end.

(** The start state: a world and an empty trace. *)
Definition start (w : World) : St := {| world := w; trace := [] |}.

End Browser.

Arguments start {Bytes World} w.
Arguments Exhausted {Bytes} attempt quality.
Arguments no_blob {Bytes} e.
Arguments call_rejected {Bytes} e.
Arguments retried {Bytes} targetSizeKB r.
Arguments call_retried {Bytes} targetSizeKB e.
Arguments quality_in_range {Bytes} e.
Arguments is_call {Bytes} evs.
Arguments split_calls {Bytes} cur tr.

End Compression.

(** ** [compressImage] with the exceptions of the canvas *)

(** The [onload] handler of [compressImage] runs in a [try] block, and
    its [catch] rejects the promise with what was thrown.  In this module
    the operations of the canvas may throw: sizing and drawing, and the
    call of [toBlob].  The callback of the first [toBlob] runs after the
    [try] block has been left, so what the second call of [toBlob] throws
    there is caught by nothing: neither [resolve] nor [reject] is called
    and the promise never settles. *)

Module CanvasErrors.

Import Compression.

Set Implicit Arguments.

Local Open Scope Q_scope.
Local Open Scope async_scope.

Section Browser.

Variable Bytes : Type.
Variable World : Type.

(** Loading the file into an [Image]: [onload] with the image's width
    and height, or [onerror]. *)
Variable img_load : File Bytes -> World -> option (N * N) * World.

(** [canvas.width = width; canvas.height = height;
    ctx?.drawImage(img, 0, 0, width, height)]. *)
Variable canvas_draw : Canvas Bytes -> World -> Response unit * World.

(** [canvas.toBlob(callback, type, quality)]: the call throws, or the
    callback receives a blob, or null. *)
Variable canvas_toBlob :
  Canvas Bytes -> string -> Q -> World
  -> Response (option (Blob Bytes)) * World.

(** [Date.now()]. *)
Variable Date_now : World -> N.

Definition load (f : File Bytes) : Async World (option (N * N)) :=
  fun w => let '(r, w') := img_load f w in (Resolved r, w').

(** An operation inside the [try] block:
    [catch (error) { reject(error) }]. *)
Definition caught {A : Type} (op : World -> Response A * World)
  : Async World A :=
  fun w =>
    match op w with
    | (Ok a, w') => (Resolved a, w')
    | (Throws error, w') => (Rejected error, w')
    end.

(** An operation inside a callback of [toBlob]. *)
Definition uncaught {A : Type} (op : World -> Response A * World)
  : Async World A :=
  fun w =>
    match op w with
    | (Ok a, w') => (Resolved a, w')
    | (Throws _, w') => (Pending, w')
    end.

Definition result_of (f : File Bytes) (type : string) (b : Blob Bytes)
           (width height : Q) : Async World (CompressionResult Bytes) :=
  fun w =>
    (Resolved (compression_result f type b width height (Date_now w)), w).

Definition compressImage (f : File Bytes) (options : CompressionOptions)
  : Async World (CompressionResult Bytes) :=
  let maxWidth := default 1920 (maxWidth options) in
  let maxHeight := default 1080 (maxHeight options) in
  let quality := default 0.8 (quality options) in
  let format := default jpeg (format options) in
  let maxSizeKB := default 500 (maxSizeKB options) in
  loaded <- load f ;;
  match loaded with
  | None => reject (JsError "Failed to load image")
  | Some (w, h) =>
    let '(width, height) :=
      new_dimensions maxWidth maxHeight (of_N w) (of_N h) in
    let canvas := {| canvas_width := width;
                     canvas_height := height;
                     canvas_image := f |} in
    caught (canvas_draw canvas) ;;;
    blob <- caught (canvas_toBlob canvas (mime format) quality) ;;
    match blob with
    | None => reject (JsError "Failed to compress image")
    | Some blob =>
      let compressedSizeKB := of_N (blob_size blob) / 1024 in
      if gtb compressedSizeKB maxSizeKB then
        let newQuality :=
          Math_max 0.1 (quality * (maxSizeKB / compressedSizeKB)) in
        finalBlobCompressed <-
          uncaught (canvas_toBlob canvas (mime format) newQuality) ;;
        match finalBlobCompressed with
        | None => reject (JsError "Failed to further compress image")
        | Some finalBlobCompressed =>
          result_of f (mime format) finalBlobCompressed width height
        end
      else result_of f (mime format) blob width height
    end
  end.

(** A canvas that does not throw, from an encoder that gives a blob or
    null. *)
Definition never_throws
           (toBlob : Canvas Bytes -> string -> Q -> World
                     -> option (Blob Bytes) * World) : Prop :=
  (forall c w, canvas_draw c w = (Ok tt, w))
  /\ (forall c type q w,
        canvas_toBlob c type q w
        = (Ok (fst (toBlob c type q w)), snd (toBlob c type q w))).

End Browser.

End CanvasErrors.


(** ** Migration from Firebase Storage to Cloudinary (the migration utility) *)

Module Migration.

Set Implicit Arguments.

Local Open Scope async_scope.
Local Open Scope string_scope.

(** [interface Product]. *)
Record Product : Type := {
  id : string;
  name : string;
  image_url : string;
  old_firebase_url : option string
}.

(** The fields [migrateProductToCloudinary] writes to the product. *)
Record UpdateData : Type := {
  new_image_url : string;
  migrated_to_cloudinary_at : string;
  updated_at : string;
  new_old_firebase_url : option string
}.

(** The summary [migrateAllToCloudinary] returns. *)
Record Results : Type := {
  total : nat;
  migrated : nat;
  skipped : nat;
  failed : nat;
  errors : list (string * string)
}.

(** [s && isFirebaseStorageUrl(s)] for a field that may be missing. *)
Definition is_firebase_field (s : option string) : bool :=
  match s with
  | Some s => truthy s && Urls.isFirebaseStorageUrl s
  | None => false
  end.

(** The filter of [migrateAllToCloudinary]: the products to migrate. *)
Definition needs_migration (p : Product) : bool :=
  let hasFirebaseUrl :=
    is_firebase_field (old_firebase_url p)
    || is_firebase_field (Some (image_url p)) in
  hasFirebaseUrl && negb (Urls.includes (image_url p) "cloudinary.com").

(** The Firebase Storage URL [migrateProductToCloudinary] migrates. *)
Definition firebaseUrl_of (p : Product) : option string :=
  if is_firebase_field (old_firebase_url p) then old_firebase_url p
  else if is_firebase_field (Some (image_url p)) then Some (image_url p)
  else None.

(** [firebaseUrl !== product.old_firebase_url]. *)
Definition differs (url : string) (field : option string) : bool :=
  match field with
  | Some s => negb (String.eqb url s)
  | None => true
  end.

Section Services.

(** The state of the network and of the document store, and the handle
    of the store. *)
Variable World : Type.
Variable Firestore : Type.

(** [db]: null when Firebase is not initialized. *)
Variable db : option Firestore.

(** [getDocs(collection(db, 'products'))], each document with its id. *)
Variable getDocs : Firestore -> World -> Response (list Product) * World.

(** [uploadFromUrl(imageUrl, folder)] of [src/lib/cloudinary.ts]. *)
Variable uploadFromUrl : string -> string -> World -> Response string * World.

(** [updateDoc(doc(db, 'products', id), updateData)]. *)
Variable updateDoc :
  Firestore -> string -> UpdateData -> World -> Response unit * World.

(** [new Date().toISOString()]. *)
Variable Date_toISOString : World -> string.

Inductive Event : Type :=
| EvUpload (url folder : string) (r : Response string)
| EvUpdateDoc (id : string) (data : UpdateData) (r : Response unit)
| EvMigrate (p : Product) (r : Outcome (option string)).

Record St : Type := {
  world : World;
  trace : list Event
}.

Definition record (e : Event) (st : St) : St :=
  {| world := world st; trace := trace st ++ [e] |}.

(** The promise of an operation of the platform. *)
Definition settle {A : Type} (r : Response A) : Outcome A :=
  match r with
  | Ok a => Resolved a
  | Throws e => Rejected e
  end.

Definition fetch_products (d : Firestore) : Async St (list Product) :=
  fun st =>
    let '(r, w) := getDocs d (world st) in
    (settle r, {| world := w; trace := trace st |}).

Definition upload (url folder : string) : Async St string :=
  fun st =>
    let '(r, w) := uploadFromUrl url folder (world st) in
    (settle r, record (EvUpload url folder r) {| world := w; trace := trace st |}).

Definition update (d : Firestore) (id : string) (data : UpdateData)
  : Async St unit :=
  fun st =>
    let '(r, w) := updateDoc d id data (world st) in
    (settle r, record (EvUpdateDoc id data r) {| world := w; trace := trace st |}).

Definition date : Async St string :=
  fun st => (Resolved (Date_toISOString (world st)), st).

Definition migrateProductToCloudinary (product : Product)
  : Async St (option string) :=
  match firebaseUrl_of product with
  | None => resolve None
  | Some firebaseUrl =>
    try_catch
      (cloudinaryUrl <- upload firebaseUrl "products" ;;
       match db with
       | Some d =>
         migrated_at <- date ;;
         updated <- date ;;
         let updateData :=
           {| new_image_url := cloudinaryUrl;
              migrated_to_cloudinary_at := migrated_at;
              updated_at := updated;
              new_old_firebase_url :=
                if String.eqb firebaseUrl (image_url product)
                   && differs firebaseUrl (old_firebase_url product)
                then Some firebaseUrl
                else None |} in
         update d (id product) updateData
       | None => resolve tt
       end ;;;
       resolve (Some cloudinaryUrl))
      (fun error => reject error)
  end.

(** One iteration of the loop: the [try] counts a migrated product, the
    [catch] counts a failed one and keeps its message. *)
Definition migrate_one (product : Product) (results : Results)
  : Async St Results :=
  fun st =>
    match migrateProductToCloudinary product st with
    | (Resolved r, st') =>
      (Resolved {| total := total results;
                   migrated := S (migrated results);
                   skipped := skipped results;
                   failed := failed results;
                   errors := errors results |},
       record (EvMigrate product (Resolved r)) st')
    | (Rejected error, st') =>
      (Resolved {| total := total results;
                   migrated := migrated results;
                   skipped := skipped results;
                   failed := S (failed results);
                   errors := errors results
                             ++ [(name product, message_of error)] |},
       record (EvMigrate product (Rejected error)) st')
    | (Pending, st') => (Pending, st')
    end.

(** [for (let i = 0; i < productsToMigrate.length; i++) { ... }]. *)
Fixpoint migrate_loop (productsToMigrate : list Product) (results : Results)
  : Async St Results :=
  match productsToMigrate with
  | [] => resolve results
  | product :: rest =>
    results' <- migrate_one product results ;;
    migrate_loop rest results'
  end.

Definition migrateAllToCloudinary : Async St Results :=
  match db with
  | None => reject (JsError "❌ Firebase not initialized")
  | Some d =>
    try_catch
      (products <- fetch_products d ;;
       let results :=
         {| total := List.length products;
            migrated := 0;
            skipped := 0;
            failed := 0;
            errors := [] |} in
       let productsToMigrate := filter needs_migration products in
       if (List.length productsToMigrate =? 0)%nat then resolve results
       else
         results <- migrate_loop productsToMigrate results ;;
         resolve {| total := total results;
                    migrated := migrated results;
                    skipped := total results - List.length productsToMigrate;
                    failed := failed results;
                    errors := errors results |})
      (fun error => reject error)
  end.

(** The products the loop processed, in order, and how each one ended. *)
Fixpoint processed (tr : list Event)
  : list (Product * Outcome (option string)) :=
  match tr with
  | [] => []
  | EvMigrate p r :: tr' => (p, r) :: processed tr'
  | _ :: tr' => processed tr'
  end.

Definition is_resolved {A : Type} (r : Outcome A) : bool :=
  match r with Resolved _ => true | _ => false end.

Definition is_rejected {A : Type} (r : Outcome A) : bool :=
  match r with Rejected _ => true | _ => false end.

(** How many of the processed products were migrated, and how many failed. *)
Definition succeeded (l : list (Product * Outcome (option string))) : nat :=
  List.length (filter (fun pr => is_resolved (snd pr)) l).

Definition failures (l : list (Product * Outcome (option string))) : nat :=
  List.length (filter (fun pr => is_rejected (snd pr)) l).

(** The entry of the error list for a product whose migration rejected. *)
Definition error_entries (l : list (Product * Outcome (option string)))
  : list (string * string) :=
  flat_map (fun pr =>
              match snd pr with
              | Rejected e => [(name (fst pr), message_of e)]
              | _ => []
              end) l.

(** *** Reading what the platform answered *)

(** The operations of the platform in a trace: the uploads and the
    writes. *)
Definition is_platform (e : Event) : bool :=
  match e with
  | EvMigrate _ _ => false
  | _ => true
  end.

Definition platform (tr : list Event) : list Event := filter is_platform tr.

(** How the migration of each product of [ps] has to end, read from what
    the platform answered and from nothing else.  A product without a
    Firebase Storage URL asks nothing and resolves with null.  For any
    other product its URL is uploaded to "products" and, when the upload
    gave a URL and the store is there, its document is written with that
    URL; the product is rejected with what the upload or the write threw,
    and resolves with the URL otherwise.  The result is [None] when the
    operations are not those of the products of [ps], one product after
    the other. *)
Fixpoint replay (ps : list Product) (tr : list Event)
  : option (list (Product * Outcome (option string))) :=
  match ps with
  | [] =>
    match tr with
    | [] => Some []
    | _ :: _ => None
    end
  | p :: ps' =>
    match firebaseUrl_of p with
    | None => option_map (cons (p, Resolved None)) (replay ps' tr)
    | Some url =>
      match tr with
      | EvUpload url' folder (Throws e) :: tr' =>
        if String.eqb url' url && String.eqb folder "products"
        then option_map (cons (p, Rejected e)) (replay ps' tr')
        else None
      | EvUpload url' folder (Ok u) :: tr' =>
        if String.eqb url' url && String.eqb folder "products" then
          match db with
          | None => option_map (cons (p, Resolved (Some u))) (replay ps' tr')
          | Some _ =>
            match tr' with
            | EvUpdateDoc i data r :: tr'' =>
              if String.eqb i (id p) && String.eqb (new_image_url data) u
              then option_map
                     (cons (p, match r with
                               | Ok _ => Resolved (Some u)
                               | Throws e => Rejected e
                               end))
                     (replay ps' tr'')
              else None
            | _ => None
            end
          end
        else None
      | _ => None
      end
    end
  end.

(** The answer recorded in the event is an answer of the platform to the
    operation of the event. *)
Definition answered (e : Event) : Prop :=
  match e with
  | EvUpload url folder r => exists w, fst (uploadFromUrl url folder w) = r
  | EvUpdateDoc i data r => exists d w, fst (updateDoc d i data w) = r
  | EvMigrate _ _ => True
  end.

(** *** The other functions of the migration utility *)

(** [(p.old_firebase_url && isFirebaseStorageUrl(p.old_firebase_url)) ||
    (p.image_url && isFirebaseStorageUrl(p.image_url))]. *)
Definition hasFirebaseUrl (p : Product) : bool :=
  is_firebase_field (old_firebase_url p)
  || is_firebase_field (Some (image_url p)).

(** The step of the [forEach] of [testCloudinaryMigration]: the first
    product with a Firebase Storage URL is kept. *)
Definition keep_first (testProduct : option Product) (product : Product)
  : option Product :=
  match testProduct with
  | None => if hasFirebaseUrl product then Some product else None
  | Some _ => testProduct
  end.

(** [testCloudinaryMigration()]. *)
Definition testCloudinaryMigration : Async St unit :=
  match db with
  | None => reject (JsError "❌ Firebase not initialized")
  | Some d =>
    try_catch
      (products <- fetch_products d ;;
       match fold_left keep_first products None with
       | None => resolve tt
       | Some productToMigrate =>
         migrateProductToCloudinary productToMigrate ;;;
         resolve tt
       end)
      (fun error => reject error)
  end.

(** The counters of [checkMigrationStatus]. *)
Record Status : Type := {
  totalProducts : nat;
  cloudinaryProducts : nat;
  firebaseProducts : nat;
  otherProducts : nat
}.

(** The step of the [forEach] of [checkMigrationStatus]. *)
Definition count_product (s : Status) (product : Product) : Status :=
  let s := {| totalProducts := S (totalProducts s);
              cloudinaryProducts := cloudinaryProducts s;
              firebaseProducts := firebaseProducts s;
              otherProducts := otherProducts s |} in
  if Urls.includes (image_url product) "cloudinary.com" then
    {| totalProducts := totalProducts s;
       cloudinaryProducts := S (cloudinaryProducts s);
       firebaseProducts := firebaseProducts s;
       otherProducts := otherProducts s |}
  else if hasFirebaseUrl product then
    {| totalProducts := totalProducts s;
       cloudinaryProducts := cloudinaryProducts s;
       firebaseProducts := S (firebaseProducts s);
       otherProducts := otherProducts s |}
  else
    {| totalProducts := totalProducts s;
       cloudinaryProducts := cloudinaryProducts s;
       firebaseProducts := firebaseProducts s;
       otherProducts := S (otherProducts s) |}.

(** [checkMigrationStatus()].  The function prints its four counters and
    returns nothing; here it resolves with the counters it prints. *)
Definition checkMigrationStatus : Async St Status :=
  match db with
  | None => reject (JsError "❌ Firebase not initialized")
  | Some d =>
    try_catch
      (products <- fetch_products d ;;
       resolve (fold_left count_product products
                          {| totalProducts := 0;
                             cloudinaryProducts := 0;
                             firebaseProducts := 0;
                             otherProducts := 0 |}))
      (fun error => reject error)
  end.

Definition start (w : World) : St := {| world := w; trace := [] |}.

End Services.

Arguments start {World} w.

End Migration.


(** ** Concrete browsers *)

Module Examples.

Import Compression.
Local Open Scope Q_scope.

(** The state of these browsers counts the operations performed; the image
    data is opaque. *)
Definition photo (size : N) : File unit :=
  {| file_name := "photo.jpg";
     file_size := size;
     file_type := "image/jpeg";
     file_lastModified := 0;
     file_bytes := tt |}.

(** The file is not an image: loading it fails. *)
Definition load_never : File unit -> nat -> option (N * N) * nat :=
  fun _ n => (None, S n).

(** The file is an image of [w] by [h] pixels. *)
Definition load_as (w h : N) : File unit -> nat -> option (N * N) * nat :=
  fun _ n => (Some (w, h), S n).

(** An encoder that gives no blob. *)
Definition encoder_none
  : Canvas unit -> string -> Q -> nat -> option (Blob unit) * nat :=
  fun _ _ _ n => (None, S n).

(** An encoder whose output has [quality * full] bytes, rounded down. *)
Definition encoder_linear (full : N)
  : Canvas unit -> string -> Q -> nat -> option (Blob unit) * nat :=
  fun _ type q n =>
    (Some {| blob_size := Z.to_N (Qfloor (q * of_N full));
             blob_type := type;
             blob_bytes := tt |},
     S n).

Definition clock : nat -> N := N.of_nat.

(** A photo of 5 MB that no encoder output exists for, target 300 KB. *)
Definition run_without_encoder :=
  smartCompress (load_as 4000 3000) encoder_none clock
                (photo 5242880) 300 (start 0%nat).

(** A file of 5 MB that is not an image, target 300 KB. *)
Definition run_corrupt_file :=
  smartCompress load_never (encoder_linear 409600) clock
                (photo 5242880) 300 (start 0%nat).

(** A photo of 5 MB, 4000 by 3000 pixels, target 300 KB. *)
Definition run_large_photo :=
  smartCompress (load_as 4000 3000) (encoder_linear 409600) clock
                (photo 5242880) 300 (start 0%nat).

(** One call of [compressImage] on that photo, with the options
    recommended for it. *)
Definition run_recommended :=
  compressImage (load_as 4000 3000) (encoder_linear 409600) clock
                (photo 5242880) (getRecommendedOptions (photo 5242880))
                (start 0%nat).

(** The same call with an encoder that gives 700 KB at quality 0.7, above
    the 400 KB recommended: there is a second encoding. *)
Definition run_two_encodings :=
  compressImage (load_as 4000 3000) (encoder_linear 1024000) clock
                (photo 5242880) (getRecommendedOptions (photo 5242880))
                (start 0%nat).

(** A canvas that draws, and whose [toBlob] throws (a tainted canvas). *)
Definition draw_ok : Canvas unit -> nat -> Response unit * nat :=
  fun _ n => (Ok tt, S n).

Definition toBlob_throws
  : Canvas unit -> string -> Q -> nat
    -> Response (option (Blob unit)) * nat :=
  fun _ _ _ n => (Throws (JsError "The operation is insecure."), S n).

Definition run_tainted_canvas :=
  CanvasErrors.compressImage (load_as 4000 3000) draw_ok toBlob_throws clock
                             (photo 5242880)
                             (getRecommendedOptions (photo 5242880)) 0%nat.

End Examples.

(** ** The arithmetic of the compression utility on IEEE doubles

    The two computations of the compression utility whose results the
    properties below bound, the quality reduction and the new dimensions,
    on binary64 numbers as JavaScript has them. *)

Module Binary64.

Import PrimFloat.
Local Open Scope float_scope.
#[local] Set Warnings "-inexact-float".

(** [Math.max] and [Math.min]: NaN if an argument is, and [-0] below [+0]. *)
Definition Math_max (a b : float) : float :=
  if is_nan a || is_nan b then nan
  else if ltb a b then b
  else if ltb b a then a
  else if PrimFloat.eqb a zero then a + b
  else a.

Definition Math_min (a b : float) : float :=
  if is_nan a || is_nan b then nan
  else if ltb a b then a
  else if ltb b a then b
  else if PrimFloat.eqb a zero then - (- a + - b)
  else a.

Definition reduce_quality (quality : float) : float :=
  Math_max 0.1 (quality * 0.7).

Definition new_dimensions (maxWidth maxHeight width height : float)
  : float * float :=
  if ltb maxWidth width || ltb maxHeight height then
    let aspectRatio := width / height in
    if ltb height width then
      let width' := Math_min maxWidth width in
      (width', width' / aspectRatio)
    else
      let height' := Math_min maxHeight height in
      (height' * aspectRatio, height')
  else (width, height).

(** The values of [quality] in [smartCompress]: the first one and those
    that follow it, one per reduction. *)
Fixpoint qualities (reductions : nat) (quality : float) : list float :=
  match reductions with
  | O => [quality]
  | S n => quality :: qualities n (reduce_quality quality)
  end.

Definition in_range (q : float) : bool := leb 0.1 q && leb q 0.9.

(** The qualities of a run that exhausts [reductions] attempts: those of
    the loop, then the 0.1 of the call after the loop. *)
Definition run_qualities (reductions : nat) : list float :=
  qualities reductions 0.9 ++ [0.1].

(** The new dimensions of a photo of 4000 by 3000 pixels. *)
Definition large_photo_dimensions : float * float :=
  new_dimensions 1920 1080 4000 3000.

Definition dimensions_1920x1440 : float * float := (1920, 1440).

End Binary64.

(** ** Concrete document stores *)

Module Stores.

Import Migration.
Local Open Scope string_scope.

Definition product (id name url : string) : Product :=
  {| id := id; name := name; image_url := url; old_firebase_url := None |}.

Definition ring : Product :=
  product "p1" "Ring"
          "https://firebasestorage.googleapis.com/v0/b/gems/o/ring.jpg".

Definition necklace : Product :=
  product "p2" "Necklace"
          "https://firebasestorage.googleapis.com/v0/b/gems/o/necklace.jpg".

Definition bracelet : Product :=
  product "p3" "Bracelet"
          "https://firebasestorage.googleapis.com/v0/b/gems/o/bracelet.jpg".

(** A product that is on Cloudinary already. *)
Definition pendant : Product :=
  product "p4" "Pendant"
          "https://res.cloudinary.com/dsgi4fbqu/image/upload/v1/pendant.jpg".

(** The state of these stores counts the operations performed. *)
Definition getDocs_of (products : list Product)
  : unit -> nat -> Response (list Product) * nat :=
  fun _ n => (Ok products, S n).

(** The upload of every URL succeeds, except that of [bad]. *)
Definition upload_unless (bad : string)
  : string -> string -> nat -> Response string * nat :=
  fun url folder n =>
    if String.eqb url bad
    then (Throws (JsError "Cloudinary fetch upload failed"), S n)
    else (Ok ("https://res.cloudinary.com/dsgi4fbqu/image/upload/v1/"
              ++ folder ++ "/migrated.jpg"), S n).

Definition updateDoc_ok
  : unit -> string -> UpdateData -> nat -> Response unit * nat :=
  fun _ _ _ n => (Ok tt, S n).

Definition iso_date : nat -> string :=
  fun _ => "2024-01-01T00:00:00.000Z".

(** Three products to migrate; the upload of the second one fails. *)
Definition run_second_fails :=
  migrateAllToCloudinary (Some tt) (getDocs_of [ring; necklace; bracelet])
    (upload_unless (image_url necklace)) updateDoc_ok iso_date (start 0%nat).

(** One product, on Cloudinary already: nothing to migrate. *)
Definition run_nothing_to_migrate :=
  migrateAllToCloudinary (Some tt) (getDocs_of [pendant])
    (upload_unless "") updateDoc_ok iso_date (start 0%nat).

(** A product as a migration leaves it: on Cloudinary, with the Firebase
    Storage URL it came from. *)
Definition migrated_ring : Product :=
  {| id := "p5";
     name := "Migrated ring";
     image_url :=
       "https://res.cloudinary.com/dsgi4fbqu/image/upload/v1/products/migrated.jpg";
     old_firebase_url := Some (image_url ring) |}.

(** The migration of one product in a store where every upload and every
    write succeeds. *)
Definition run_one_product (p : Product) :=
  migrateProductToCloudinary (Some tt) (upload_unless "") updateDoc_ok
                             iso_date p (start 0%nat).

End Stores.

(** ** The Cloudinary client ([src/lib/cloudinary.ts]) *)

Module Cloudinary.

Set Implicit Arguments.

Local Open Scope string_scope.
Local Open Scope async_scope.

Definition CLOUD_NAME : string := "dsgi4fbqu".
Definition API_KEY : string := "764844758469865".

(** [`https://api.cloudinary.com/v1_1/${CLOUD_NAME}/image/upload`] and
    [.../image/destroy]. *)
Definition upload_endpoint : string :=
  "https://api.cloudinary.com/v1_1/" ++ CLOUD_NAME ++ "/image/upload".

Definition destroy_endpoint : string :=
  "https://api.cloudinary.com/v1_1/" ++ CLOUD_NAME ++ "/image/destroy".

(** *** [extractPublicId] *)

Definition is_slash (c : ascii) : bool := Ascii.eqb c "/".
Definition is_dot (c : ascii) : bool := Ascii.eqb c ".".

(** The line terminators, which [.] does not match: line feed and
    carriage return (the other two are not characters of these strings). *)
Definition is_line_terminator (c : ascii) : bool :=
  Ascii.eqb c "010" || Ascii.eqb c "013".

Fixpoint all_chars (test : ascii -> bool) (s : string) : bool :=
  match s with
  | EmptyString => true
  | String c s' => test c && all_chars test s'
  end.

Definition nonempty (s : string) : bool :=
  match s with
  | EmptyString => false
  | String _ _ => true
  end.

(** [[^\/]*\/] at the start of [s]: what follows the first slash. *)
Fixpoint after_slash (s : string) : option string :=
  match s with
  | EmptyString => None
  | String c s' => if is_slash c then Some s' else after_slash s'
  end.

(** [[^\/]+\/] at the start of [s]: what follows the match. *)
Definition after_segment (s : string) : option string :=
  match s with
  | EmptyString => None
  | String c s' => if is_slash c then None else after_slash s'
  end.

(** The strings [[^\/]+] matches as a whole, and the strings without a
    line terminator. *)
Definition is_segment (s : string) : bool :=
  nonempty s && all_chars (fun c => negb (is_slash c)) s.

Definition is_line (s : string) : bool :=
  all_chars (fun c => negb (is_line_terminator c)) s.

(** [(.+)$] at the start of [s]: the whole of [s], when it is not empty
    and has no line terminator. *)
Definition to_end (s : string) : option string :=
  if nonempty s && all_chars (fun c => negb (is_line_terminator c)) s
  then Some s
  else None.

Fixpoint drop (n : nat) (s : string) : string :=
  match n, s with
  | O, _ => s
  | S n', String _ s' => drop n' s'
  | S _, EmptyString => EmptyString
  end.

(** [/\/upload\/[^\/]+\/(.+)$/] matched at the start of [s]: the group. *)
Definition upload_match_here (s : string) : option string :=
  if String.prefix "/upload/" s then
    match after_segment (drop 8 s) with
    | Some rest => to_end rest
    | None => None
    end
  else None.

(** [url.match(/\/upload\/[^\/]+\/(.+)$/)]: the group of the leftmost
    match. *)
Fixpoint upload_match (url : string) : option string :=
  match upload_match_here url with
  | Some group => Some group
  | None =>
    match url with
    | EmptyString => None
    | String _ url' => upload_match url'
    end
  end.

(** [[^/.]+$] at the start of [s]. *)
Definition is_extension (s : string) : bool :=
  nonempty s && all_chars (fun c => negb (is_slash c) && negb (is_dot c)) s.

(** [s.replace(/\.[^/.]+$/, '')]. *)
Fixpoint strip_extension (s : string) : string :=
  match s with
  | EmptyString => EmptyString
  | String c s' =>
    if is_dot c && is_extension s' then EmptyString
    else String c (strip_extension s')
  end.

Definition extractPublicId (url : string) : option string :=
  match upload_match url with
  | Some group => Some (strip_extension group)
  | None => None
  end.

(** *** The file name of the proxy method *)

(** The last element of [s.split('/')], read from left to right: [cur] is
    the element being read. *)
Fixpoint last_element (cur s : string) : string :=
  match s with
  | EmptyString => cur
  | String c s' =>
    if is_slash c then last_element "" s'
    else last_element (cur ++ String c "") s'
  end.

(** [imageUrl.split('/').pop() || 'image.jpg']. *)
Definition filename_of (imageUrl : string) : string :=
  let last := last_element "" imageUrl in
  if truthy last then last else "image.jpg".

(** *** [sha256]: the hexadecimal form of a digest *)

Definition hex_digit (n : N) : ascii :=
  match n with
  | 0%N => "0" | 1%N => "1" | 2%N => "2" | 3%N => "3" | 4%N => "4"
  | 5%N => "5" | 6%N => "6" | 7%N => "7" | 8%N => "8" | 9%N => "9"
  | 10%N => "a" | 11%N => "b" | 12%N => "c" | 13%N => "d" | 14%N => "e"
  | _ => "f"
  end%char.

(** [n.toString(16)], most significant digit first; the fuel bounds the
    number of digits. *)
Fixpoint toString16_digits (fuel : nat) (n : N) (acc : string) : string :=
  match fuel with
  | O => acc
  | S fuel' =>
    let acc' := String (hex_digit (n mod 16)) acc in
    if (n / 16 =? 0)%N then acc' else toString16_digits fuel' (n / 16) acc'
  end.

Definition toString16 (n : N) : string :=
  toString16_digits (S (N.to_nat (N.log2 n))) n "".

(** [s.padStart(targetLength, fill)] for a one-character [fill]. *)
Definition padStart (targetLength : nat) (fill : ascii) (s : string)
  : string :=
  String.concat "" (repeat (String fill "") (targetLength - String.length s))
  ++ s.

(** [hashArray.map(b => b.toString(16).padStart(2, '0')).join('')]. *)
Definition hex_of_bytes (hashArray : list Byte.byte) : string :=
  String.concat ""
    (map (fun b => padStart 2 "0" (toString16 (Byte.to_N b))) hashArray).

(** *** The parameters of a signature *)

(** A value of a parameter, and its form in a template string. *)
Inductive Value : Type :=
| Num (n : N)
| Str (s : string).

Definition decimal (n : N) : string := NilZero.string_of_uint (N.to_uint n).

Definition value_string (v : option Value) : string :=
  match v with
  | Some (Num n) => decimal n
  | Some (Str s) => s
  | None => "undefined"
  end.

(** An object as its properties in the order they were written; the
    names of the properties are distinct. *)
Definition Params : Type := list (string * Value).

Definition keys (params : Params) : list string := map fst params.

Fixpoint get (params : Params) (key : string) : option Value :=
  match params with
  | [] => None
  | (k, v) :: params' => if String.eqb k key then Some v else get params' key
  end.

(** [keys.sort()]: the order of the code units. *)
Fixpoint insert_sorted (k : string) (l : list string) : list string :=
  match l with
  | [] => [k]
  | x :: l' => if String.leb k x then k :: l else x :: insert_sorted k l'
  end.

Definition sort (l : list string) : list string :=
  fold_right insert_sorted [] l.

(** [Object.keys(params).sort().map(key => `${key}=${params[key]}`)
    .join('&')]. *)
Definition sortedParams (params : Params) : string :=
  String.concat "&"
    (map (fun key => key ++ "=" ++ value_string (get params key))
         (sort (keys params))).

Section Network.

(** The data of files and blobs, and the state of the network. *)
Variable Bytes : Type.
Variable World : Type.

(** [import.meta.env.VITE_CLOUDINARY_API_SECRET]. *)
Variable API_SECRET : option string.

(** [!API_SECRET] does not hold. *)
Definition secret : option string :=
  match API_SECRET with
  | Some s => if truthy s then Some s else None
  | None => None
  end.

Inductive FormValue : Type :=
| FormString (s : string)
| FormFile (f : Compression.File Bytes).

(** The body of the request that destroys an image, before
    [JSON.stringify]. *)
Record DestroyBody : Type := {
  public_id : string;
  signature : string;
  api_key : string;
  timestamp : N
}.

Inductive Body : Type :=
| NoBody
| FormData (fields : list (string * FormValue))
| Json (b : DestroyBody).

Record Request : Type := {
  req_url : string;
  req_method : string;
  req_headers : list (string * string);
  req_body : Body
}.

(** What the code reads of the JSON of an upload. *)
Record UploadResult : Type := {
  secure_url : option string;
  format : option string;
  bytes : option N
}.

(** A response: its status, and what [text()], [json()] and [blob()]
    give when awaited. *)
Record HttpResponse : Type := {
  resp_ok : bool;
  resp_statusText : string;
  resp_text : Response string;
  resp_json : Response UploadResult;
  resp_blob : Response (Compression.Blob Bytes)
}.

Variable fetch : Request -> World -> Response HttpResponse * World.

(** [crypto.subtle.digest('SHA-256', new TextEncoder().encode(message))]
    as an array of bytes. *)
Variable digest_SHA256 : string -> Response (list Byte.byte).

(** [Date.now()], which is [new Date().getTime()]. *)
Variable Date_now : World -> N.

Variable encodeURIComponent : string -> string.

Inductive Event : Type :=
| EvFetch (request : Request) (response : Response HttpResponse).

Record St : Type := {
  world : World;
  trace : list Event
}.

Definition settle {A : Type} (r : Response A) : Async St A :=
  match r with
  | Ok a => resolve a
  | Throws e => reject e
  end.

Definition do_fetch (request : Request) : Async St HttpResponse :=
  fun st =>
    let '(r, w) := fetch request (world st) in
    settle r {| world := w; trace := trace st ++ [EvFetch request r] |}.

Definition now : Async St N :=
  fun st => (Resolved (Date_now (world st)), st).

(** [!result.secure_url] does not hold. *)
Definition truthy_url (result : UploadResult) : option string :=
  match secure_url result with
  | Some u => if truthy u then Some u else None
  | None => None
  end.

Definition upload_request (file : FormValue) (folder : string) : Request :=
  {| req_url := upload_endpoint;
     req_method := "POST";
     req_headers := [];
     req_body := FormData [("file", file);
                           ("upload_preset", FormString "ml_default");
                           ("folder", FormString folder)] |}.

Definition uploadToCloudinary (file : Compression.File Bytes)
           (folder : string) : Async St string :=
  match secret with
  | None =>
    reject (JsError "Cloudinary API Secret not configured. Please add VITE_CLOUDINARY_API_SECRET to your .env file")
  | Some _ =>
    try_catch
      (response <- do_fetch (upload_request (FormFile file) folder) ;;
       (if resp_ok response then resolve tt
        else
          errorText <- settle (resp_text response) ;;
          reject (JsError ("Upload failed: " ++ resp_statusText response
                           ++ " - " ++ errorText))) ;;;
       result <- settle (resp_json response) ;;
       match truthy_url result with
       | None => reject (JsError "No secure URL returned from Cloudinary")
       | Some u => resolve u
       end)
      (fun error =>
         reject (JsError ("Failed to upload image: " ++ message_of error)))
  end.

Definition manual_message (imageUrl : string) : string :=
  "
    Migration failed due to CORS restrictions. 
    
    Solutions:
    1. Create upload preset 'ml_default' in Cloudinary Dashboard
    2. Or use server-side migration script
    3. Or temporarily disable CORS in Firebase Storage rules
    
    Original URL: " ++ imageUrl ++ "
  ".

Definition uploadFromUrlManual (imageUrl _folder : string)
  : Async St string :=
  reject (JsError (manual_message imageUrl)).

Definition proxy_request (imageUrl : string) : Request :=
  {| req_url := "https://api.allorigins.win/raw?url="
                ++ encodeURIComponent imageUrl;
     req_method := "GET";
     req_headers := [];
     req_body := NoBody |}.

(** [new File([blob], filename, { type: blob.type })], made at time [t],
    with [filename] the last element of the URL. *)
Definition proxy_file (imageUrl : string) (blob : Compression.Blob Bytes)
           (t : N) : Compression.File Bytes :=
  {| Compression.file_name := filename_of imageUrl;
     Compression.file_size := Compression.blob_size blob;
     Compression.file_type := Compression.blob_type blob;
     Compression.file_lastModified := t;
     Compression.file_bytes := Compression.blob_bytes blob |}.

Definition uploadFromUrlWithProxy (imageUrl folder : string)
  : Async St string :=
  try_catch
    (response <- do_fetch (proxy_request imageUrl) ;;
     (if resp_ok response then resolve tt
      else reject (JsError ("Failed to fetch via proxy: "
                            ++ resp_statusText response))) ;;;
     blob <- settle (resp_blob response) ;;
     t <- now ;;
     let file := proxy_file imageUrl blob t in
     uploadToCloudinary file folder)
    (fun proxyError => uploadFromUrlManual imageUrl folder).

(** Method 1 of [uploadFromUrl]: Cloudinary fetches the URL itself. *)
Definition fetch_upload (imageUrl folder : string) : Async St string :=
  response <- do_fetch (upload_request (FormString imageUrl) folder) ;;
  (if resp_ok response then resolve tt
   else reject (JsError ("Cloudinary fetch upload failed: "
                         ++ resp_statusText response))) ;;;
  result <- settle (resp_json response) ;;
  match truthy_url result with
  | None => reject (JsError "No secure URL returned from Cloudinary")
  | Some u => resolve u
  end.

Definition uploadFromUrl (imageUrl folder : string) : Async St string :=
  try_catch
    (try_catch
       (fetch_upload imageUrl folder)
       (fun fetchError => uploadFromUrlWithProxy imageUrl folder))
    (fun error => reject error).

Definition sha256 (message : string) : Async St string :=
  hashArray <- settle (digest_SHA256 message) ;;
  resolve (hex_of_bytes hashArray).

Definition generateSignature (params : Params) : Async St string :=
  match secret with
  | None =>
    reject (JsError "API Secret is required for signature generation")
  | Some secret =>
    let signatureString := sortedParams params ++ secret in
    sha256 signatureString
  end.

(** [Math.round(ms / 1000)] for a number of milliseconds. *)
Definition round_seconds (ms : N) : N := ((ms + 500) / 1000)%N.

Definition destroy_request (publicId sig : string) (time : N) : Request :=
  {| req_url := destroy_endpoint;
     req_method := "POST";
     req_headers := [("Content-Type", "application/json")];
     req_body := Json {| public_id := publicId;
                         signature := sig;
                         api_key := API_KEY;
                         timestamp := time |} |}.

Definition deleteFromCloudinary (imageUrl : string) : Async St unit :=
  match secret with
  | None => resolve tt
  | Some _ =>
    try_catch
      (match extractPublicId imageUrl with
       | None => resolve tt
       | Some publicId =>
         if truthy publicId then
           ms <- now ;;
           let time := round_seconds ms in
           sig <- generateSignature [("timestamp", Num time);
                                     ("public_id", Str publicId)] ;;
           response <- do_fetch (destroy_request publicId sig time) ;;
           if resp_ok response then resolve tt
           else
             settle (resp_text response) ;;;
             resolve tt
         else resolve tt
       end)
      (fun error => resolve tt)
  end.

(** What the answer to an upload gives: the non-empty [secure_url] of
    the JSON of a response that is ok. *)
Definition uploaded_url (r : Response HttpResponse) : option string :=
  match r with
  | Ok response =>
    if resp_ok response then
      match resp_json response with
      | Ok result => truthy_url result
      | Throws _ => None
      end
    else None
  | Throws _ => None
  end.

(** What the answer of the proxy gives: the blob of a response that is
    ok. *)
Definition proxied_blob (r : Response HttpResponse)
  : option (Compression.Blob Bytes) :=
  match r with
  | Ok response =>
    if resp_ok response then
      match resp_blob response with
      | Ok blob => Some blob
      | Throws _ => None
      end
    else None
  | Throws _ => None
  end.

(** The requests of a trace, in order. *)
Definition requests (tr : list Event) : list Request :=
  map (fun e => match e with EvFetch request _ => request end) tr.

Definition start (w : World) : St := {| world := w; trace := [] |}.

End Network.

Arguments start {Bytes World} w.
Arguments NoBody {Bytes}.
Arguments Json {Bytes} b.
Arguments FormString {Bytes} s.
Arguments proxy_request {Bytes} encodeURIComponent imageUrl.
Arguments destroy_request {Bytes} publicId sig time.

End Cloudinary.

(** ** The migration utility over the Cloudinary client

    [migrateProductToCloudinary] imports [uploadFromUrl] from
    [src/lib/cloudinary.ts]: here the two models are put together, the
    document store and the network sharing one world. *)

Module MigrationWithCloudinary.

Set Implicit Arguments.

Section Services.

Variable Bytes : Type.
Variable World : Type.
Variable Firestore : Type.

Variable API_SECRET : option string.
Variable fetch :
  Cloudinary.Request Bytes -> World
  -> Response (Cloudinary.HttpResponse Bytes) * World.
Variable Date_now : World -> N.
Variable encodeURIComponent : string -> string.

Variable db : option Firestore.
Variable getDocs :
  Firestore -> World -> Response (list Migration.Product) * World.
Variable updateDoc :
  Firestore -> string -> Migration.UpdateData -> World
  -> Response unit * World.
Variable Date_toISOString : World -> string.

(** The world of the migration: the world with the requests made. *)
Definition Net : Type := Cloudinary.St Bytes World.

(** An operation of the store makes no request. *)
Definition on_store {A : Type} (op : World -> Response A * World)
  : Net -> Response A * Net :=
  fun st =>
    let '(r, w) := op (Cloudinary.world st) in
    (r, {| Cloudinary.world := w; Cloudinary.trace := Cloudinary.trace st |}).

(** [await uploadFromUrl(imageUrl, folder)]; the promise always settles,
    the last case is never met. *)
Definition uploadFromUrl (imageUrl folder : string)
  : Net -> Response string * Net :=
  fun st =>
    match Cloudinary.uploadFromUrl API_SECRET fetch Date_now
                                   encodeURIComponent imageUrl folder st with
    | (Resolved u, st') => (Ok u, st')
    | (Rejected e, st') => (Throws e, st')
    | (Pending, st') => (Throws NonError, st')
    end.

Definition migrateProductToCloudinary
  : Migration.Product -> Async (Migration.St Net) (option string) :=
  Migration.migrateProductToCloudinary
    db uploadFromUrl (fun d id data => on_store (updateDoc d id data))
    (fun st => Date_toISOString (Cloudinary.world st)).

Definition migrateAllToCloudinary
  : Async (Migration.St Net) Migration.Results :=
  Migration.migrateAllToCloudinary
    db (fun d => on_store (getDocs d)) uploadFromUrl
    (fun d id data => on_store (updateDoc d id data))
    (fun st => Date_toISOString (Cloudinary.world st)).

End Services.

End MigrationWithCloudinary.

(** ** The product store ([src/lib/supabase.ts]): images and deletion *)

Module Supabase.

Set Implicit Arguments.

Local Open Scope string_scope.
Local Open Scope async_scope.

(** *** The path of an object of Firebase Storage *)

Definition is_question (c : ascii) : bool := Ascii.eqb c "?".

(** The rest of [(.+?)\?] after its first character: the characters up
    to the first question mark, when no line terminator comes before it. *)
Fixpoint until_question (s : string) : option string :=
  match s with
  | EmptyString => None
  | String c s' =>
    if is_question c then Some EmptyString
    else if Cloudinary.is_line_terminator c then None
    else option_map (String c) (until_question s')
  end.

(** [/\/o\/(.+?)\?/] matched at the start of [s]: the group. *)
Definition path_match_here (s : string) : option string :=
  if String.prefix "/o/" s then
    match Cloudinary.drop 3 s with
    | EmptyString => None
    | String c s' =>
      if Cloudinary.is_line_terminator c then None
      else option_map (String c) (until_question s')
    end
  else None.

(** [imageUrl.match(/\/o\/(.+?)\?/)]: the group of the leftmost match. *)
Fixpoint path_match (imageUrl : string) : option string :=
  match path_match_here imageUrl with
  | Some group => Some group
  | None =>
    match imageUrl with
    | EmptyString => None
    | String _ imageUrl' => path_match imageUrl'
    end
  end.

(** What [deleteProduct] reads of the data of a document. *)
Record ProductData : Type := {
  data_image_url : option string
}.

Section Services.

Variable Bytes : Type.
Variable World : Type.

(** The handles of Firebase: null when Firebase is not configured. *)
Variable Firestore : Type.
Variable Auth : Type.
Variable Storage : Type.
Variable DocRef : Type.
Variable db : option Firestore.
Variable auth : option Auth.
Variable storage : option Storage.

(** [firebaseConfig.storageBucket]. *)
Variable storageBucket : option string.

(** The Cloudinary client. *)
Variable API_SECRET : option string.
Variable fetch :
  Cloudinary.Request Bytes -> World
  -> Response (Cloudinary.HttpResponse Bytes) * World.
Variable digest_SHA256 : string -> Response (list Byte.byte).
Variable Date_now : World -> N.

(** [auth.currentUser] is not null. *)
Variable currentUser : Auth -> World -> bool.

(** [doc(db, 'products', id)], which throws for an id that is no path. *)
Variable doc : Firestore -> string -> Response DocRef.

(** [getDoc(docRef)]: the data of the document when it exists. *)
Variable getDoc : DocRef -> World -> Response (option ProductData) * World.

Variable deleteDoc : DocRef -> World -> Response unit * World.

(** [deleteObject(ref(storage, path))]. *)
Variable deleteObject : Storage -> string -> World -> Response unit * World.

(** [decodeURIComponent], which throws for a malformed sequence. *)
Variable decodeURIComponent : string -> Response string.

Inductive Event : Type :=
| EvGetDoc (id : string) (r : Response (option ProductData))
| EvDeleteDoc (id : string) (r : Response unit)
| EvDeleteObject (path : string) (r : Response unit).

(** The network with the requests made to Cloudinary, and the operations
    made on Firebase. *)
Record St : Type := {
  net : Cloudinary.St Bytes World;
  log : list Event
}.

Definition settle {A : Type} (r : Response A) : Async St A :=
  match r with
  | Ok a => resolve a
  | Throws e => reject e
  end.

(** A call of the Cloudinary client. *)
Definition cloudinary {A : Type} (m : Async (Cloudinary.St Bytes World) A)
  : Async St A :=
  fun st =>
    let '(r, n) := m (net st) in
    (r, {| net := n; log := log st |}).

(** An operation of Firebase. *)
Definition firebase {A : Type} (ev : Response A -> Event)
           (op : World -> Response A * World) : Async St A :=
  fun st =>
    let '(r, w) := op (Cloudinary.world (net st)) in
    settle r {| net := {| Cloudinary.world := w;
                          Cloudinary.trace := Cloudinary.trace (net st) |};
                log := log st ++ [ev r] |}.

(** [!auth?.currentUser] does not hold. *)
Definition logged_in : Async St bool :=
  fun st =>
    (Resolved match auth with
              | Some a => currentUser a (Cloudinary.world (net st))
              | None => false
              end,
     st).

Definition uploadImageToStorage (file : Compression.File Bytes)
  : Async St string :=
  try_catch
    (cloudinaryUrl <-
       cloudinary (Cloudinary.uploadToCloudinary API_SECRET fetch file
                                                 "products") ;;
     resolve cloudinaryUrl)
    (fun error =>
       reject (JsError ("Failed to upload image: " ++ message_of error))).

(** [`https://firebasestorage.googleapis.com/v0/b/${...storageBucket}/o/`]. *)
Definition baseUrl : string :=
  "https://firebasestorage.googleapis.com/v0/b/"
  ++ match storageBucket with
     | Some bucket => bucket
     | None => "undefined"
     end
  ++ "/o/".

Definition deleteImageFromStorage (imageUrl : string) : Async St unit :=
  try_catch
    (if Urls.isCloudinaryUrl imageUrl then
       cloudinary (Cloudinary.deleteFromCloudinary
                     API_SECRET fetch digest_SHA256 Date_now imageUrl)
     else
       match storage with
       | Some s =>
         if Urls.isFirebaseStorageUrl imageUrl then
           if String.prefix baseUrl imageUrl then
             match path_match imageUrl with
             | Some group =>
               if truthy group then
                 path <- settle (decodeURIComponent group) ;;
                 firebase (EvDeleteObject path) (deleteObject s path)
               else resolve tt
             | None => resolve tt
             end
           else resolve tt
         else resolve tt
       | None => resolve tt
       end)
    (fun error => resolve tt).

Definition deleteProduct (id : string) : Async St unit :=
  match db with
  | None =>
    reject (JsError "Firebase database not initialized. Please check your configuration.")
  | Some d =>
    user <- logged_in ;;
    if negb user then
      reject (JsError "You must be logged in to delete products")
    else
      try_catch
        (docRef <- settle (doc d id) ;;
         docSnapshot <- firebase (EvGetDoc id) (getDoc docRef) ;;
         match docSnapshot with
         | Some productData =>
           match data_image_url productData with
           | Some image_url =>
             if truthy image_url then deleteImageFromStorage image_url
             else resolve tt
           | None => resolve tt
           end
         | None => resolve tt
         end ;;;
         firebase (EvDeleteDoc id) (deleteDoc docRef))
        (fun error =>
           reject (JsError ("Failed to delete product: "
                            ++ message_of error)))
  end.

(** The operations in a log that delete an object or a document. *)
Definition is_deleteObject (e : Event) : bool :=
  match e with EvDeleteObject _ _ => true | _ => false end.

Definition is_deleteDoc (e : Event) : bool :=
  match e with EvDeleteDoc _ _ => true | _ => false end.

Definition start (w : World) : St :=
  {| net := Cloudinary.start w; log := [] |}.

End Services.

Arguments start {Bytes World} w.

End Supabase.

(** ** Concrete networks *)

Module Networks.

Import Cloudinary.
Local Open Scope string_scope.

(** The state of these networks counts the requests. *)
Definition State : Type := St unit nat.

(** The network is down: every request throws. *)
Definition fetch_down
  : Request unit -> nat -> Response (HttpResponse unit) * nat :=
  fun _ n => (Throws (JsError "Failed to fetch"), S n).

(** A response with a status and the JSON of an upload; its body is not
    a blob. *)
Definition json_response (ok : bool) (statusText : string)
           (result : UploadResult) : HttpResponse unit :=
  {| resp_ok := ok;
     resp_statusText := statusText;
     resp_text := Ok "";
     resp_json := Ok result;
     resp_blob := Throws (JsError "not a blob") |}.

Definition uploaded (url : string) : UploadResult :=
  {| secure_url := Some url; format := Some "jpg"; bytes := Some 1024%N |}.

(** Cloudinary answers every request with the URL of the ring. *)
Definition ring_url : string :=
  "https://res.cloudinary.com/dsgi4fbqu/image/upload/v1700000000/products/ring.jpg".

Definition fetch_ok
  : Request unit -> nat -> Response (HttpResponse unit) * nat :=
  fun _ n => (Ok (json_response true "OK" (uploaded ring_url)), S n).

(** A digest of four bytes, whatever the message. *)
Definition digest_constant : string -> Response (list Byte.byte) :=
  fun _ => Ok [Byte.x00; Byte.x0f; Byte.xa0; Byte.xff].

(** The clock, in milliseconds. *)
Definition clock : nat -> N := fun _ => 1700000000499%N.

(** No escaping: for URLs without reserved characters. *)
Definition encode_nothing : string -> string := fun s => s.

Definition firebase_ring_url : string :=
  "https://firebasestorage.googleapis.com/v0/b/gems/o/ring.jpg".

(** A migration of the ring while the network is down, without the
    secret. *)
Definition run_upload_network_down :=
  uploadFromUrl None fetch_down clock encode_nothing firebase_ring_url
                "products" (@start unit nat 0%nat).

(** The deletion of the ring. *)
Definition run_delete_ring :=
  deleteFromCloudinary (Some "s3cr3t") fetch_ok digest_constant clock
                       ring_url (@start unit nat 0%nat).

(** The migration of the ring while the network is down. *)
Definition run_migration_network_down :=
  MigrationWithCloudinary.migrateAllToCloudinary
    None fetch_down clock encode_nothing (Some tt)
    (Stores.getDocs_of [Stores.ring]) Stores.updateDoc_ok Stores.iso_date
    (Migration.start (@start unit nat 0%nat)).

(** A store with one document, whose image is the ring on Cloudinary;
    somebody is logged in and every operation succeeds. *)
Definition ring_document
  : nat -> Response (option Supabase.ProductData) * nat :=
  fun n => (Ok (Some {| Supabase.data_image_url := Some ring_url |}), S n).

Definition run_delete_product :=
  @Supabase.deleteProduct
    unit nat unit unit unit string (Some tt) (Some tt) (Some tt) (Some "gems")
    (Some "s3cr3t") fetch_ok digest_constant clock
    (fun _ _ => true) (fun _ id => Ok id) (fun _ => ring_document)
    (fun _ n => (Ok tt, S n)) (fun _ _ n => (Ok tt, S n)) (fun s => Ok s)
    "p1" (Supabase.start 0%nat).

End Networks.

(* ================================================================== *)
(** * Part II: properties                                               *)
(* ================================================================== *)

(** ** URL classifiers *)

Section UrlFacts.

Import Urls.
Local Open Scope string_scope.

Lemma prefix_spec (sub s : string) :
  String.prefix sub s = true <-> exists after, s = sub ++ after.
Proof.
  revert s; induction sub as [|a sub IH]; intros s; simpl.
  - split; [intros _; now exists s | now destruct s].
  - destruct s as [|b s]; simpl.
    + split; [discriminate | intros [after H]; discriminate].
    + destruct (Ascii.ascii_dec a b) as [->|Hab].
      * rewrite IH. split; intros [after H]; exists after.
        -- now rewrite H.
        -- now injection H.
      * split; [discriminate|].
        intros [after H]. injection H as H1 _. congruence.
Qed.

Lemma includes_spec (s sub : string) :
  includes s sub = true <-> contains s sub.
Proof.
  unfold contains. induction s as [|c s IH].
  - cbn [includes]. rewrite orb_false_r, prefix_spec. split.
    + intros [after H]. exists "", after. exact H.
    + intros (before & after & H). destruct before; [|discriminate].
      exists after. exact H.
  - cbn [includes]. rewrite orb_true_iff, IH, prefix_spec. split.
    + intros [[after H] | (before & after & H)].
      * exists "", after. exact H.
      * exists (String c before), after. simpl. now rewrite H.
    + intros (before & after & H). destruct before as [|c' before].
      * left. exists after. exact H.
      * right. simpl in H. injection H as _ H. now exists before, after.
Qed.

(** C7. The URL classifiers are predicates decided by substring matching:
    [isCloudinaryUrl url] holds exactly when [url] contains
    "cloudinary.com", and [isFirebaseStorageUrl url] holds exactly when
    [url] contains one of the two Firebase substrings the code knows,
    "firebasestorage.googleapis.com" or "firebase". *)
Theorem url_classifiers_by_substring (url : string) :
  (isCloudinaryUrl url = true <-> contains url "cloudinary.com")
  /\ (isFirebaseStorageUrl url = true <->
      contains url "firebasestorage.googleapis.com"
      \/ contains url "firebase").
Proof.
  unfold isCloudinaryUrl, isFirebaseStorageUrl. split.
  - apply includes_spec.
  - now rewrite orb_true_iff, !includes_spec.
Qed.

End UrlFacts.

(** ** Image compression *)

Section CompressionFacts.

Import Compression.
Set Implicit Arguments.
Local Open Scope Q_scope.

Context {Bytes World : Type}.
Variable img_load : File Bytes -> World -> option (N * N) * World.
Variable canvas_toBlob :
  Canvas Bytes -> string -> Q -> World -> option (Blob Bytes) * World.
Variable Date_now : World -> N.

Local Abbreviation compressImage :=
  (Compression.compressImage img_load canvas_toBlob Date_now).
Local Abbreviation smartCompress_loop :=
  (Compression.smartCompress_loop img_load canvas_toBlob Date_now).
Local Abbreviation smartCompress :=
  (Compression.smartCompress img_load canvas_toBlob Date_now).
Local Abbreviation call_run :=
  (Compression.call_run img_load canvas_toBlob Date_now).
Local Abbreviation State := (St Bytes World).

(** *** One call of [compressImage] *)

Ltac trace_eq :=
  cbv [bind]; cbn [app world trace];
  repeat rewrite <- app_assoc; cbn [app]; reflexivity.

Lemma compressImage_run_cases (f : File Bytes) (o : CompressionOptions)
      (st : State) :
  exists evs r w',
    call_run f o (world st) evs r w'
    /\ compressImage f o st
       = (r, {| world := w';
                trace := trace st ++ evs ++ [EvCompress f o r] |}).
Proof.
  unfold Compression.compressImage, compressImage_run, bind, load, toBlob,
    result_of, now, resolve, reject, record.
  destruct st as [w0 tr]; cbn [world trace].
  destruct (img_load f w0) as [[[w h]|] w1] eqn:Hload; cbn [world trace].
  2:{ eexists _, _, _; split; [eapply load_failed; eassumption|].
      trace_eq. }
  destruct (new_dimensions (default 1920 (maxWidth o))
                           (default 1080 (maxHeight o)) (of_N w) (of_N h))
    as [cw ch] eqn:Hdim.
  assert (Hc : canvas_of o f w h
               = {| canvas_width := cw; canvas_height := ch;
                    canvas_image := f |})
    by (unfold canvas_of; now rewrite Hdim).
  assert (Hres : forall b t, result_from o f (canvas_of o f w h) b t
                             = compression_result f (type_of o) b cw ch t)
    by (intros; unfold result_from; now rewrite Hc).
  cbn [world trace]. rewrite <- Hc.
  change (mime (default jpeg (format o))) with (type_of o).
  change (default 0.8 (quality o)) with (first_quality o).
  destruct (canvas_toBlob (canvas_of o f w h) (type_of o) (first_quality o) w1)
    as [[b|] w2] eqn:Hblob; cbn [world trace].
  2:{ eexists _, _, _; split; [eapply encode_failed; eassumption|].
      trace_eq. }
  change (gtb (of_N (blob_size b) / 1024) (default 500 (maxSizeKB o)))
    with (too_large o b).
  destruct (too_large o b) eqn:Hlarge; cbn [world trace].
  - change (Math_max 0.1 (first_quality o * (default 500 (maxSizeKB o)
                                            / (of_N (blob_size b) / 1024))))
      with (second_quality o b).
    destruct (canvas_toBlob (canvas_of o f w h) (type_of o)
                            (second_quality o b) w2)
      as [[b'|] w3] eqn:Hblob'; cbn [world trace].
    + eexists _, _, _; split; [eapply encoded_twice; eassumption|].
      rewrite Hres. trace_eq.
    + eexists _, _, _; split; [eapply second_encode_failed; eassumption|].
      trace_eq.
  - eexists _, _, _; split; [eapply encoded_once; eassumption|].
    rewrite Hres. trace_eq.
Qed.

Lemma call_run_settled f o w evs r w' :
  call_run f o w evs r w' -> r <> Pending.
Proof. destruct 1; discriminate. Qed.

Lemma call_run_no_calls f o w evs r w' :
  call_run f o w evs r w' -> calls evs = [].
Proof. destruct 1; reflexivity. Qed.

Lemma call_run_no_blob f o w evs r w' :
  call_run f o w evs r w' -> Forall no_blob evs -> exists e, r = Rejected e.
Proof.
  destruct 1; intros Hno; try (eexists; reflexivity);
    repeat match goal with
           | H : Forall _ (_ :: _) |- _ => inversion H; clear H; subst
           end;
    cbn in *; contradiction.
Qed.

(** *** The loop and the whole of [smartCompress] *)

Local Abbreviation loop_run :=
  (Compression.loop_run img_load canvas_toBlob Date_now).

Lemma smartCompress_loop_runs f t fuel :
  forall attempt quality (st : State),
    (maxAttempts - attempt < fuel)%nat ->
    exists evs exit w',
      loop_run f t attempt quality (world st) evs exit w'
      /\ smartCompress_loop fuel f t attempt quality st
         = (Resolved exit, {| world := w'; trace := trace st ++ evs |}).
Proof.
  induction fuel as [|fuel IH]; intros attempt quality st Hfuel; [lia|].
  cbn [Compression.smartCompress_loop].
  destruct (attempt <? maxAttempts)%nat eqn:Hlt.
  - destruct (compressImage_run_cases f (attempt_options quality t) st)
      as (evs & r & w1 & Hcall & Hrun).
    unfold bind, try_catch. rewrite Hrun.
    pose proof (proj1 (Nat.ltb_lt _ _) Hlt) as Hlt'.
    destruct r as [result| e |].
    + destruct (within_tolerance result t) eqn:Htol; unfold resolve.
      * exists (evs ++ [EvCompress f (attempt_options quality t)
                                   (Resolved result)]), (Returned result), w1.
        split; [|reflexivity].
        now apply loop_returned.
      * destruct (IH (S attempt) (reduce_quality quality)
                      {| world := w1;
                         trace := trace st ++ evs
                                  ++ [EvCompress f (attempt_options quality t)
                                                 (Resolved result)] |}
                      ltac:(lia))
          as (evs' & exit & w' & Hloop & Hrest).
        rewrite Hrest. cbn [world trace] in *.
        eexists _, exit, w'. split.
        -- eapply loop_retried; eassumption.
        -- now rewrite <- !app_assoc.
    + unfold resolve.
      destruct (IH (S attempt) (reduce_quality quality)
                    {| world := w1;
                       trace := trace st ++ evs
                                ++ [EvCompress f (attempt_options quality t)
                                               (Rejected e)] |}
                    ltac:(lia))
        as (evs' & exit & w' & Hloop & Hrest).
      rewrite Hrest. cbn [world trace] in *.
      eexists _, exit, w'. split.
      * eapply loop_retried; try eassumption. exact I.
      * now rewrite <- !app_assoc.
    + now apply call_run_settled in Hcall.
  - unfold resolve. exists [], (Exhausted attempt quality), (world st).
    split; [now apply loop_exhausted|].
    rewrite app_nil_r. now destruct st.
Qed.

Lemma smartCompress_runs f t (st : State) :
  exists evs exit w1,
    loop_run f t 0 0.9 (world st) evs exit w1
    /\ match exit with
       | Returned result =>
         smartCompress f t st
         = (Resolved result, {| world := w1; trace := trace st ++ evs |})
       | Exhausted _ _ =>
         exists evs' r w2,
         call_run f fallback_options w1 evs' r w2
         /\ smartCompress f t st
            = (Resolved (after_loop f r),
               {| world := w2;
                  trace := trace st ++ evs ++ evs'
                           ++ [EvCompress f fallback_options r] |})
       end.
Proof.
  destruct (@smartCompress_loop_runs f t (S maxAttempts) 0 0.9 st)
    as (evs & exit & w1 & Hloop & Hrun); [unfold maxAttempts; lia|].
  exists evs, exit, w1. split; [assumption|].
  unfold Compression.smartCompress, bind. rewrite Hrun.
  destruct exit as [result|attempt quality]; [reflexivity|].
  destruct (compressImage_run_cases f fallback_options
              {| world := w1; trace := trace st ++ evs |})
    as (evs' & r & w2 & Hcall & Hrun').
  exists evs', r, w2. split; [assumption|].
  unfold try_catch. rewrite Hrun'. cbn [world trace].
  rewrite <- !app_assoc.
  destruct r; try reflexivity.
  now apply call_run_settled in Hcall.
Qed.

Lemma loads_app (l l' : list (Event Bytes)) :
  loads (l ++ l') = loads l ++ loads l'.
Proof. apply filter_app. Qed.

Lemma encodes_app (l l' : list (Event Bytes)) :
  encodes (l ++ l') = encodes l ++ encodes l'.
Proof. apply filter_app. Qed.

Lemma calls_app (l l' : list (Event Bytes)) :
  calls (l ++ l') = calls l ++ calls l'.
Proof. apply filter_app. Qed.

Lemma loop_run_calls f t attempt quality w evs exit w' :
  loop_run f t attempt quality w evs exit w' ->
  (attempt <= maxAttempts)%nat ->
  (List.length (calls evs) <= maxAttempts - attempt)%nat
  /\ match exit with
     | Returned result =>
       exists earlier o,
       calls evs = earlier ++ [EvCompress f o (Resolved result)]
       /\ within_tolerance result t = true
       /\ Forall (call_retried t) earlier
     | Exhausted attempt' _ =>
       attempt' = maxAttempts
       /\ List.length (calls evs) = (maxAttempts - attempt)%nat
       /\ Forall (call_retried t) (calls evs)
     end.
Proof.
  induction 1 as [attempt quality w Hlt
                 |attempt quality w evs result w' Hlt Hcall Htol
                 |attempt quality w evs r w1 evs' exit w' Hlt Hcall Hretry
                    Hloop IH];
    intros Hle.
  - apply Nat.ltb_ge in Hlt. cbn. repeat split; try lia. constructor.
  - apply Nat.ltb_lt in Hlt.
    rewrite calls_app, (call_run_no_calls Hcall). cbn. split; [lia|].
    exists [], (attempt_options quality t). repeat split; auto.
  - apply Nat.ltb_lt in Hlt.
    destruct IH as [Hlen Hexit]; [lia|].
    rewrite !calls_app, (call_run_no_calls Hcall). cbn.
    split; [lia|].
    destruct exit as [result|attempt' quality'].
    + destruct Hexit as (earlier & o & Heq & Htol & Hearlier).
      exists (EvCompress f (attempt_options quality t) r :: earlier), o.
      rewrite Heq. repeat split; auto.
    + destruct Hexit as (Hat & Hlen' & Hall).
      repeat split; auto. lia.
Qed.

(** C3. The loop of [smartCompress] makes at most [maxAttempts] attempts
    (calls of [compressImage]) and then ends.  It returns at the first
    attempt whose output size is within the ceiling times 1.1: that attempt
    is the last one, and no earlier attempt passed the test.  Otherwise it
    ends after exactly [maxAttempts] attempts, none of which passed the
    test.  This holds for every file, whatever its original size.  (The
    call of [compressImage] that follows an exhausted loop is not an
    attempt of the loop.) *)
Theorem smartCompress_loop_at_most_maxAttempts f t (w : World) :
  exists exit st',
    smartCompress_loop (S maxAttempts) f t 0 0.9 (start w)
    = (Resolved exit, st')
    /\ (List.length (calls (trace st')) <= maxAttempts)%nat
    /\ match exit with
       | Returned result =>
         exists earlier o,
         calls (trace st') = earlier ++ [EvCompress f o (Resolved result)]
         /\ within_tolerance result t = true
         /\ Forall (call_retried t) earlier
       | Exhausted attempt _ =>
         attempt = maxAttempts
         /\ List.length (calls (trace st')) = maxAttempts
         /\ Forall (call_retried t) (calls (trace st'))
       end.
Proof.
  destruct (@smartCompress_loop_runs f t (S maxAttempts) 0 0.9 (start w))
    as (evs & exit & w' & Hloop & Hrun); [unfold maxAttempts; lia|].
  apply loop_run_calls in Hloop; [|lia].
  rewrite Nat.sub_0_r in Hloop.
  eexists _, _. split; [exact Hrun|]. exact Hloop.
Qed.

Lemma loop_run_returned f t attempt quality w evs result w' :
  loop_run f t attempt quality w evs (Returned result) w' ->
  exists o, In (EvCompress f o (Resolved result)) evs.
Proof.
  intros H. remember (Returned result) as exit eqn:Hexit.
  induction H as [| attempt quality w evs result' w' Hlt Hcall Htol
                  | attempt quality w evs r w1 evs' exit w' Hlt Hcall Hretry
                      Hloop IH].
  - discriminate.
  - injection Hexit as ->. eexists. apply in_or_app. right. now left.
  - destruct (IH Hexit) as [o Hin]. exists o.
    apply in_or_app. right. now right.
Qed.

(** C8. [smartCompress] always resolves with a [CompressionResult]: it
    never rejects and never stays pending.  When every call of
    [compressImage] of the run fails, the call at quality 0.1 after the
    loop included, the result is the original file, with [compressedSize]
    equal to [originalSize], [compressionRatio] 0 and [width] and [height]
    both 0. *)
Theorem smartCompress_always_resolves f t (w : World) :
  exists result st',
    smartCompress f t (start w) = (Resolved result, st')
    /\ (Forall call_rejected (trace st') ->
        result = original_file_result f
        /\ file result = f
        /\ compressedSize result = originalSize result
        /\ compressionRatio result = 0
        /\ width result = 0
        /\ height result = 0).
Proof.
  destruct (smartCompress_runs f t (start w))
    as (evs & exit & w1 & Hloop & Hrun).
  destruct exit as [result|attempt quality].
  - eexists _, _. split; [exact Hrun|]. cbn [trace start app].
    intros Hall. exfalso.
    destruct (loop_run_returned Hloop) as [o Hin].
    rewrite Forall_forall in Hall. exact (Hall _ Hin).
  - destruct Hrun as (evs' & r & w2 & Hcall & Hrun).
    eexists _, _. split; [exact Hrun|]. cbn [trace start app].
    intros Hall.
    assert (Hr : call_rejected (EvCompress f fallback_options r)).
    { rewrite Forall_forall in Hall. apply Hall.
      apply in_or_app. right. apply in_or_app. right. now left. }
    destruct r; cbn in Hr; try contradiction.
    cbn. repeat split.
Qed.

Lemma loop_run_no_blob f t attempt quality w evs exit w' :
  loop_run f t attempt quality w evs exit w' ->
  Forall no_blob evs ->
  exists attempt' quality', exit = Exhausted attempt' quality'.
Proof.
  induction 1 as [attempt quality w Hlt
                 |attempt quality w evs result w' Hlt Hcall Htol
                 |attempt quality w evs r w1 evs' exit w' Hlt Hcall Hretry
                    Hloop IH];
    intros Hno.
  - now eexists _, _.
  - apply Forall_app in Hno as [Hno _].
    destruct (call_run_no_blob Hcall Hno) as [e He]. discriminate.
  - apply Forall_app in Hno as [_ Hno].
    apply (Forall_app _ [_] evs') in Hno as [_ Hno]. auto.
Qed.

(** C1 (as the code has it). No run of [smartCompress] reports a
    failure: the promise always resolves.  In particular, when no encoding
    of the run produces a blob, it resolves with the original file
    ([original_file_result]: [compressedSize] equal to [originalSize],
    [compressionRatio] 0, [width] and [height] 0). *)
Theorem smartCompress_without_blob_returns_original f t (w : World) :
  (exists result, fst (smartCompress f t (start w)) = Resolved result)
  /\ (Forall no_blob (trace (snd (smartCompress f t (start w)))) ->
      fst (smartCompress f t (start w)) = Resolved (original_file_result f)).
Proof.
  destruct (smartCompress_runs f t (start w))
    as (evs & exit & w1 & Hloop & Hrun).
  destruct exit as [result|attempt quality].
  - rewrite Hrun. cbn [fst snd trace start app].
    split; [now exists result|]. intros Hno.
    destruct (loop_run_no_blob Hloop Hno) as (a & q & H). discriminate.
  - destruct Hrun as (evs' & r & w2 & Hcall & Hrun).
    rewrite Hrun. cbn [fst snd trace start app].
    split; [now eexists|]. intros Hno.
    apply Forall_app in Hno as [_ Hno].
    apply Forall_app in Hno as [Hno _].
    destruct (call_run_no_blob Hcall Hno) as [e ->]. reflexivity.
Qed.

Lemma call_run_load_fails f o w evs r w' :
  (forall w0, fst (img_load f w0) = None) ->
  call_run f o w evs r w' ->
  evs = [EvLoad f None] /\ r = Rejected (JsError "Failed to load image").
Proof.
  intros Hnone Hcall.
  destruct Hcall;
    try match goal with
        | H : img_load f ?w = (Some _, _) |- _ =>
          specialize (Hnone w); rewrite H in Hnone; discriminate
        end.
  now split.
Qed.

Lemma loop_run_load_fails f t attempt quality w evs exit w' :
  (forall w0, fst (img_load f w0) = None) ->
  loop_run f t attempt quality w evs exit w' ->
  (attempt <= maxAttempts)%nat ->
  encodes evs = []
  /\ loads evs = repeat (EvLoad f None) (maxAttempts - attempt)
  /\ exists attempt' quality', exit = Exhausted attempt' quality'.
Proof.
  intros Hnone.
  induction 1 as [attempt quality w Hlt
                 |attempt quality w evs result w' Hlt Hcall Htol
                 |attempt quality w evs r w1 evs' exit w' Hlt Hcall Hretry
                    Hloop IH];
    intros Hle.
  - apply Nat.ltb_ge in Hlt.
    replace (maxAttempts - attempt)%nat with 0%nat by lia.
    repeat split. now eexists _, _.
  - destruct (call_run_load_fails Hnone Hcall) as [_ H]. discriminate.
  - apply Nat.ltb_lt in Hlt.
    destruct (call_run_load_fails Hnone Hcall) as [-> ->].
    destruct IH as (Henc & Hloads & Hexit); [lia|].
    replace (maxAttempts - attempt)%nat
      with (S (maxAttempts - S attempt)) by lia.
    rewrite !encodes_app, !loads_app, Henc, Hloads. cbn. auto.
Qed.

(** C2 (as the code has it). When the file does not load as an image,
    [smartCompress] makes no encoding at all, but it neither fails nor
    stops at the first load: every attempt of the loop and the call after
    the loop load the file again ([maxAttempts + 1] loads, all failed),
    and the call resolves with the original file. *)
Theorem smartCompress_decode_failure f t (w : World) :
  (forall w0, fst (img_load f w0) = None) ->
  fst (smartCompress f t (start w)) = Resolved (original_file_result f)
  /\ encodes (trace (snd (smartCompress f t (start w)))) = []
  /\ loads (trace (snd (smartCompress f t (start w))))
     = repeat (EvLoad f None) (S maxAttempts).
Proof.
  intros Hnone.
  destruct (smartCompress_runs f t (start w))
    as (evs & exit & w1 & Hloop & Hrun).
  destruct (loop_run_load_fails Hnone Hloop) as (Henc & Hloads & a & q & ->);
    [lia|].
  destruct Hrun as (evs' & r & w2 & Hcall & Hrun).
  destruct (call_run_load_fails Hnone Hcall) as [-> ->].
  rewrite Hrun. cbn [fst snd trace start app after_loop].
  rewrite encodes_app, loads_app, Henc, Hloads, Nat.sub_0_r.
  repeat split.
Qed.

(** *** Calls, loads and encodings of a whole run *)

Lemma call_run_counts f o w evs r w' :
  call_run f o w evs r w' ->
  List.length (loads evs) = 1%nat
  /\ (List.length (encodes evs) <= 2)%nat.
Proof. destruct 1; cbn; split; lia. Qed.

Lemma loop_run_counts f t attempt quality w evs exit w' :
  loop_run f t attempt quality w evs exit w' ->
  List.length (loads evs) = List.length (calls evs)
  /\ (List.length (encodes evs) <= 2 * List.length (calls evs))%nat.
Proof.
  induction 1 as [attempt quality w Hlt
                 |attempt quality w evs result w' Hlt Hcall Htol
                 |attempt quality w evs r w1 evs' exit w' Hlt Hcall Hretry
                    Hloop IH].
  - cbn. split; lia.
  - destruct (call_run_counts Hcall) as [Hl He].
    rewrite loads_app, encodes_app, calls_app, !length_app,
      (call_run_no_calls Hcall).
    cbn. split; lia.
  - destruct (call_run_counts Hcall) as [Hl He]. destruct IH as [IHl IHe].
    rewrite !loads_app, !encodes_app, !calls_app, !length_app,
      (call_run_no_calls Hcall).
    cbn. split; lia.
Qed.

(** The events of a trace, call by call. *)
Lemma split_calls_concat (tr cur : list (Event Bytes)) :
  List.concat (split_calls cur tr) = cur ++ tr.
Proof.
  revert cur. induction tr as [|e tr IH]; intros cur.
  - destruct cur; cbn; now rewrite ?app_nil_r.
  - cbn [split_calls]. destruct (is_compress e).
    + cbn [List.concat]. rewrite IH, <- app_assoc. reflexivity.
    + rewrite IH, <- app_assoc. reflexivity.
Qed.

Lemma split_calls_call (evs : list (Event Bytes)) :
  forall cur e rest,
    calls evs = [] ->
    is_compress e = true ->
    split_calls cur (evs ++ e :: rest)
    = (cur ++ evs ++ [e]) :: split_calls [] rest.
Proof.
  induction evs as [|x evs IH]; intros cur e rest Hnone He.
  - cbn [app split_calls]. now rewrite He.
  - cbn [app split_calls]. unfold calls in Hnone. cbn [filter] in Hnone.
    destruct (is_compress x); [discriminate|].
    rewrite (IH _ _ _ Hnone He), <- app_assoc. reflexivity.
Qed.

Lemma call_run_is_call f o w evs r w' :
  call_run f o w evs r w' -> is_call (evs ++ [EvCompress f o r]) = true.
Proof. destruct 1; reflexivity. Qed.

Lemma loop_run_split f t attempt quality w evs exit w' :
  loop_run f t attempt quality w evs exit w' ->
  forallb is_call (split_calls [] evs) = true
  /\ List.length (split_calls [] evs) = List.length (calls evs).
Proof.
  induction 1 as [attempt quality w Hlt
                 |attempt quality w evs result w' Hlt Hcall Htol
                 |attempt quality w evs r w1 evs' exit w' Hlt Hcall Hretry
                    Hloop IH].
  - now split.
  - rewrite (@split_calls_call evs [] (EvCompress f _ (Resolved result)) []
               (call_run_no_calls Hcall) eq_refl).
    rewrite calls_app, (call_run_no_calls Hcall). cbn [app].
    cbn [forallb split_calls List.length calls filter is_compress].
    now rewrite (call_run_is_call Hcall).
  - destruct IH as [IHcall IHlen].
    change (evs ++ [EvCompress f (attempt_options quality t) r] ++ evs')
      with (evs ++ EvCompress f (attempt_options quality t) r :: evs').
    rewrite (@split_calls_call evs [] (EvCompress f _ r) evs'
               (call_run_no_calls Hcall) eq_refl).
    rewrite calls_app, (call_run_no_calls Hcall). cbn [app].
    cbn [forallb List.length calls filter is_compress].
    fold (calls evs').
    now rewrite (call_run_is_call Hcall), IHcall, IHlen.
Qed.

Lemma loop_run_split_app f t attempt quality w evs exit w' :
  loop_run f t attempt quality w evs exit w' ->
  forall evs',
    calls evs' = [] ->
    forall e,
      is_compress e = true ->
      split_calls [] (evs ++ evs' ++ [e])
      = split_calls [] evs ++ [evs' ++ [e]].
Proof.
  induction 1 as [attempt quality w Hlt
                 |attempt quality w evs result w' Hlt Hcall Htol
                 |attempt quality w evs r w1 evs1 exit w' Hlt Hcall Hretry
                    Hloop IH];
    intros evs' Hnone e He.
  - cbn [app]. now rewrite (@split_calls_call evs' [] e [] Hnone He).
  - rewrite <- app_assoc. cbn [app].
    rewrite !(@split_calls_call evs [] (EvCompress f _ (Resolved result))
                _ (call_run_no_calls Hcall) eq_refl).
    cbn [app]. now rewrite (@split_calls_call evs' [] e [] Hnone He).
  - rewrite <- !app_assoc. cbn [app].
    rewrite !(@split_calls_call evs [] (EvCompress f _ r) _
                (call_run_no_calls Hcall) eq_refl).
    cbn [app]. now rewrite (IH evs' Hnone e He).
Qed.

(** X1. A whole run of [smartCompress] makes at most [maxAttempts + 1]
    calls of [compressImage]: those of the loop and, when the loop is
    exhausted, the call at quality 0.1.  Every call loads the image once,
    before anything else, and encodes at most twice: the trace of the run
    is made of its calls, one after the other, each an image load followed
    by no, one or two encodings. *)
Theorem smartCompress_calls_bounded f t (w : World) :
  List.concat (split_calls [] (trace (snd (smartCompress f t (start w)))))
  = trace (snd (smartCompress f t (start w)))
  /\ forallb is_call
             (split_calls [] (trace (snd (smartCompress f t (start w)))))
     = true
  /\ (List.length
        (split_calls [] (trace (snd (smartCompress f t (start w)))))
      <= S maxAttempts)%nat
  /\ List.length (calls (trace (snd (smartCompress f t (start w)))))
     = List.length
         (split_calls [] (trace (snd (smartCompress f t (start w)))))
  /\ List.length (loads (trace (snd (smartCompress f t (start w)))))
     = List.length (calls (trace (snd (smartCompress f t (start w)))))
  /\ (List.length (encodes (trace (snd (smartCompress f t (start w)))))
      <= 2 * List.length (calls (trace (snd (smartCompress f t (start w))))))
     %nat.
Proof.
  split; [apply split_calls_concat|].
  destruct (smartCompress_runs f t (start w))
    as (evs & exit & w1 & Hloop & Hrun).
  destruct (loop_run_counts Hloop) as [Hl He].
  destruct (loop_run_calls Hloop) as [Hc _]; [lia|].
  destruct (loop_run_split Hloop) as [Hcalls Hlen].
  destruct exit as [result|attempt quality].
  - rewrite Hrun. cbn [snd trace start app].
    split; [exact Hcalls|]. repeat split; lia.
  - destruct Hrun as (evs' & r & w2 & Hcall & Hrun).
    destruct (call_run_counts Hcall) as [Hl' He'].
    rewrite Hrun. cbn [snd trace start app].
    pose proof (loop_run_split_app Hloop evs' (call_run_no_calls Hcall)
                  (EvCompress f fallback_options r) eq_refl) as Hsplit.
    rewrite Hsplit, forallb_app, Hcalls, length_app.
    cbn [forallb andb List.length]. rewrite (call_run_is_call Hcall).
    rewrite !loads_app, !encodes_app, !calls_app, !length_app,
      (call_run_no_calls Hcall).
    cbn. repeat split; lia.
Qed.

(** *** Qualities *)

Lemma of_N_nonneg (n : N) : 0 <= of_N n.
Proof. unfold of_N, Qle; simpl. lia. Qed.

Lemma gtb_true (a b : Q) : gtb a b = true <-> b < a.
Proof.
  unfold gtb. rewrite negb_true_iff, <- not_true_iff_false, Qle_bool_iff.
  split; [apply Qnot_le_lt | apply Qlt_not_le].
Qed.

Lemma gtb_false (a b : Q) : gtb a b = false <-> a <= b.
Proof. unfold gtb. now rewrite negb_false_iff, Qle_bool_iff. Qed.

Lemma reduce_quality_in_range (q : Q) :
  in_range q -> in_range (reduce_quality q).
Proof.
  unfold in_range, reduce_quality, Math_max. intros [Hlo Hhi]. split.
  - apply Q.le_max_l.
  - apply Q.max_lub; lra.
Qed.

Lemma second_quality_in_range o (b : Blob Bytes) :
  in_range (first_quality o) ->
  too_large o b = true ->
  in_range (second_quality o b).
Proof.
  unfold in_range, second_quality, too_large, Math_max.
  set (q := first_quality o). set (m := default 500 (maxSizeKB o)).
  intros [Hlo Hhi] Hlarge. apply gtb_true in Hlarge.
  pose proof (of_N_nonneg (blob_size b)) as Hsize.
  set (c := of_N (blob_size b) / 1024) in *.
  assert (Hc : 0 <= c) by (apply Qle_shift_div_l; lra).
  split; [apply Q.le_max_l|]. apply Q.max_lub; [lra|].
  destruct (Qlt_le_dec 0 c) as [Hpos|Hzero].
  - assert (m / c <= 1) by (apply Qle_shift_div_r; [assumption | lra]).
    destruct (Qlt_le_dec (m / c) 0); nra.
  - assert (Hc0 : c == 0) by lra.
    rewrite Hc0. unfold Qdiv. change (/ 0) with 0. lra.
Qed.

Lemma call_run_quality f o w evs r w' :
  call_run f o w evs r w' ->
  in_range (first_quality o) ->
  Forall quality_in_range evs.
Proof.
  destruct 1; intros Hq; repeat apply Forall_cons; try apply Forall_nil;
    cbn [quality_in_range]; auto using second_quality_in_range.
Qed.

Lemma loop_run_quality f t attempt quality w evs exit w' :
  loop_run f t attempt quality w evs exit w' ->
  in_range quality ->
  Forall quality_in_range evs
  /\ match exit with
     | Exhausted _ quality' => in_range quality'
     | Returned _ => True
     end.
Proof.
  induction 1 as [attempt quality w Hlt
                 |attempt quality w evs result w' Hlt Hcall Htol
                 |attempt quality w evs r w1 evs' exit w' Hlt Hcall Hretry
                    Hloop IH];
    intros Hq.
  - split; [constructor | assumption].
  - split; [|exact I]. apply Forall_app. split.
    + exact (call_run_quality Hcall Hq).
    + repeat constructor. cbn. eauto.
  - destruct (IH (reduce_quality_in_range Hq)) as [Hevs' Hexit].
    split; [|assumption]. apply Forall_app. split.
    + exact (call_run_quality Hcall Hq).
    + constructor; [cbn; eauto | assumption].
Qed.

(** C9. Throughout every run of [smartCompress] the quality factor is in
    the closed interval from 0.1 to 0.9: the first quality, 0.9, is; the
    reduction step, which replaces [q] by [Math.max(0.1, q * 0.7)], keeps
    it there; so every call of [compressImage] of the run (the call at
    quality 0.1 after the loop included) and every encoding it makes is
    given a quality in the interval, and so is the quality the loop ends
    with when it is exhausted. *)
Theorem smartCompress_quality_in_range f t (w : World) :
  in_range 0.9
  /\ (forall q, reduce_quality q = Math_max 0.1 (q * 0.7)
                /\ (in_range q -> in_range (reduce_quality q)))
  /\ Forall quality_in_range (trace (snd (smartCompress f t (start w))))
  /\ match fst (smartCompress_loop (S maxAttempts) f t 0 0.9 (start w)) with
     | Resolved (Exhausted _ quality) => in_range quality
     | _ => True
     end.
Proof.
  assert (H09 : in_range 0.9) by (unfold in_range; lra).
  split; [assumption|].
  split; [intros q; split; [reflexivity | apply reduce_quality_in_range]|].
  split.
  - destruct (smartCompress_runs f t (start w))
      as (evs & exit & w1 & Hloop & Hrun).
    destruct (loop_run_quality Hloop H09) as [Hevs _].
    destruct exit as [result|attempt quality].
    + rewrite Hrun. exact Hevs.
    + destruct Hrun as (evs' & r & w2 & Hcall & Hrun).
      rewrite Hrun. cbn [snd trace start app].
      assert (H01 : in_range (first_quality fallback_options))
        by (unfold in_range; cbn; lra).
      repeat (apply Forall_app; split); auto.
      * exact (call_run_quality Hcall H01).
      * repeat constructor. cbn. eexists. split; [reflexivity|exact H01].
  - destruct (@smartCompress_loop_runs f t (S maxAttempts) 0 0.9 (start w))
      as (evs & exit & w' & Hloop & Hrun); [unfold maxAttempts; lia|].
    rewrite Hrun. cbn [fst].
    destruct (loop_run_quality Hloop H09) as [_ Hexit].
    destruct exit; [exact I | exact Hexit].
Qed.

(** *** An image below the ceiling *)

Lemma call_run_encoded_once f o w w0 h0 w1 b w2 evs r w' :
  img_load f w = (Some (w0, h0), w1) ->
  canvas_toBlob (canvas_of o f w0 h0) (type_of o) (first_quality o) w1
  = (Some b, w2) ->
  too_large o b = false ->
  call_run f o w evs r w' ->
  evs = [EvLoad f (Some (w0, h0));
         EvToBlob (canvas_of o f w0 h0) (type_of o) (first_quality o) (Some b)]
  /\ r = Resolved (result_from o f (canvas_of o f w0 h0) b (Date_now w2))
  /\ w' = w2.
Proof.
  intros Hload Hblob Hsmall Hcall.
  destruct Hcall as [w1' Hload'
                    |w0' h0' w1' w2' Hload' Hblob'
                    |w0' h0' w1' b' w2' Hload' Hblob' Hsmall'
                    |w0' h0' w1' b' w2' w3' Hload' Hblob' Hlarge' Hblob2
                    |w0' h0' w1' b' w2' b2 w3' Hload' Hblob' Hlarge' Hblob2];
    rewrite Hload in Hload'; try discriminate;
    injection Hload' as <- <- <-;
    rewrite Hblob in Hblob'; try discriminate;
    injection Hblob' as <- <-;
    try congruence.
  now repeat split.
Qed.

Lemma new_dimensions_within_bounds (maxW maxH w h : Q) :
  w <= maxW -> h <= maxH -> new_dimensions maxW maxH w h = (w, h).
Proof.
  intros Hw Hh. unfold new_dimensions.
  now rewrite (proj2 (gtb_false w maxW) Hw), (proj2 (gtb_false h maxH) Hh).
Qed.

(** C5. For an image already below the ceiling, that is, one whose first
    encoding is not larger than the target size, [smartCompress] loads the
    image once, encodes it once, at quality 0.9, and resolves with the
    result of that encoding after a single call of [compressImage].  The
    dimensions of the result are those of the canvas; when the image is
    within 1920 by 1080 they are the dimensions of the image. *)
Theorem smartCompress_below_ceiling f t (w : World) w0 h0 w1 b w2 :
  img_load f w = (Some (w0, h0), w1) ->
  canvas_toBlob (canvas_of (attempt_options 0.9 t) f w0 h0) (mime jpeg) 0.9 w1
  = (Some b, w2) ->
  of_N (blob_size b) / 1024 <= t ->
  exists result st',
    smartCompress f t (start w) = (Resolved result, st')
    /\ trace st'
       = [EvLoad f (Some (w0, h0));
          EvToBlob (canvas_of (attempt_options 0.9 t) f w0 h0) (mime jpeg) 0.9
                   (Some b);
          EvCompress f (attempt_options 0.9 t) (Resolved result)]
    /\ compressedSize result = blob_size b
    /\ (width result, height result)
       = new_dimensions 1920 1080 (of_N w0) (of_N h0)
    /\ (of_N w0 <= 1920 -> of_N h0 <= 1080 ->
        width result = of_N w0 /\ height result = of_N h0).
Proof.
  intros Hload Hblob Hbelow.
  set (o := attempt_options 0.9 t) in *.
  assert (Hsmall : too_large o b = false) by (now apply gtb_false).
  destruct (compressImage_run_cases f o (start w))
    as (evs & r & w' & Hcall & Hrun).
  destruct (call_run_encoded_once Hload Hblob Hsmall Hcall)
    as (-> & -> & ->).
  set (result := result_from o f (canvas_of o f w0 h0) b (Date_now w2)) in *.
  assert (Htol : within_tolerance result t = true).
  { unfold within_tolerance, leb. apply Qle_bool_iff.
    change (compressedSize result) with (blob_size b).
    pose proof (of_N_nonneg (blob_size b)).
    assert (0 <= of_N (blob_size b) / 1024)
      by (apply Qle_shift_div_l; lra).
    lra. }
  exists result. eexists. split; [|split; [|split; [|split]]].
  - unfold Compression.smartCompress, bind.
    cbn [Compression.smartCompress_loop].
    change (0 <? maxAttempts)%nat with true. cbv iota.
    unfold bind, try_catch. fold o. rewrite Hrun. cbv iota beta.
    unfold bind. rewrite Htol. reflexivity.
  - reflexivity.
  - reflexivity.
  - unfold result, result_from, canvas_of. cbn [default attempt_options o
      Compression.maxWidth Compression.maxHeight].
    now destruct (new_dimensions 1920 1080 (of_N w0) (of_N h0)).
  - intros Hw Hh.
    unfold result, result_from, canvas_of. cbn [default attempt_options o
      Compression.maxWidth Compression.maxHeight].
    rewrite (new_dimensions_within_bounds Hw Hh). now split.
Qed.

End CompressionFacts.

(** *** Runs in concrete browsers *)

Section CompressionRuns.

Import Compression Examples.
Local Open Scope Q_scope.

(** C1, counterexample. No encoding of this run produces a blob, and yet
    the caller receives no failure: the promise resolves, with the
    original file. *)
Lemma smartCompress_encoder_failure_not_reported :
  Forall no_blob (trace (snd run_without_encoder))
  /\ List.length (encodes (trace (snd run_without_encoder))) = 6%nat
  /\ fst run_without_encoder
     = Resolved (original_file_result (photo 5242880))
  /\ forall e, fst run_without_encoder <> Rejected e.
Proof.
  repeat split.
  - vm_compute. repeat constructor.
  - vm_compute. discriminate.
Qed.

Lemma smartCompress_without_blob_witness :
  Forall no_blob
    (trace (snd (smartCompress (load_as 640 480) encoder_none clock
                               (photo 2097152) 500 (start 0%nat))))
  /\ fst (smartCompress (load_as 640 480) encoder_none clock
                        (photo 2097152) 500 (start 0%nat))
     = Resolved (original_file_result (photo 2097152)).
Proof.
  assert (H : Forall no_blob
                (trace (snd (smartCompress (load_as 640 480) encoder_none
                               clock (photo 2097152) 500 (start 0%nat)))))
    by (vm_compute; repeat constructor).
  split; [exact H|].
  exact (proj2 (smartCompress_without_blob_returns_original
                  (load_as 640 480) encoder_none clock (photo 2097152) 500
                  0%nat) H).
Defined.

Lemma smartCompress_always_resolves_witness :
  exists result st',
    smartCompress (load_as 640 480) encoder_none clock (photo 2097152) 500
                  (start 0%nat)
    = (Resolved result, st')
    /\ Forall call_rejected (trace st')
    /\ result = original_file_result (photo 2097152).
Proof.
  destruct (smartCompress_always_resolves (load_as 640 480) encoder_none
              clock (photo 2097152) 500 0%nat)
    as (result & st' & Hrun & Horiginal).
  assert (Hall : Forall call_rejected (trace st')).
  { replace st' with (snd (smartCompress (load_as 640 480) encoder_none
                             clock (photo 2097152) 500 (start 0%nat)))
      by (now rewrite Hrun).
    vm_compute. repeat constructor. }
  exists result, st'. split; [exact Hrun|]. split; [exact Hall|].
  now apply Horiginal.
Defined.

(** C2, counterexample. The file does not load, and yet [smartCompress]
    does not fail: it loads the file six times, once per attempt of the
    loop and once after it, and resolves with the original file. *)
Lemma smartCompress_decode_failure_retried :
  loads (trace (snd run_corrupt_file))
  = repeat (EvLoad (photo 5242880) None) 6
  /\ fst run_corrupt_file = Resolved (original_file_result (photo 5242880))
  /\ forall e, fst run_corrupt_file <> Rejected e.
Proof.
  repeat split. vm_compute. discriminate.
Qed.

Lemma smartCompress_decode_failure_witness :
  (forall w0, fst (load_never (photo 1024) w0) = None)
  /\ fst (smartCompress load_never encoder_none clock (photo 1024) 500
                        (start 0%nat))
     = Resolved (original_file_result (photo 1024))
  /\ encodes (trace (snd (smartCompress load_never encoder_none clock
                                        (photo 1024) 500 (start 0%nat))))
     = []
  /\ loads (trace (snd (smartCompress load_never encoder_none clock
                                      (photo 1024) 500 (start 0%nat))))
     = repeat (EvLoad (photo 1024) None) (S maxAttempts).
Proof.
  split; [reflexivity|].
  apply (smartCompress_decode_failure load_never encoder_none clock
           (photo 1024) 500 0%nat).
  reflexivity.
Defined.

(** C4, on the code as it is.  A photo of 4000 by 3000 pixels exceeds the
    maximum of 1920 by 1080.  The resize step clamps its width only: the
    result of [smartCompress] is 1920 by 1440, higher than the maximum
    height. *)
Theorem resize_leaves_height_above_maximum :
  exists result,
    fst run_large_photo = Resolved result
    /\ width result == 1920
    /\ height result == 1440
    /\ ~ height result <= 1080.
Proof.
  eexists. split; [vm_compute; reflexivity|].
  repeat split; try reflexivity.
  cbn. unfold Qle. cbn. lia.
Qed.

(** The scenario of a photo of 400 KB, 1500 by 1200 pixels, with a target
    of 500 KB: one call, one encoding at quality 0.9, and a result of 1500
    by 1200.  (The height is above 1080, so the resize step runs; it
    clamps the width to itself and recomputes the same height.) *)
Example smartCompress_scenario_1500x1200 :
  exists result st',
    smartCompress (load_as 1500 1200) (encoder_linear 409600) clock
                  (photo 409600) 500 (start 0%nat)
    = (Resolved result, st')
    /\ List.length (calls (trace st')) = 1%nat
    /\ map (fun e => match e with EvToBlob _ _ q _ => Some q | _ => None end)
           (encodes (trace st'))
       = [Some 0.9]
    /\ width result == 1500 /\ height result == 1200.
Proof.
  eexists _, _. split; [vm_compute; reflexivity|].
  repeat split; reflexivity.
Qed.

Lemma smartCompress_below_ceiling_witness :
  exists result st',
    smartCompress (load_as 1500 1000) (encoder_linear 409600) clock
                  (photo 409600) 500 (start 0%nat)
    = (Resolved result, st')
    /\ List.length (encodes (trace st')) = 1%nat
    /\ compressedSize result = 368640%N
    /\ width result = 1500 /\ height result = 1000.
Proof.
  assert (Hbelow : of_N 368640 / 1024 <= 500)
    by (unfold Qle; vm_compute; discriminate).
  destruct (@smartCompress_below_ceiling unit nat (load_as 1500 1000)
              (encoder_linear 409600) clock (photo 409600) 500 0%nat
              1500%N 1000%N 1%nat _ 2%nat eq_refl eq_refl Hbelow)
    as (result & st' & Hrun & Htrace & Hsize & _ & Hdim).
  exists result, st'. split; [exact Hrun|].
  split; [now rewrite Htrace|]. split; [exact Hsize|].
  apply Hdim; unfold Qle; vm_compute; discriminate.
Defined.

(** The same two facts on IEEE doubles.  The quality of [smartCompress]
    does not depend on what the browser answers: it is 0.9 and then its
    reductions, at most [maxAttempts] of them; the call after the loop is
    given 0.1.  All these doubles are in the interval. *)
Example qualities_in_range_binary64 :
  forallb Binary64.in_range (Binary64.run_qualities maxAttempts) = true.
Proof. vm_compute. reflexivity. Qed.

Example resize_4000x3000_binary64 :
  Binary64.large_photo_dimensions = Binary64.dimensions_1920x1440.
Proof. vm_compute. reflexivity. Qed.

End CompressionRuns.

(** ** More on image compression *)

Section CompressionMore.

Import Compression.
Set Implicit Arguments.
Local Open Scope Q_scope.

Context {Bytes World : Type}.
Variable img_load : File Bytes -> World -> option (N * N) * World.
Variable canvas_toBlob :
  Canvas Bytes -> string -> Q -> World -> option (Blob Bytes) * World.
Variable Date_now : World -> N.

Local Abbreviation compressImage :=
  (Compression.compressImage img_load canvas_toBlob Date_now).
Local Abbreviation smartCompress_loop :=
  (Compression.smartCompress_loop img_load canvas_toBlob Date_now).
Local Abbreviation smartCompress :=
  (Compression.smartCompress img_load canvas_toBlob Date_now).
Local Abbreviation call_run :=
  (Compression.call_run img_load canvas_toBlob Date_now).
Local Abbreviation loop_run :=
  (Compression.loop_run img_load canvas_toBlob Date_now).
Local Abbreviation State := (St Bytes World).

(** *** The recommended options *)

Lemma sizeMB_le (f1 f2 : File Bytes) :
  (file_size f1 <= file_size f2)%N ->
  of_N (file_size f1) / (1024 * 1024) <= of_N (file_size f2) / (1024 * 1024).
Proof.
  intros Hle. unfold of_N, Qdiv, Qle. cbn. lia.
Qed.

(** X4. The recommended options get stricter as files get larger: of two
    files, the larger one is recommended a quality and a target size that
    are not higher than those of the smaller one.  The quality is always
    between 0.6 and 0.9 and the target between 300 and 600 KB, with
    maximum dimensions 1920 by 1080 and the JPEG format. *)
Theorem getRecommendedOptions_monotone (f1 f2 : File Bytes) :
  (file_size f1 <= file_size f2)%N ->
  exists q1 q2 m1 m2,
    getRecommendedOptions f1 = preset q1 m1
    /\ getRecommendedOptions f2 = preset q2 m2
    /\ q2 <= q1 /\ m2 <= m1
    /\ 0.6 <= q2 /\ q1 <= 0.9 /\ 300 <= m2 /\ m1 <= 600.
Proof.
  intros Hle. apply sizeMB_le in Hle. unfold getRecommendedOptions.
  set (a := of_N (file_size f1) / (1024 * 1024)) in *.
  set (b := of_N (file_size f2) / (1024 * 1024)) in *.
  destruct (gtb a 5) eqn:Ha5; [|destruct (gtb a 2) eqn:Ha2;
                                [|destruct (gtb a 1) eqn:Ha1]];
    (destruct (gtb b 5) eqn:Hb5; [|destruct (gtb b 2) eqn:Hb2;
                                  [|destruct (gtb b 1) eqn:Hb1]]);
    rewrite ?gtb_true, ?gtb_false in *;
    try (exfalso; lra);
    eexists _, _, _, _; (split; [reflexivity|]); (split; [reflexivity|]);
    repeat split; lra.
Qed.

(** X5. The recommended target is below the size of the file, so that
    [needsCompression] holds for it, exactly when the file is larger than
    600 KB (614400 bytes). *)
Theorem needsCompression_recommended (f : File Bytes) :
  exists m,
    maxSizeKB (getRecommendedOptions f) = Some m
    /\ (needsCompression f m = true <-> (614400 < file_size f)%N).
Proof.
  unfold getRecommendedOptions, needsCompression.
  destruct (gtb (of_N (file_size f) / (1024 * 1024)) 5) eqn:H5;
    [|destruct (gtb (of_N (file_size f) / (1024 * 1024)) 2) eqn:H2;
      [|destruct (gtb (of_N (file_size f) / (1024 * 1024)) 1) eqn:H1]];
    eexists; (split; [reflexivity|]);
    rewrite ?gtb_true, ?gtb_false in *;
    unfold of_N, Qdiv, Qlt, Qle in *; cbn in *; lia.
Qed.

(** *** One call of [compressImage], read from its result *)

Lemma compressImage_run (f : File Bytes) (o : CompressionOptions)
      (w : World) :
  exists evs r w',
    call_run f o w evs r w'
    /\ compressImage f o (start w)
       = (r, {| world := w'; trace := evs ++ [EvCompress f o r] |}).
Proof.
  destruct (compressImage_run_cases img_load canvas_toBlob Date_now f o
              (start w))
    as (evs & r & w' & Hcall & Hrun).
  now exists evs, r, w'.
Qed.

(** X2. What the resize step does ensure, on the dimensions that a call of
    [compressImage] returns.  An image within the maximum width and height
    keeps its dimensions.  When it exceeds one of them, one side is
    clamped: for an image wider than tall the width becomes
    [Math.min(maxWidth, width)], which is neither above the maximum nor
    above the width of the image; otherwise the height becomes
    [Math.min(maxHeight, height)], likewise. *)
Theorem resize_clamps_longer_side f o (w w1 : World) (w0 h0 : N) res :
  img_load f w = (Some (w0, h0), w1) ->
  fst (compressImage f o (start w)) = Resolved res ->
  if gtb (of_N w0) (default 1920 (maxWidth o))
     || gtb (of_N h0) (default 1080 (maxHeight o))
  then
    if gtb (of_N w0) (of_N h0)
    then width res = Math_min (default 1920 (maxWidth o)) (of_N w0)
         /\ width res <= default 1920 (maxWidth o)
         /\ width res <= of_N w0
    else height res = Math_min (default 1080 (maxHeight o)) (of_N h0)
         /\ height res <= default 1080 (maxHeight o)
         /\ height res <= of_N h0
  else width res = of_N w0 /\ height res = of_N h0.
Proof.
  intros Hload Hres.
  destruct (compressImage_run f o w) as (evs & r & w' & Hcall & Hrun).
  rewrite Hrun in Hres. cbn [fst] in Hres. subst r.
  assert (Hdim : (width res, height res)
                 = new_dimensions (default 1920 (maxWidth o))
                                  (default 1080 (maxHeight o))
                                  (of_N w0) (of_N h0)).
  { inversion Hcall; subst;
      match goal with
      | H : img_load f w = (Some (?a, ?b), _) |- _ =>
        rewrite Hload in H; injection H as <- <- <-
      end;
      unfold result_from, canvas_of;
      cbn [width height compression_result];
      now destruct (new_dimensions (default 1920 (maxWidth o))
                                   (default 1080 (maxHeight o))
                                   (of_N w0) (of_N h0)). }
  unfold new_dimensions in Hdim.
  destruct (gtb (of_N w0) (default 1920 (maxWidth o))
            || gtb (of_N h0) (default 1080 (maxHeight o)));
    [|now injection Hdim].
  destruct (gtb (of_N w0) (of_N h0)); injection Hdim as Hw Hh;
    rewrite ?Hw, ?Hh; (split; [reflexivity|]); unfold Math_min;
    (split; [apply Q.le_min_l | apply Q.le_min_r]).
Qed.

(** The dimensions that a resolved call returns are those of the resize
    step on the dimensions of the image as loaded. *)
Lemma compressImage_dimensions f o (w w1 : World) (w0 h0 : N) res :
  img_load f w = (Some (w0, h0), w1) ->
  fst (compressImage f o (start w)) = Resolved res ->
  (width res, height res)
  = new_dimensions (default 1920 (maxWidth o)) (default 1080 (maxHeight o))
                   (of_N w0) (of_N h0).
Proof.
  intros Hload Hres.
  destruct (compressImage_run f o w) as (evs & r & w' & Hcall & Hrun).
  rewrite Hrun in Hres. cbn [fst] in Hres. subst r.
  inversion Hcall; subst;
    match goal with
    | H : img_load f w = (Some (?a, ?b), _) |- _ =>
      rewrite Hload in H; injection H as <- <- <-
    end;
    unfold result_from, canvas_of;
    cbn [width height compression_result];
    now destruct (new_dimensions (default 1920 (maxWidth o))
                                 (default 1080 (maxHeight o))
                                 (of_N w0) (of_N h0)).
Qed.

(** X6. How the resize step keeps the aspect ratio, on the dimensions that
    a call of [compressImage] returns.  When the image exceeds the maximum
    width or height, the side that is not clamped is computed from the
    clamped one and the ratio [width / height] of the image as loaded: for
    an image wider than tall the height is the new width divided by the
    ratio, otherwise the width is the new height times the ratio.  It is
    not compared with its own maximum.  An image within the maxima keeps
    both dimensions. *)
Theorem resize_scales_other_side f o (w w1 : World) (w0 h0 : N) res :
  img_load f w = (Some (w0, h0), w1) ->
  fst (compressImage f o (start w)) = Resolved res ->
  if gtb (of_N w0) (default 1920 (maxWidth o))
     || gtb (of_N h0) (default 1080 (maxHeight o))
  then
    if gtb (of_N w0) (of_N h0)
    then height res = width res / (of_N w0 / of_N h0)
    else width res = height res * (of_N w0 / of_N h0)
  else width res = of_N w0 /\ height res = of_N h0.
Proof.
  intros Hload Hres.
  pose proof (@compressImage_dimensions f o w w1 w0 h0 res Hload Hres) as Hdim.
  unfold new_dimensions in Hdim.
  destruct (gtb (of_N w0) (default 1920 (maxWidth o))
            || gtb (of_N h0) (default 1080 (maxHeight o)));
    [|now injection Hdim].
  destruct (gtb (of_N w0) (of_N h0)); injection Hdim as Hw Hh;
    now rewrite Hw, Hh.
Qed.

(** X7. What a resolved call of [compressImage] returns is always made of
    the last blob the encoder produced, never of the original file, even
    when that blob is larger: the file of the result has the bytes and the
    size of that blob, the name of the original and the requested type
    (whatever the type of the blob), and [compressionRatio] is
    [(1 - compressedSize / originalSize) * 100], negative when the blob is
    larger than a non-empty original. *)
Theorem compressImage_result_is_last_blob f o (w : World) res :
  fst (compressImage f o (start w)) = Resolved res ->
  exists evs c q b,
    trace (snd (compressImage f o (start w)))
    = evs ++ [EvToBlob c (type_of o) q (Some b);
              EvCompress f o (Resolved res)]
    /\ file_bytes (file res) = blob_bytes b
    /\ file_size (file res) = blob_size b
    /\ file_name (file res) = file_name f
    /\ file_type (file res) = mime (default jpeg (format o))
    /\ originalSize res = file_size f
    /\ compressedSize res = blob_size b
    /\ compressionRatio res
       = (1 - of_N (blob_size b) / of_N (file_size f)) * 100
    /\ ((file_size f < blob_size b)%N -> (0 < file_size f)%N ->
        compressionRatio res < 0).
Proof.
  intros Hres.
  destruct (compressImage_run f o w) as (evs & r & w' & Hcall & Hrun).
  rewrite Hrun in *. cbn [fst snd trace] in *. subst r.
  assert (Hneg : forall b : Blob Bytes,
             (file_size f < blob_size b)%N -> (0 < file_size f)%N ->
             (1 - of_N (blob_size b) / of_N (file_size f)) * 100 < 0).
  { intros b Hlt Hpos.
    assert (Hf : 0 < of_N (file_size f)) by (unfold of_N, Qlt; cbn; lia).
    assert (Hb : of_N (file_size f) < of_N (blob_size b))
      by (unfold of_N, Qlt; cbn; lia).
    assert (1 < of_N (blob_size b) / of_N (file_size f))
      by (apply Qlt_shift_div_l; lra).
    lra. }
  inversion Hcall; subst.
  - eexists [_], _, _, _. split; [reflexivity|].
    repeat split; auto. intros. now apply Hneg.
  - eexists [_; _], _, _, _. split; [reflexivity|].
    repeat split; auto. intros. now apply Hneg.
Qed.

Lemma second_quality_bounds o (b : Blob Bytes) :
  0 <= first_quality o ->
  0 <= default 500 (maxSizeKB o) ->
  too_large o b = true ->
  0.1 <= second_quality o b
  /\ (0.1 <= first_quality o -> second_quality o b <= first_quality o)
  /\ (first_quality o < 0.1 -> second_quality o b == 0.1).
Proof.
  unfold second_quality, too_large, Math_max.
  set (q := first_quality o). set (m := default 500 (maxSizeKB o)).
  intros Hq Hm Hlarge. apply gtb_true in Hlarge.
  set (c := of_N (blob_size b) / 1024) in *.
  assert (Hc : 0 < c) by lra.
  assert (Hratio : 0 <= m / c /\ m / c <= 1).
  { split; [apply Qle_shift_div_l; lra | apply Qle_shift_div_r; lra]. }
  destruct Hratio as [Hr0 Hr1].
  assert (Hprod : q * (m / c) <= q) by nra.
  split; [apply Q.le_max_l|]. split.
  - intros Hlo. apply Q.max_lub; lra.
  - intros Hlo. apply Q.max_l. lra.
Qed.

(** X9. The encodings of a call of [compressImage], with a quality and a
    target size that are not negative.  There is none exactly when the
    image does not load.  The first encoding is at the quality of the
    call, of the image as loaded.  There is a second one exactly when the
    first gave a blob larger than the target size, and it is at
    [Math.max(0.1, quality * (maxSizeKB / compressedSizeKB))] for that
    blob: a quality of at least 0.1, not higher than the first when the
    first is at least 0.1, and 0.1, higher than the first, when the first
    is below 0.1.  What the trace shows of each encoding is what the
    encoder answered.  There is no third encoding. *)
Theorem compressImage_encoding_qualities f o (w : World) :
  0 <= first_quality o ->
  0 <= default 500 (maxSizeKB o) ->
  match encodes (trace (snd (compressImage f o (start w)))) with
  | [] => fst (img_load f w) = None
  | [EvToBlob c type q1 r1] =>
    q1 = default 0.8 (quality o)
    /\ (exists d w1,
          img_load f w = (Some d, w1)
          /\ fst (canvas_toBlob c type q1 w1) = r1)
    /\ match r1 with
       | Some b =>
         gtb (of_N (blob_size b) / 1024) (default 500 (maxSizeKB o)) = false
       | None => True
       end
  | [EvToBlob c type q1 (Some b); EvToBlob c' type' q2 r2] =>
    q1 = default 0.8 (quality o)
    /\ (exists d w1 w2,
          img_load f w = (Some d, w1)
          /\ canvas_toBlob c type q1 w1 = (Some b, w2)
          /\ fst (canvas_toBlob c' type' q2 w2) = r2)
    /\ gtb (of_N (blob_size b) / 1024) (default 500 (maxSizeKB o)) = true
    /\ q2 = Math_max 0.1
                     (q1 * (default 500 (maxSizeKB o)
                            / (of_N (blob_size b) / 1024)))
    /\ 0.1 <= q2
    /\ (0.1 <= q1 -> q2 <= q1)
    /\ (q1 < 0.1 -> q2 == 0.1)
  | _ => False
  end.
Proof.
  intros Hq Hm.
  destruct (compressImage_run f o w) as (evs & r & w' & Hcall & Hrun).
  rewrite Hrun. cbn [fst snd trace].
  inversion Hcall as [w1 Hload
                     |iw ih w1 w2 Hload Hfirst
                     |iw ih w1 b w2 Hload Hfirst Hsmall
                     |iw ih w1 b w2 w3 Hload Hfirst Hlarge Hsecond
                     |iw ih w1 b w2 b' w3 Hload Hfirst Hlarge Hsecond];
    subst; cbn [encodes filter is_toBlob app].
  - now rewrite Hload.
  - split; [reflexivity|]. split; [|exact I].
    exists (iw, ih), w1. split; [exact Hload|]. now rewrite Hfirst.
  - split; [reflexivity|]. split; [|exact Hsmall].
    exists (iw, ih), w1. split; [exact Hload|]. now rewrite Hfirst.
  - split; [reflexivity|]. split.
    { exists (iw, ih), w1, w2. split; [exact Hload|].
      split; [exact Hfirst|]. now rewrite Hsecond. }
    split; [exact Hlarge|]. split; [reflexivity|].
    exact (@second_quality_bounds o b Hq Hm Hlarge).
  - split; [reflexivity|]. split.
    { exists (iw, ih), w1, w2. split; [exact Hload|].
      split; [exact Hfirst|]. now rewrite Hsecond. }
    split; [exact Hlarge|]. split; [reflexivity|].
    exact (@second_quality_bounds o b Hq Hm Hlarge).
Qed.

(** *** The result of [smartCompress] *)

Lemma call_run_result_of_file f o w evs res w' :
  call_run f o w evs (Resolved res) w' ->
  originalSize res = file_size f /\ file_name (file res) = file_name f.
Proof. inversion 1; subst; now split. Qed.

Lemma loop_run_result f t attempt quality w evs res w' :
  loop_run f t attempt quality w evs (Returned res) w' ->
  within_tolerance res t = true
  /\ originalSize res = file_size f
  /\ file_name (file res) = file_name f.
Proof.
  intros H. remember (Returned res) as exit eqn:Hexit.
  induction H as [| attempt quality w evs result w' Hlt Hcall Htol
                  | attempt quality w evs r w1 evs' exit w' Hlt Hcall Hretry
                      Hloop IH].
  - discriminate.
  - injection Hexit as ->. split; [assumption|].
    exact (call_run_result_of_file Hcall).
  - auto.
Qed.

(** X10. Every run of [smartCompress] resolves with a result for the
    file it was given (same [originalSize], same file name) that is of one
    of three kinds: a result within the target size times 1.1; or, after
    [maxAttempts] attempts that all failed or missed the target, the
    result of the call at quality 0.1, which is not tested against the
    target; or, when that call fails too, the original file. *)
Theorem smartCompress_result_kinds f t (w : World) :
  exists res st',
    smartCompress f t (start w) = (Resolved res, st')
    /\ originalSize res = file_size f
    /\ file_name (file res) = file_name f
    /\ (within_tolerance res t = true
        \/ (List.length (calls (trace st')) = S maxAttempts
            /\ Forall (call_retried t) (firstn maxAttempts (calls (trace st')))
            /\ (last (calls (trace st')) (EvLoad f None)
                = EvCompress f fallback_options (Resolved res)
                \/ (res = original_file_result f
                    /\ exists e,
                        last (calls (trace st')) (EvLoad f None)
                        = EvCompress f fallback_options (Rejected e))))).
Proof.
  destruct (smartCompress_runs img_load canvas_toBlob Date_now f t (start w))
    as (evs & exit & w1 & Hloop & Hrun).
  destruct exit as [res|attempt quality].
  - destruct (loop_run_result Hloop) as (Htol & Hsize & Hname).
    eexists _, _. split; [exact Hrun|]. auto.
  - destruct Hrun as (evs' & r & w2 & Hcall & Hrun).
    destruct (loop_run_calls Hloop) as [_ (Ha & Hlen & Hall)]; [lia|].
    rewrite Nat.sub_0_r in Hlen.
    assert (Hcalls : calls (trace {| world := w2;
                                     trace := trace (start w) ++ evs ++ evs'
                                              ++ [EvCompress f fallback_options
                                                             r] |})
                     = calls evs ++ [EvCompress f fallback_options r]).
    { cbn [trace start app].
      now rewrite !calls_app, (call_run_no_calls Hcall). }
    eexists _, _. split; [exact Hrun|].
    assert (Hfile : originalSize (after_loop f r) = file_size f
                    /\ file_name (file (after_loop f r)) = file_name f).
    { destruct r as [res|e|]; cbn [after_loop];
        [exact (call_run_result_of_file Hcall) | now split | now split]. }
    destruct Hfile as [Hsize Hname].
    split; [exact Hsize|]. split; [exact Hname|]. right.
    rewrite Hcalls. split; [|split].
    + rewrite length_app, Hlen. cbn. lia.
    + rewrite <- Hlen, firstn_app, Nat.sub_diag, firstn_all. cbn.
      now rewrite app_nil_r.
    + rewrite last_last. destruct r as [res|e|].
      * now left.
      * right. split; [reflexivity|]. now exists e.
      * now apply call_run_settled in Hcall.
Qed.

(** *** The qualities of the attempts *)

Lemma call_qualities_app (l l' : list (Event Bytes)) :
  call_qualities (l ++ l') = call_qualities l ++ call_qualities l'.
Proof.
  induction l as [|e l IH]; [reflexivity|].
  destruct e; cbn; now rewrite ?IH.
Qed.

Lemma call_run_no_call_qualities f o w evs r w' :
  call_run f o w evs r w' -> call_qualities evs = [].
Proof. destruct 1; reflexivity. Qed.

Lemma loop_run_call_qualities f t attempt quality w evs exit w' :
  loop_run f t attempt quality w evs exit w' ->
  call_qualities evs
  = map (fun k => Some (Nat.iter k reduce_quality quality))
        (seq 0 (List.length (calls evs))).
Proof.
  induction 1 as [attempt quality w Hlt
                 |attempt quality w evs result w' Hlt Hcall Htol
                 |attempt quality w evs r w1 evs' exit w' Hlt Hcall Hretry
                    Hloop IH].
  - reflexivity.
  - rewrite call_qualities_app, calls_app, (call_run_no_calls Hcall),
      (call_run_no_call_qualities Hcall).
    reflexivity.
  - rewrite !call_qualities_app, !calls_app, (call_run_no_calls Hcall),
      (call_run_no_call_qualities Hcall), IH.
    cbn [app call_qualities calls filter is_compress List.length seq map
             Compression.quality attempt_options Nat.iter nat_rect].
    f_equal. rewrite <- seq_shift, map_map.
    apply map_ext. intros k. f_equal.
    symmetry. apply Nat.iter_succ_r.
Qed.

Lemma attempt_quality_closed_form (k : nat) :
  (k < maxAttempts)%nat ->
  attempt_quality k == 0.9 * 0.7 ^ Z.of_nat k /\ 0.1 < attempt_quality k.
Proof.
  unfold maxAttempts. intros Hk.
  do 5 (destruct k as [|k]; [split; [reflexivity | reflexivity]|]).
  lia.
Qed.

(** X11. The attempts of the loop of [smartCompress] are called with the
    qualities 0.9, 0.9 * 0.7, 0.9 * 0.7^2, ... in this order, whatever the
    browser answers: within the [maxAttempts] attempts the reduction never
    reaches its floor of 0.1, so the call at quality 0.1 after the loop is
    the only one at that quality. *)
Theorem smartCompress_attempt_qualities f t (w : World) :
  (exists n,
      (n <= maxAttempts)%nat
      /\ (call_qualities (trace (snd (smartCompress f t (start w))))
          = map (fun k => Some (attempt_quality k)) (seq 0 n)
          \/ call_qualities (trace (snd (smartCompress f t (start w))))
             = map (fun k => Some (attempt_quality k)) (seq 0 maxAttempts)
               ++ [Some 0.1]))
  /\ forall k, (k < maxAttempts)%nat ->
               attempt_quality k == 0.9 * 0.7 ^ Z.of_nat k
               /\ 0.1 < attempt_quality k.
Proof.
  split; [|exact attempt_quality_closed_form].
  destruct (smartCompress_runs img_load canvas_toBlob Date_now f t (start w))
    as (evs & exit & w1 & Hloop & Hrun).
  pose proof (loop_run_call_qualities Hloop) as Hq.
  destruct (loop_run_calls Hloop) as [Hlen Hexit]; [lia|].
  rewrite Nat.sub_0_r in Hlen.
  destruct exit as [res|attempt quality].
  - exists (List.length (calls evs)). split; [exact Hlen|]. left.
    rewrite Hrun. exact Hq.
  - destruct Hrun as (evs' & r & w2 & Hcall & Hrun).
    destruct Hexit as (_ & Hn & _). rewrite Nat.sub_0_r in Hn.
    exists maxAttempts. split; [lia|]. right.
    rewrite Hrun. cbn [snd trace start app].
    rewrite !call_qualities_app, (call_run_no_call_qualities Hcall), Hq, Hn.
    reflexivity.
Qed.

End CompressionMore.

(** *** More runs in concrete browsers *)

Section CompressionMoreRuns.

Import Compression Examples.
Local Open Scope Q_scope.

Lemma getRecommendedOptions_monotone_witness :
  exists q1 q2 m1 m2,
    getRecommendedOptions (photo 3145728) = preset q1 m1
    /\ getRecommendedOptions (photo 6291456) = preset q2 m2
    /\ q2 <= q1 /\ m2 <= m1
    /\ 0.6 <= q2 /\ q1 <= 0.9 /\ 300 <= m2 /\ m1 <= 600.
Proof.
  apply (@getRecommendedOptions_monotone unit (photo 3145728)
           (photo 6291456)).
  cbn. lia.
Defined.

Lemma resize_clamps_longer_side_large_photo :
  exists res,
    fst run_recommended = Resolved res
    /\ width res = Math_min 1920 (of_N 4000)
    /\ width res <= 1920
    /\ width res <= of_N 4000.
Proof.
  destruct (fst run_recommended) as [res| |] eqn:Hres;
    [|vm_compute in Hres; discriminate..].
  exists res. split; [reflexivity|].
  exact (@resize_clamps_longer_side unit nat (load_as 4000 3000)
           (encoder_linear 409600) clock (photo 5242880)
           (getRecommendedOptions (photo 5242880)) 0%nat 1%nat 4000%N 3000%N
           res eq_refl Hres).
Defined.

Lemma resize_scales_other_side_large_photo :
  exists res,
    fst run_recommended = Resolved res
    /\ height res = width res / (of_N 4000 / of_N 3000)
    /\ 1080 < height res.
Proof.
  assert (Hvalue : exists res,
             fst run_recommended = Resolved res /\ 1080 < height res)
    by (eexists; split; vm_compute; reflexivity).
  destruct Hvalue as (res & Hres & Habove).
  exists res. split; [exact Hres|]. split; [|exact Habove].
  exact (@resize_scales_other_side unit nat (load_as 4000 3000)
           (encoder_linear 409600) clock (photo 5242880)
           (getRecommendedOptions (photo 5242880)) 0%nat 1%nat 4000%N 3000%N
           res eq_refl Hres).
Defined.

Lemma compressImage_result_is_last_blob_witness :
  exists res (b : Blob unit),
    fst run_recommended = Resolved res
    /\ file_size (file res) = blob_size b
    /\ file_name (file res) = "photo.jpg"%string
    /\ originalSize res = 5242880%N.
Proof.
  destruct (fst run_recommended) as [res| |] eqn:Hres;
    [|vm_compute in Hres; discriminate..].
  destruct (@compressImage_result_is_last_blob unit nat (load_as 4000 3000)
              (encoder_linear 409600) clock (photo 5242880)
              (getRecommendedOptions (photo 5242880)) 0%nat res Hres)
    as (evs & c & q & b & _ & _ & Hsize & Hname & _ & Horig & _).
  exists res, b. repeat split; assumption.
Defined.

Lemma compressImage_encoding_qualities_witness :
  exists c b c' q2 r2,
    encodes (trace (snd run_two_encodings))
    = [EvToBlob c "image/jpeg" 0.7 (Some b);
       EvToBlob c' "image/jpeg" q2 r2]
    /\ blob_size b = 716800%N
    /\ 0.1 <= q2
    /\ q2 <= 0.7
    /\ q2 == Math_max 0.1 (0.7 * (400 / 700)).
Proof.
  pose (o := getRecommendedOptions (photo 5242880)).
  assert (H1 : 0 <= first_quality o) by (vm_compute; discriminate).
  assert (H2 : 0 <= default 500 (maxSizeKB o)) by (vm_compute; discriminate).
  destruct (@compressImage_encoding_qualities unit nat (load_as 4000 3000)
              (encoder_linear 1024000) clock (photo 5242880) o 0%nat H1 H2)
    as (_ & _ & _ & _ & Hlo & Hle & _).
  eexists _, _, _, _, _. split; [reflexivity|].
  split; [reflexivity|]. split; [exact Hlo|].
  split; [apply Hle; vm_compute; discriminate|].
  vm_compute. reflexivity.
Defined.

End CompressionMoreRuns.

(** ** The exceptions of the canvas *)

Section CanvasErrorsFacts.

Import Compression.
Local Open Scope Q_scope.

Context {Bytes World : Type}.
Variable img_load : File Bytes -> World -> option (N * N) * World.
Variable canvas_draw : Canvas Bytes -> World -> Response unit * World.
Variable canvas_toBlob :
  Canvas Bytes -> string -> Q -> World
  -> Response (option (Blob Bytes)) * World.
Variable Date_now : World -> N.

Local Abbreviation compressImage :=
  (CanvasErrors.compressImage img_load canvas_draw canvas_toBlob Date_now).

(** X8. How a call of [compressImage] ends, by what the browser answers.
    It rejects in four ways only: with 'Failed to load image' when the
    image does not load (nothing is drawn or encoded); with what the
    canvas threw, unchanged, when drawing or the first call of [toBlob]
    throws; with 'Failed to compress image' when the first encoding gives
    no blob; with 'Failed to further compress image' when the first blob
    is above the target size and the second encoding gives no blob.  It
    resolves with the result made of the first blob when that is within
    the target size, and of the second blob otherwise.  The one way to
    stay pending is a second call of [toBlob] that throws. *)
Theorem compressImage_rejections f o (w : World) :
  exists loaded w1,
    img_load f w = (loaded, w1)
    /\ match loaded with
       | None =>
         compressImage f o w = (Rejected (JsError "Failed to load image"), w1)
       | Some (iw, ih) =>
         exists drawn w2,
           canvas_draw (canvas_of o f iw ih) w1 = (drawn, w2)
           /\ match drawn with
              | Throws e => compressImage f o w = (Rejected e, w2)
              | Ok _ =>
                exists first w3,
                  canvas_toBlob (canvas_of o f iw ih) (type_of o)
                                (first_quality o) w2
                  = (first, w3)
                  /\ match first with
                     | Throws e => compressImage f o w = (Rejected e, w3)
                     | Ok None =>
                       compressImage f o w
                       = (Rejected (JsError "Failed to compress image"), w3)
                     | Ok (Some b) =>
                       if too_large o b then
                         exists second w4,
                           canvas_toBlob (canvas_of o f iw ih) (type_of o)
                                         (second_quality o b) w3
                           = (second, w4)
                           /\ compressImage f o w
                              = (match second with
                                 | Throws _ => Pending
                                 | Ok None =>
                                   Rejected
                                     (JsError
                                        "Failed to further compress image")
                                 | Ok (Some b') =>
                                   Resolved
                                     (result_from o f (canvas_of o f iw ih)
                                                  b' (Date_now w4))
                                 end, w4)
                       else
                         compressImage f o w
                         = (Resolved
                              (result_from o f (canvas_of o f iw ih) b
                                           (Date_now w3)), w3)
                     end
              end
       end.
Proof.
  unfold CanvasErrors.compressImage, bind, CanvasErrors.load,
    CanvasErrors.caught, CanvasErrors.uncaught, CanvasErrors.result_of, reject.
  destruct (img_load f w) as [[[iw ih]|] w1] eqn:Hload.
  2:{ exists None, w1. split; reflexivity. }
  exists (Some (iw, ih)), w1. split; [reflexivity|].
  unfold canvas_of, result_from, too_large, second_quality, first_quality,
    type_of.
  destruct (new_dimensions (default 1920 (maxWidth o))
                           (default 1080 (maxHeight o)) (of_N iw) (of_N ih))
    as [width height].
  cbn [canvas_width canvas_height].
  destruct (canvas_draw _ w1) as [[[]|e] w2] eqn:Hdraw.
  2:{ exists (Throws e), w2. split; reflexivity. }
  exists (Ok tt), w2. split; [reflexivity|].
  destruct (canvas_toBlob _ _ _ w2) as [[[b|]|e] w3] eqn:Hfirst.
  3:{ exists (Throws e), w3. split; reflexivity. }
  2:{ exists (Ok None), w3. split; reflexivity. }
  exists (Ok (Some b)), w3. split; [reflexivity|].
  destruct (gtb (of_N (blob_size b) / 1024) (default 500 (maxSizeKB o)));
    [|reflexivity].
  destruct (canvas_toBlob _ _ _ w3) as [[[b'|]|e] w4] eqn:Hsecond.
  - exists (Ok (Some b')), w4. split; reflexivity.
  - exists (Ok None), w4. split; reflexivity.
  - exists (Throws e), w4. split; reflexivity.
Qed.

(** With a canvas that does not throw, this is the [compressImage] of the
    rest of the development: same outcome, same world. *)
Lemma compressImage_never_throws toBlob f o (w : World) :
  CanvasErrors.never_throws canvas_draw canvas_toBlob toBlob ->
  compressImage f o w
  = (fst (Compression.compressImage img_load toBlob Date_now f o (start w)),
     world (snd (Compression.compressImage img_load toBlob Date_now f o
                                           (start w)))).
Proof.
  intros [Hdraw HtoBlob].
  unfold CanvasErrors.compressImage, Compression.compressImage,
    Compression.compressImage_run, bind, CanvasErrors.load, Compression.load,
    CanvasErrors.caught, CanvasErrors.uncaught, Compression.toBlob,
    CanvasErrors.result_of, Compression.result_of, Compression.now, resolve,
    reject, record, start.
  cbn [world trace].
  cbv zeta.
  destruct (img_load f w) as [[[iw ih]|] w1]; [|reflexivity].
  destruct (new_dimensions _ _ _ _) as [width height].
  rewrite Hdraw, HtoBlob. cbn [fst snd world trace].
  destruct (toBlob _ _ _ w1) as [[b|] w2]; cbn [fst snd world trace];
    [|reflexivity].
  destruct (gtb _ _); [|reflexivity].
  rewrite HtoBlob. cbn [fst snd world trace].
  destruct (toBlob _ _ _ w2) as [[b'|] w3]; reflexivity.
Qed.

End CanvasErrorsFacts.

Section CanvasErrorsRuns.

Import Compression Examples.

(** A photo on a canvas whose [toBlob] throws: the call rejects with what
    was thrown, which is none of the three messages of [compressImage]. *)
Example compressImage_tainted_canvas :
  fst run_tainted_canvas = Rejected (JsError "The operation is insecure.").
Proof. reflexivity. Qed.

End CanvasErrorsRuns.

(** ** Migration *)

Section MigrationFacts.

Import Migration.
Set Implicit Arguments.
Local Open Scope nat_scope.

Context {World Firestore : Type}.
Variable db : option Firestore.
Variable getDocs : Firestore -> World -> Response (list Product) * World.
Variable uploadFromUrl : string -> string -> World -> Response string * World.
Variable updateDoc :
  Firestore -> string -> UpdateData -> World -> Response unit * World.
Variable Date_toISOString : World -> string.

Local Abbreviation migrateProductToCloudinary :=
  (Migration.migrateProductToCloudinary db uploadFromUrl updateDoc
                                        Date_toISOString).
Local Abbreviation migrate_one :=
  (Migration.migrate_one db uploadFromUrl updateDoc Date_toISOString).
Local Abbreviation migrate_loop :=
  (Migration.migrate_loop db uploadFromUrl updateDoc Date_toISOString).
Local Abbreviation migrateAllToCloudinary :=
  (Migration.migrateAllToCloudinary db getDocs uploadFromUrl updateDoc
                                    Date_toISOString).
Local Abbreviation replay := (@Migration.replay Firestore db).
Local Abbreviation answered :=
  (@Migration.answered World Firestore uploadFromUrl updateDoc).
Local Abbreviation State := (St World).

Lemma processed_app (l l' : list Event) :
  processed (l ++ l') = processed l ++ processed l'.
Proof.
  induction l as [|e l IH]; [reflexivity|].
  destruct e; cbn; now rewrite ?IH.
Qed.

(** The migration of one product settles, and leaves the list of the
    processed products as it was. *)
Lemma migrateProductToCloudinary_settles (p : Product) (st : State) :
  exists r st',
    migrateProductToCloudinary p st = (r, st')
    /\ r <> Pending
    /\ processed (trace st') = processed (trace st).
Proof.
  unfold Migration.migrateProductToCloudinary.
  destruct (firebaseUrl_of p) as [url|].
  2:{ eexists _, _. repeat split. discriminate. }
  unfold try_catch, bind, upload, update, date, resolve, reject, record.
  destruct (uploadFromUrl url "products" (world st)) as [[cloudinaryUrl|e] w1];
    cbn [settle world trace].
  2:{ eexists _, _. split; [reflexivity|]. split; [discriminate|].
      cbn [trace]. rewrite processed_app. cbn. now rewrite app_nil_r. }
  destruct db as [d|]; cbn [world trace].
  - match goal with
    | |- context [updateDoc d (id p) ?data w1] =>
      destruct (updateDoc d (id p) data w1) as [[[]|e] w2]
    end; cbn [settle world trace];
      (eexists _, _; split; [reflexivity|]; split; [discriminate|]);
      cbn [trace]; rewrite !processed_app; cbn; now rewrite !app_nil_r.
  - eexists _, _. split; [reflexivity|]. split; [discriminate|].
    cbn [trace]. rewrite processed_app. cbn. now rewrite app_nil_r.
Qed.

Lemma counts_resolved p url l :
  succeeded ((p, Resolved url) :: l) = S (succeeded l)
  /\ failures ((p, Resolved url) :: l) = failures l.
Proof. now split. Qed.

Lemma counts_rejected p e l :
  succeeded ((p, Rejected e) :: l) = succeeded l
  /\ failures ((p, Rejected e) :: l) = S (failures l).
Proof. now split. Qed.

Lemma error_entries_app l l' :
  error_entries (l ++ l') = error_entries l ++ error_entries l'.
Proof. apply flat_map_app. Qed.

(** The loop processes every product of its list, in order, whatever the
    outcome of the products before, and counts each outcome. *)
Lemma migrate_loop_run (ps : list Product) :
  forall (results : Results) (st : State),
  exists results' st' outcomes,
    migrate_loop ps results st = (Resolved results', st')
    /\ processed (trace st') = processed (trace st) ++ outcomes
    /\ map fst outcomes = ps
    /\ total results' = total results
    /\ skipped results' = skipped results
    /\ migrated results' = migrated results + succeeded outcomes
    /\ failed results' = failed results + failures outcomes
    /\ errors results' = errors results ++ error_entries outcomes
    /\ succeeded outcomes + failures outcomes = List.length ps.
Proof.
  induction ps as [|p ps IH]; intros results st.
  - exists results, st, []. cbn. rewrite !app_nil_r, !Nat.add_0_r.
    repeat split.
  - cbn [Migration.migrate_loop]. unfold bind, Migration.migrate_one.
    destruct (migrateProductToCloudinary_settles p st)
      as (r & st1 & Hrun & Hsettled & Hproc).
    rewrite Hrun.
    destruct r as [url|e|]; [| |contradiction].
    + match goal with
      | |- context [migrate_loop ps ?res ?s] =>
        destruct (IH res s)
          as (results' & st' & outs & Hloop & Hp & Hmap & Ht & Hs & Hm & Hf
              & He & Hcount)
      end.
      cbn [total skipped migrated failed errors] in *.
      exists results', st', ((p, Resolved url) :: outs).
      split; [exact Hloop|].
      unfold record in Hp. cbn [trace] in Hp.
      rewrite processed_app, Hproc in Hp. cbn in Hp.
      rewrite <- app_assoc in Hp. cbn in Hp.
      destruct (counts_resolved p url outs) as [Hsucc Hfail].
      repeat split; try assumption; try (cbn [List.length]; lia).
      cbn. now rewrite Hmap.
    + match goal with
      | |- context [migrate_loop ps ?res ?s] =>
        destruct (IH res s)
          as (results' & st' & outs & Hloop & Hp & Hmap & Ht & Hs & Hm & Hf
              & He & Hcount)
      end.
      cbn [total skipped migrated failed errors] in *.
      exists results', st', ((p, Rejected e) :: outs).
      split; [exact Hloop|].
      unfold record in Hp. cbn [trace] in Hp.
      rewrite processed_app, Hproc in Hp. cbn in Hp.
      rewrite <- app_assoc in Hp. cbn in Hp.
      destruct (counts_rejected p e outs) as [Hsucc Hfail].
      repeat split; try assumption; try (cbn [List.length]; lia).
      * cbn. now rewrite Hmap.
      * rewrite He, <- app_assoc. reflexivity.
Qed.

Lemma error_entries_length l :
  List.length (error_entries l) = failures l.
Proof.
  induction l as [|[p [url|e|]] l IH]; [reflexivity|exact IH| |exact IH].
  change (error_entries ((p, Rejected e) :: l))
    with ((name p, message_of e) :: error_entries l).
  cbn [List.length]. rewrite IH. symmetry. apply counts_rejected.
Qed.

(** The run of the whole batch when the store is there and answers. *)
Lemma migrateAll_run (d : Firestore) (products : list Product)
      (w w1 : World) :
  db = Some d ->
  getDocs d w = (Ok products, w1) ->
  exists results st',
    migrateAllToCloudinary (start w) = (Resolved results, st')
    /\ map fst (processed (trace st')) = filter needs_migration products
    /\ total results = List.length products
    /\ migrated results = succeeded (processed (trace st'))
    /\ failed results = failures (processed (trace st'))
    /\ errors results = error_entries (processed (trace st'))
    /\ migrated results + failed results
       = List.length (filter needs_migration products)
    /\ skipped results
       = if (List.length (filter needs_migration products) =? 0)
         then 0
         else List.length products
              - List.length (filter needs_migration products).
Proof.
  intros Hdb Hdocs.
  unfold Migration.migrateAllToCloudinary.
  rewrite Hdb. cbv beta iota. rewrite <- Hdb.
  unfold try_catch, bind, fetch_products. cbn [world trace start]. rewrite Hdocs. cbn [settle].
  destruct (List.length (filter needs_migration products) =? 0) eqn:Hempty.
  - apply Nat.eqb_eq in Hempty. pose proof Hempty as Hnil.
    apply length_zero_iff_nil in Hnil. rewrite Hnil.
    eexists _, _. split; [reflexivity|]. cbn. repeat split.
  - match goal with
    | |- context [migrate_loop ?ps ?res ?s] =>
      destruct (migrate_loop_run ps res s)
        as (results' & st' & outs & Hloop & Hp & Hmap & Ht & Hs & Hm & Hf
            & He & Hcount)
    end.
    rewrite Hloop. unfold resolve.
    cbn [trace processed app total skipped migrated failed errors] in *.
    eexists _, _. split; [reflexivity|].
    cbn [trace total skipped migrated failed errors].
    rewrite Hp. repeat split; try assumption; lia.
Qed.

(** *** The outcomes, read from what the platform answered *)

Lemma platform_app (tr tr' : list Event) :
  platform (tr ++ tr') = (platform tr ++ platform tr')%list.
Proof. apply filter_app. Qed.

(** The migration of one product adds the operations of this product to
    the trace, with the answers of the platform, and ends as [replay]
    reads from them. *)
Lemma migrateProductToCloudinary_replay (p : Product) (st : State) :
  exists r st' evs,
    migrateProductToCloudinary p st = (r, st')
    /\ trace st' = (trace st ++ evs)%list
    /\ platform evs = evs
    /\ processed evs = []
    /\ Forall answered evs
    /\ forall ps tr,
        replay (p :: ps) (evs ++ tr)%list
        = option_map (cons (p, r)) (replay ps tr).
Proof.
  unfold Migration.migrateProductToCloudinary.
  destruct (firebaseUrl_of p) as [url|] eqn:Hurl.
  2:{ exists (Resolved None), st, []. rewrite app_nil_r.
      repeat split; [constructor|].
      intros ps tr. cbn [Migration.replay app]. now rewrite Hurl. }
  unfold try_catch, bind, upload, update, date, resolve, reject, record.
  destruct (uploadFromUrl url "products"%string (world st)) as [[u|e] w1] eqn:Hup;
    cbn [settle world trace].
  2:{ eexists _, _, [_]. split; [reflexivity|]. repeat split.
      - constructor; [|constructor]. exists (world st). now rewrite Hup.
      - intros ps tr. cbn [Migration.replay app].
        now rewrite Hurl, !String.eqb_refl. }
  assert (Hdb : db = None \/ exists d, db = Some d) by (destruct db; eauto).
  destruct Hdb as [Hdb|[d Hdb]]; rewrite Hdb; cbn [world trace].
  - eexists _, _, [_]. split; [reflexivity|]. repeat split.
    + constructor; [|constructor]. exists (world st). now rewrite Hup.
    + intros ps tr. cbn [Migration.replay app].
      now rewrite Hurl, !String.eqb_refl, ?Hdb.
  - match goal with
    | |- context [updateDoc d (id p) ?data w1] =>
      destruct (updateDoc d (id p) data w1) as [[[]|e] w2] eqn:Hwrite
    end; cbn [settle world trace];
      (eexists _, _, [_; _]; split; [reflexivity|]);
      (split; [now rewrite <- app_assoc|]); repeat split;
      try (constructor; [exists (world st); now rewrite Hup|];
           constructor; [|constructor]; exists d, w1; now rewrite Hwrite);
      intros ps tr; cbn [Migration.replay app new_image_url];
      now rewrite Hurl, !String.eqb_refl, ?Hdb.
Qed.

(** The loop, read from what the platform answered. *)
Lemma migrate_loop_replay (ps : list Product) :
  forall (results : Results) (st : State),
  exists results' st' evs,
    migrate_loop ps results st = (Resolved results', st')
    /\ trace st' = (trace st ++ evs)%list
    /\ replay ps (platform evs) = Some (processed evs)
    /\ Forall answered evs.
Proof.
  induction ps as [|p ps IH]; intros results st.
  - exists results, st, []. rewrite app_nil_r. repeat split. constructor.
  - cbn [Migration.migrate_loop]. unfold bind, Migration.migrate_one.
    destruct (migrateProductToCloudinary_replay p st)
      as (r & st1 & evs1 & Hrun & Htrace & Hplatform & Hnone & Hanswered
          & Hreplay).
    destruct (migrateProductToCloudinary_settles p st)
      as (r' & st1' & Hrun' & Hsettled & _).
    rewrite Hrun in Hrun'. injection Hrun' as <- <-. rewrite Hrun.
    destruct r as [url|e|]; [| |contradiction];
      match goal with
      | |- context [Migration.migrate_loop _ _ _ _ ps ?res ?s] =>
        destruct (IH res s) as (results' & st' & evs2 & Hloop & Htrace2
                                & Hreplay2 & Hanswered2)
      end;
      exists results', st'; eexists (evs1 ++ [EvMigrate p _] ++ evs2)%list;
      (split; [exact Hloop|]);
      (split; [rewrite Htrace2; unfold record; cbn [trace];
               now rewrite Htrace, <- !app_assoc|]);
      (split;
       [rewrite !platform_app, Hplatform, Hreplay, !processed_app, Hnone;
        cbn [platform filter is_platform app processed];
        fold (platform evs2); now rewrite Hreplay2|]);
      repeat (apply Forall_app; split); try assumption;
      now repeat constructor.
Qed.

(** The whole batch, read from what the platform answered. *)
Lemma migrateAll_replay (d : Firestore) (products : list Product)
      (w w1 : World) :
  db = Some d ->
  getDocs d w = (Ok products, w1) ->
  exists results st',
    migrateAllToCloudinary (start w) = (Resolved results, st')
    /\ replay (filter needs_migration products) (platform (trace st'))
       = Some (processed (trace st'))
    /\ Forall answered (trace st').
Proof.
  intros Hdb Hdocs.
  unfold Migration.migrateAllToCloudinary.
  rewrite Hdb. cbv beta iota. rewrite <- Hdb.
  unfold try_catch, bind, fetch_products.
  cbn [world trace start]. rewrite Hdocs. cbn [settle].
  destruct (List.length (filter needs_migration products) =? 0) eqn:Hempty.
  - apply Nat.eqb_eq, length_zero_iff_nil in Hempty. rewrite Hempty.
    eexists _, _. split; [reflexivity|]. cbn. split; [reflexivity|constructor].
  - match goal with
    | |- context [Migration.migrate_loop _ _ _ _ ?ps ?res ?s] =>
      destruct (migrate_loop_replay ps res s)
        as (results' & st' & evs & Hloop & Htrace & Hreplay & Hanswered)
    end.
    rewrite Hloop. eexists _, _. split; [reflexivity|].
    cbn [trace] in Htrace. cbn [app] in Htrace. rewrite Htrace.
    now split.
Qed.

(** A product that [replay] reads as rejected is a product of the list,
    and what it is rejected with was thrown by the upload of its URL or by
    the write of its document. *)
Lemma replay_rejected (ps : list Product) :
  forall tr outcomes,
    replay ps tr = Some outcomes ->
    forall p e,
      In (p, Rejected e) outcomes ->
      In p ps
      /\ exists url,
          firebaseUrl_of p = Some url
          /\ (In (EvUpload url "products"%string (Throws e)) tr
              \/ exists data, In (EvUpdateDoc (id p) data (Throws e)) tr).
Proof.
  induction ps as [|q ps IH]; intros tr outcomes Hreplay p e Hin.
  - cbn in Hreplay. destruct tr; [|discriminate].
    injection Hreplay as <-. contradiction.
  - cbn [Migration.replay] in Hreplay.
    assert (Hstep : forall tr' r,
               option_map (cons (q, r)) (replay ps tr') = Some outcomes ->
               (forall x, In x tr' -> In x tr) ->
               (r = Rejected e -> p = q ->
                exists url,
                  firebaseUrl_of p = Some url
                  /\ (In (EvUpload url "products"%string (Throws e)) tr
                      \/ exists data,
                          In (EvUpdateDoc (id p) data (Throws e)) tr)) ->
               In p (q :: ps)
               /\ exists url,
                   firebaseUrl_of p = Some url
                   /\ (In (EvUpload url "products"%string (Throws e)) tr
                       \/ exists data,
                           In (EvUpdateDoc (id p) data (Throws e)) tr)).
    { intros tr' r Hmap Hsub Hhere.
      destruct (replay ps tr') as [outs|] eqn:Hrest; [|discriminate].
      injection Hmap as <-. destruct Hin as [Heq|Hin].
      - injection Heq as Hq Hr. split; [left; exact Hq|].
        apply Hhere; [exact Hr | now symmetry].
      - destruct (IH _ _ Hrest _ _ Hin) as (Hp & url & Hurl & Hev).
        split; [now right|]. exists url. split; [exact Hurl|].
        destruct Hev as [Hev|[data Hev]]; [left | right; exists data];
          now apply Hsub. }
    destruct (firebaseUrl_of q) as [url|] eqn:Hurl.
    2:{ apply (Hstep tr (Resolved None) Hreplay); [auto | discriminate]. }
    destruct tr as [|[url' folder [u|e']| |] tr]; try discriminate.
    + destruct (String.eqb url' url && String.eqb folder "products") eqn:Hsame;
        [|discriminate].
      apply andb_true_iff in Hsame as [Hu Hf].
      apply String.eqb_eq in Hu, Hf. subst url' folder.
      assert (Hdb : db = None \/ exists d, db = Some d)
        by (destruct db; eauto).
      destruct Hdb as [Hdb|[d Hdb]]; rewrite Hdb in Hreplay;
        cbv beta iota in Hreplay; rewrite <- Hdb in Hreplay.
      * apply (Hstep tr (Resolved (Some u)) Hreplay);
          [intros x Hx; now right | discriminate].
      * destruct tr as [|[| i data r |] tr]; try discriminate.
        destruct (String.eqb i (id q) && String.eqb (new_image_url data) u)
          eqn:Hid; [|discriminate].
        apply andb_true_iff in Hid as [Hi _].
        apply String.eqb_eq in Hi. subst i.
        apply (Hstep tr _ Hreplay); [intros x Hx; now right; right|].
        intros Hr ->. exists url. split; [exact Hurl|].
        right. exists data. destruct r as [[]|e'']; [discriminate|].
        injection Hr as ->. right. now left.
    + destruct (String.eqb url' url && String.eqb folder "products") eqn:Hsame;
        [|discriminate].
      apply andb_true_iff in Hsame as [Hu Hf].
      apply String.eqb_eq in Hu, Hf. subst url' folder.
      apply (Hstep tr _ Hreplay); [intros x Hx; now right|].
      intros [= ->] ->. exists url. split; [exact Hurl|]. left. now left.
Qed.

(** C6. In every run of [migrateAllToCloudinary] that gets the products
    from the store, a failure of one product does not end the batch.  The
    run resolves.  The operations asked from the platform are those of the
    products to migrate, one product after the other, whatever happened to
    the products before: each has its URL uploaded, and its document
    written when the upload gave a URL.  How each product is recorded to
    have ended is what these answers say: rejected with what its upload or
    its write threw, resolved otherwise.  [migrated] and [failed] count
    the products that resolved and rejected; every failure is in [errors],
    under the name of its product with its message, in order; and the
    summary has the [total] and, for a batch with something to migrate,
    the number of [skipped] products. *)
Theorem migrateAll_continues_after_failure (d : Firestore)
        (products : list Product) (w w1 : World) :
  db = Some d ->
  getDocs d w = (Ok products, w1) ->
  exists results st',
    migrateAllToCloudinary (start w) = (Resolved results, st')
    /\ replay (filter needs_migration products) (platform (trace st'))
       = Some (processed (trace st'))
    /\ Forall answered (trace st')
    /\ map fst (processed (trace st')) = filter needs_migration products
    /\ migrated results = succeeded (processed (trace st'))
    /\ failed results = failures (processed (trace st'))
    /\ errors results = error_entries (processed (trace st'))
    /\ total results = List.length products
    /\ (filter needs_migration products <> [] ->
        skipped results
        = List.length products
          - List.length (filter needs_migration products)).
Proof.
  intros Hdb Hdocs.
  destruct (migrateAll_run Hdb Hdocs)
    as (results & st' & Hrun & Hproc & Ht & Hm & Hf & He & _ & Hs).
  destruct (migrateAll_replay Hdb Hdocs)
    as (results' & st'' & Hrun' & Hreplay & Hanswered).
  rewrite Hrun in Hrun'. injection Hrun' as <- <-.
  exists results, st'. repeat split; try assumption.
  intros Hsome. rewrite Hs.
  destruct (filter needs_migration products); [contradiction | reflexivity].
Qed.

(** X3. In every run that gets the products from the store there is one
    error for each failed product; and when there is something to migrate,
    so that the run goes through the loop, the counters add up:
    [migrated + skipped + failed = total]. *)
Theorem migrateAll_counters (d : Firestore) (products : list Product)
      (w w1 : World) :
  db = Some d ->
  getDocs d w = (Ok products, w1) ->
  exists results st',
    migrateAllToCloudinary (start w) = (Resolved results, st')
    /\ List.length (errors results) = failed results
    /\ (filter needs_migration products <> [] ->
        migrated results + skipped results + failed results
        = total results).
Proof.
  intros Hdb Hdocs.
  destruct (migrateAll_run Hdb Hdocs)
    as (results & st' & Hrun & Hproc & Ht & Hm & Hf & He & Hsum & Hs).
  exists results, st'. split; [assumption|]. split.
  - now rewrite He, Hf, error_entries_length.
  - intros Hsome. rewrite Hs, Ht.
    pose proof (filter_length_le needs_migration products).
    destruct (filter needs_migration products); [contradiction|].
    cbn [List.length Nat.eqb] in *. lia.
Qed.

End MigrationFacts.

(** *** Runs on concrete stores *)

Section MigrationRuns.

Import Migration Stores.
Local Open Scope nat_scope.
Local Open Scope string_scope.

Lemma migrateAll_continues_after_failure_witness :
  exists st',
    run_second_fails
    = (Resolved {| total := 3; migrated := 2; skipped := 0; failed := 1;
                   errors := [("Necklace",
                               "Cloudinary fetch upload failed")] |},
       st')
    /\ replay (Some tt) [ring; necklace; bracelet] (platform (trace st'))
       = Some (processed (trace st'))
    /\ map fst (processed (trace st')) = [ring; necklace; bracelet].
Proof.
  destruct (@migrateAll_continues_after_failure nat unit (Some tt)
              (getDocs_of [ring; necklace; bracelet])
              (upload_unless (image_url necklace)) updateDoc_ok iso_date
              tt [ring; necklace; bracelet] 0 1 eq_refl eq_refl)
    as (results & st' & Hrun & Hreplay & _ & Hproc & _).
  assert (Hvalue : exists st0,
             run_second_fails
             = (Resolved {| total := 3; migrated := 2; skipped := 0;
                            failed := 1;
                            errors := [("Necklace",
                                        "Cloudinary fetch upload failed")] |},
                st0))
    by (eexists; vm_compute; reflexivity).
  destruct Hvalue as [st0 Hvalue].
  assert (Hst : st0 = st').
  { unfold run_second_fails in Hvalue. rewrite Hrun in Hvalue.
    now injection Hvalue. }
  subst st0. exists st'. repeat split; assumption.
Defined.

Lemma migrateAll_counters_witness :
  exists results st',
    run_second_fails = (Resolved results, st')
    /\ List.length (errors results) = failed results
    /\ migrated results + skipped results + failed results = total results.
Proof.
  destruct (@migrateAll_counters nat unit (Some tt)
              (getDocs_of [ring; necklace; bracelet])
              (upload_unless (image_url necklace)) updateDoc_ok iso_date
              tt [ring; necklace; bracelet] 0 1 eq_refl eq_refl)
    as (results & st' & Hrun & Herr & Hsum).
  exists results, st'. repeat split; try assumption.
  apply Hsum. discriminate.
Defined.

(** The batch scenario: three products, the second one fails.  Two are
    migrated, one failed, and the third one is processed after the
    failure. *)
Example migrateAll_three_products_second_fails :
  fst run_second_fails
  = Resolved {| total := 3; migrated := 2; skipped := 0; failed := 1;
                errors := [("Necklace", "Cloudinary fetch upload failed")] |}
  /\ map (fun pr => (name (fst pr), is_resolved (snd pr)))
         (processed (trace (snd run_second_fails)))
     = [("Ring", true); ("Necklace", false); ("Bracelet", true)].
Proof. split; vm_compute; reflexivity. Qed.

(** C10, on the code as it is.  With one product, on Cloudinary already,
    the run returns before the loop, with [skipped] still 0: the summary
    has [total] 1 while [migrated], [skipped] and [failed] are all 0. *)
Theorem migrateAll_early_return_miscounts :
  fst run_nothing_to_migrate
  = Resolved {| total := 1; migrated := 0; skipped := 0; failed := 0;
                errors := [] |}
  /\ forall results,
      fst run_nothing_to_migrate = Resolved results ->
      migrated results + skipped results + failed results <> total results.
Proof.
  split; [reflexivity|].
  intros results H. vm_compute in H. injection H as <-. cbn. discriminate.
Qed.

End MigrationRuns.

(** ** More on the migration *)

Section MigrationMore.

Import Migration.
Set Implicit Arguments.
Local Open Scope nat_scope.
Local Open Scope string_scope.

Context {World Firestore : Type}.
Variable db : option Firestore.
Variable getDocs : Firestore -> World -> Response (list Product) * World.
Variable uploadFromUrl : string -> string -> World -> Response string * World.
Variable updateDoc :
  Firestore -> string -> UpdateData -> World -> Response unit * World.
Variable Date_toISOString : World -> string.

Local Abbreviation migrateProductToCloudinary :=
  (Migration.migrateProductToCloudinary db uploadFromUrl updateDoc
                                        Date_toISOString).
Local Abbreviation migrateAllToCloudinary :=
  (Migration.migrateAllToCloudinary db getDocs uploadFromUrl updateDoc
                                    Date_toISOString).
Local Abbreviation testCloudinaryMigration :=
  (Migration.testCloudinaryMigration db getDocs uploadFromUrl updateDoc
                                     Date_toISOString).
Local Abbreviation checkMigrationStatus :=
  (@Migration.checkMigrationStatus World Firestore db getDocs).
Local Abbreviation State := (St World).

(** *** One product *)

(** The URL that is migrated is a Firebase Storage URL, and it is either
    the [old_firebase_url] of the product or, when that is none, its
    [image_url]. *)
Lemma firebaseUrl_of_cases (p : Product) (url : string) :
  firebaseUrl_of p = Some url ->
  Urls.isFirebaseStorageUrl url = true
  /\ (old_firebase_url p = Some url
      \/ (image_url p = url /\ differs url (old_firebase_url p) = true)).
Proof.
  unfold firebaseUrl_of.
  destruct (is_firebase_field (old_firebase_url p)) eqn:Hold.
  - intros Hurl. rewrite Hurl in Hold. cbn in Hold.
    apply andb_true_iff in Hold as [_ Hfb]. split; [assumption|now left].
  - destruct (is_firebase_field (Some (image_url p))) eqn:Himg;
      [|discriminate].
    intros Hurl. injection Hurl as <-.
    pose proof Himg as Hfb. cbn in Hfb.
    apply andb_true_iff in Hfb as [_ Hfb]. split; [assumption|].
    right. split; [reflexivity|].
    destruct (old_firebase_url p) as [s|]; [|reflexivity].
    cbn. apply negb_true_iff. apply String.eqb_neq. intros Heq.
    rewrite <- Heq in Hold. congruence.
Qed.

(** What a migration of one product does, by what the network and the
    store answer. *)
Lemma migrateProductToCloudinary_run (p : Product) (w : World) :
  match firebaseUrl_of p with
  | None => migrateProductToCloudinary p (start w) = (Resolved None, start w)
  | Some url =>
    match uploadFromUrl url "products" w with
    | (Throws e, w1) =>
      migrateProductToCloudinary p (start w)
      = (Rejected e,
         {| world := w1; trace := [EvUpload url "products" (Throws e)] |})
    | (Ok u, w1) =>
      match db with
      | None =>
        migrateProductToCloudinary p (start w)
        = (Resolved (Some u),
           {| world := w1; trace := [EvUpload url "products" (Ok u)] |})
      | Some d =>
        exists data r w2,
        updateDoc d (id p) data w1 = (r, w2)
        /\ new_image_url data = u
        /\ new_old_firebase_url data
           = (if String.eqb url (image_url p)
                 && differs url (old_firebase_url p)
              then Some url else None)
        /\ migrateProductToCloudinary p (start w)
           = (match r with
              | Ok _ => Resolved (Some u)
              | Throws e => Rejected e
              end,
              {| world := w2;
                 trace := [EvUpload url "products" (Ok u);
                           EvUpdateDoc (id p) data r] |})
      end
    end
  end.
Proof.
  unfold Migration.migrateProductToCloudinary.
  destruct (firebaseUrl_of p) as [url|]; [|reflexivity].
  unfold try_catch, bind, upload, update, date, resolve, reject, record.
  cbn [world trace start].
  destruct (uploadFromUrl url "products" w) as [[u|e] w1];
    cbn [settle world trace app]; [|reflexivity].
  destruct db as [d|]; [|reflexivity].
  cbn [world trace app].
  match goal with
  | |- context [updateDoc d (id p) ?data w1] =>
    exists data; destruct (updateDoc d (id p) data w1) as [[[]|e] w2] eqn:Hup
  end; eexists _, _; cbn [settle world trace app];
    (split; [reflexivity|]); repeat split.
Qed.

(** X12. A migration of one product ends in one of four ways.  It
    resolves with null, touching nothing, exactly when the product has no
    Firebase Storage URL.  It resolves with the URL the upload returned,
    after writing the product when the store is there.  It rejects with
    the error of the upload, in which case nothing is written; or it
    rejects with the error of the write, in which case the image has been
    uploaded already. *)
Theorem migrateProductToCloudinary_outcomes (p : Product) (w : World) :
  match fst (migrateProductToCloudinary p (start w)) with
  | Resolved None =>
    firebaseUrl_of p = None
    /\ snd (migrateProductToCloudinary p (start w)) = start w
  | Resolved (Some u) =>
    exists url, firebaseUrl_of p = Some url
    /\ match db with
       | None =>
         trace (snd (migrateProductToCloudinary p (start w)))
         = [EvUpload url "products" (Ok u)]
       | Some _ =>
         exists data,
         trace (snd (migrateProductToCloudinary p (start w)))
         = [EvUpload url "products" (Ok u);
            EvUpdateDoc (id p) data (Ok tt)]
       end
  | Rejected e =>
    exists url, firebaseUrl_of p = Some url
    /\ (trace (snd (migrateProductToCloudinary p (start w)))
        = [EvUpload url "products" (Throws e)]
        \/ exists u data,
            trace (snd (migrateProductToCloudinary p (start w)))
            = [EvUpload url "products" (Ok u);
               EvUpdateDoc (id p) data (Throws e)])
  | Pending => False
  end.
Proof.
  pose proof (migrateProductToCloudinary_run p w) as Hrun.
  destruct (firebaseUrl_of p) as [url|].
  2:{ rewrite Hrun. now split. }
  destruct (uploadFromUrl url "products" w) as [[u|e] w1].
  2:{ rewrite Hrun. exists url. split; [reflexivity|now left]. }
  destruct db as [d|].
  2:{ rewrite Hrun. exists url. now split. }
  destruct Hrun as (data & r & w2 & Hup & _ & _ & Hrun).
  rewrite Hrun. cbn [fst snd trace].
  destruct r as [[]|e].
  - exists url. split; [reflexivity|]. now exists data.
  - exists url. split; [reflexivity|]. right. now exists u, data.
Qed.

(** X13. Whenever a migration writes a product, it writes the product it
    was given, after a successful upload of its Firebase Storage URL, with
    the URL the upload returned as the new [image_url]; and the Firebase
    Storage URL is not lost: either the write puts it into
    [old_firebase_url], or it is there already and the write leaves that
    field out. *)
Theorem migrateProductToCloudinary_keeps_firebase_url
        (p : Product) (w : World) i data r :
  In (EvUpdateDoc i data r)
     (trace (snd (migrateProductToCloudinary p (start w)))) ->
  i = id p
  /\ exists url u,
      firebaseUrl_of p = Some url
      /\ Urls.isFirebaseStorageUrl url = true
      /\ trace (snd (migrateProductToCloudinary p (start w)))
         = [EvUpload url "products" (Ok u); EvUpdateDoc i data r]
      /\ new_image_url data = u
      /\ (new_old_firebase_url data = Some url
          \/ (new_old_firebase_url data = None
              /\ old_firebase_url p = Some url)).
Proof.
  pose proof (migrateProductToCloudinary_run p w) as Hrun.
  destruct (firebaseUrl_of p) as [url|] eqn:Hurl.
  2:{ rewrite Hrun. cbn. contradiction. }
  destruct (uploadFromUrl url "products" w) as [[u|e] w1].
  2:{ rewrite Hrun. cbn. intros [H|[]]. discriminate. }
  destruct db as [d|].
  2:{ rewrite Hrun. cbn. intros [H|[]]. discriminate. }
  destruct Hrun as (data' & r' & w2 & Hup & Himg & Hold & Hrun).
  rewrite Hrun. cbn [fst snd trace].
  intros [H|[H|[]]]; [discriminate|]. injection H as <- <- <-.
  split; [reflexivity|]. exists url, u.
  destruct (firebaseUrl_of_cases p Hurl) as [Hfb Hcases].
  repeat split; try assumption.
  rewrite Hold. destruct Hcases as [Hfield | [Himage Hdiff]].
  - right. split; [|assumption].
    rewrite Hfield. cbn. rewrite String.eqb_refl. cbn.
    now rewrite andb_false_r.
  - left. now rewrite Himage, String.eqb_refl, Hdiff.
Qed.

(** *** The status report *)

Lemma needs_migration_spec (p : Product) :
  needs_migration p
  = hasFirebaseUrl p && negb (Urls.includes (image_url p) "cloudinary.com").
Proof. reflexivity. Qed.

Lemma count_products (products : list Product) :
  forall s : Status,
    let s' := fold_left count_product products s in
    totalProducts s' = totalProducts s + List.length products
    /\ cloudinaryProducts s'
       = cloudinaryProducts s
         + List.length
             (filter (fun p => Urls.isCloudinaryUrl (image_url p)) products)
    /\ firebaseProducts s'
       = firebaseProducts s + List.length (filter needs_migration products)
    /\ otherProducts s'
       = otherProducts s
         + List.length
             (filter (fun p => negb (Urls.isCloudinaryUrl (image_url p))
                               && negb (hasFirebaseUrl p)) products).
Proof.
  induction products as [|p products IH]; intros s; cbn zeta.
  - cbn. repeat split; lia.
  - cbn [fold_left filter]. specialize (IH (count_product s p)).
    cbn zeta in IH. destruct IH as (Ht & Hc & Hf & Ho).
    rewrite Ht, Hc, Hf, Ho, needs_migration_spec.
    unfold count_product, Urls.isCloudinaryUrl.
    destruct (Urls.includes (image_url p) "cloudinary.com");
      destruct (hasFirebaseUrl p);
      cbn [totalProducts cloudinaryProducts firebaseProducts otherProducts
           negb andb List.length];
      repeat split; lia.
Qed.

(** X14. When the store answers, [checkMigrationStatus] counts every
    product once: the Cloudinary, Firebase and other counters add up to the
    total, which is the number of products.  The Firebase counter, printed
    as the number of products that still need migration, is the number of
    products [migrateAllToCloudinary] selects for migration from the same
    list. *)
Theorem checkMigrationStatus_counts (d : Firestore)
        (products : list Product) (w w1 : World) :
  db = Some d ->
  getDocs d w = (Ok products, w1) ->
  exists s,
    fst (checkMigrationStatus (start w)) = Resolved s
    /\ totalProducts s = List.length products
    /\ cloudinaryProducts s + firebaseProducts s + otherProducts s
       = totalProducts s
    /\ firebaseProducts s = List.length (filter needs_migration products)
    /\ firebaseProducts s
       = List.length
           (processed (trace (snd (migrateAllToCloudinary (start w))))).
Proof.
  intros Hdb Hdocs.
  destruct (@migrateAll_run World Firestore db getDocs uploadFromUrl
              updateDoc Date_toISOString d products w w1 Hdb Hdocs)
    as (results & st' & Hrun & Hproc & _).
  rewrite Hrun. cbn [snd].
  rewrite <- (length_map fst (processed (trace st'))), Hproc.
  unfold Migration.checkMigrationStatus. rewrite Hdb.
  unfold try_catch, bind, fetch_products, resolve.
  cbn [world trace start]. rewrite Hdocs. cbn [settle fst].
  eexists. split; [reflexivity|].
  destruct (count_products products
              {| totalProducts := 0; cloudinaryProducts := 0;
                 firebaseProducts := 0; otherProducts := 0 |})
    as (Ht & Hc & Hf & Ho).
  cbn [totalProducts cloudinaryProducts firebaseProducts otherProducts
       Nat.add] in *.
  repeat split; try assumption.
  rewrite Ht, Hc, Hf, Ho. clear.
  induction products as [|p products IH]; [reflexivity|].
  cbn [filter List.length]. rewrite needs_migration_spec.
  change (Urls.includes (image_url p) "cloudinary.com")
    with (Urls.isCloudinaryUrl (image_url p)).
  destruct (Urls.isCloudinaryUrl (image_url p));
    destruct (hasFirebaseUrl p); cbn [negb andb List.length]; lia.
Qed.

(** *** The test with one product *)

Lemma keep_first_find (products : list Product) :
  fold_left keep_first products None = find hasFirebaseUrl products.
Proof.
  assert (Hkept : forall l p, fold_left keep_first l (Some p) = Some p)
    by (induction l; [reflexivity | assumption]).
  induction products as [|p products IH]; [reflexivity|].
  cbn [fold_left find keep_first].
  destruct (hasFirebaseUrl p); [apply Hkept | exact IH].
Qed.

(** The trace of [testCloudinaryMigration] is that of the migration of
    the product it picks. *)
Lemma testCloudinaryMigration_trace (d : Firestore)
      (products : list Product) (p : Product) (w w1 : World) :
  db = Some d ->
  getDocs d w = (Ok products, w1) ->
  find hasFirebaseUrl products = Some p ->
  snd (testCloudinaryMigration (start w))
  = snd (migrateProductToCloudinary p (start w1)).
Proof.
  intros Hdb Hdocs Hfind.
  unfold Migration.testCloudinaryMigration. rewrite Hdb.
  cbv beta iota. rewrite <- Hdb.
  unfold try_catch, bind, fetch_products, resolve, reject.
  cbn [world trace start]. rewrite Hdocs. cbn [settle].
  rewrite keep_first_find, Hfind.
  change {| world := w1; trace := [] |} with (@start World w1).
  now destruct (migrateProductToCloudinary p (start w1)) as [[r|e|] st'].
Qed.

(** X15. When the store answers, [testCloudinaryMigration] migrates one
    product, the first one of the list that has a Firebase Storage URL,
    and ends as that migration ends: it rejects with the same error when
    the migration rejects.  When no product has such a URL it resolves
    without any upload or write. *)
Theorem testCloudinaryMigration_first_product (d : Firestore)
        (products : list Product) (w w1 : World) :
  db = Some d ->
  getDocs d w = (Ok products, w1) ->
  match find hasFirebaseUrl products with
  | None =>
    testCloudinaryMigration (start w) = (Resolved tt, start w1)
  | Some p =>
    exists before after,
    products = (before ++ p :: after)%list
    /\ forallb (fun p' => negb (hasFirebaseUrl p')) before = true
    /\ snd (testCloudinaryMigration (start w))
       = snd (migrateProductToCloudinary p (start w1))
    /\ fst (testCloudinaryMigration (start w))
       = match fst (migrateProductToCloudinary p (start w1)) with
         | Resolved _ => Resolved tt
         | Rejected e => Rejected e
         | Pending => Pending
         end
  end.
Proof.
  intros Hdb Hdocs.
  unfold Migration.testCloudinaryMigration. rewrite Hdb.
  cbv beta iota. rewrite <- Hdb.
  unfold try_catch, bind, fetch_products, resolve, reject.
  cbn [world trace start]. rewrite Hdocs. cbn [settle].
  rewrite keep_first_find.
  destruct (find hasFirebaseUrl products) as [p|] eqn:Hfind; [|reflexivity].
  assert (Hsplit : exists before after,
             products = (before ++ p :: after)%list
             /\ forallb (fun p' => negb (hasFirebaseUrl p')) before = true).
  { clear -Hfind. induction products as [|q products IH]; [discriminate|].
    cbn in Hfind. destruct (hasFirebaseUrl q) eqn:Hq.
    - injection Hfind as ->. now exists [], products.
    - destruct (IH Hfind) as (before & after & -> & Hall).
      exists (q :: before), after. split; [reflexivity|].
      cbn. now rewrite Hq. }
  destruct Hsplit as (before & after & Hproducts & Hall).
  exists before, after. split; [assumption|]. split; [assumption|].
  change {| world := w1; trace := [] |} with (@start World w1).
  destruct (migrateProductToCloudinary p (start w1)) as [[r|e|] st'];
    now split.
Qed.

(** X16. [testCloudinaryMigration] does not look at whether a product is
    on Cloudinary already.  A product whose [image_url] is a Cloudinary
    URL and whose [old_firebase_url] is a Firebase Storage URL, as a
    migrated product is, is not selected by [migrateAllToCloudinary]; but
    when it is the first product with a Firebase Storage URL, the test
    uploads its [old_firebase_url] again. *)
Theorem testCloudinaryMigration_migrates_again (d : Firestore)
        (products : list Product) (p : Product) (url : string)
        (w w1 : World) :
  db = Some d ->
  getDocs d w = (Ok products, w1) ->
  find hasFirebaseUrl products = Some p ->
  Urls.includes (image_url p) "cloudinary.com" = true ->
  old_firebase_url p = Some url ->
  Urls.isFirebaseStorageUrl url = true ->
  needs_migration p = false
  /\ exists r rest,
      trace (snd (testCloudinaryMigration (start w)))
      = EvUpload url "products" r :: rest.
Proof.
  intros Hdb Hdocs Hfind Hcloud Hold Hfb.
  split; [rewrite needs_migration_spec, Hcloud; apply andb_false_r|].
  rewrite (testCloudinaryMigration_trace Hdb Hdocs Hfind).
  assert (Hurl : firebaseUrl_of p = Some url).
  { unfold firebaseUrl_of. rewrite Hold. cbn [is_firebase_field].
    rewrite Hfb. destruct url; [discriminate | reflexivity]. }
  pose proof (migrateProductToCloudinary_run p w1) as Hrun.
  rewrite Hurl in Hrun.
  destruct (uploadFromUrl url "products" w1) as [[u|e] w2].
  - destruct db as [d'|].
    + destruct Hrun as (data & r & w3 & _ & _ & _ & Hrun).
      rewrite Hrun. now eexists _, _.
    + rewrite Hrun. now eexists _, _.
  - rewrite Hrun. now eexists _, _.
Qed.

(** *** Runs that end before anything is migrated *)

(** X17. The three entry points of the migration utility reject with
    "Firebase not initialized", without touching the store, when [db] is
    null; and when listing the products fails they reject with the error
    of the store unchanged, before any upload or write.  (A failure of one
    product, in contrast, does not end [migrateAllToCloudinary].) *)
Theorem migration_entry_points_abort (w : World) :
  (db = None ->
   migrateAllToCloudinary (start w)
   = (Rejected (JsError "❌ Firebase not initialized"), start w)
   /\ testCloudinaryMigration (start w)
      = (Rejected (JsError "❌ Firebase not initialized"), start w)
   /\ checkMigrationStatus (start w)
      = (Rejected (JsError "❌ Firebase not initialized"), start w))
  /\ (forall d e w1,
         db = Some d ->
         getDocs d w = (Throws e, w1) ->
         migrateAllToCloudinary (start w) = (Rejected e, start w1)
         /\ testCloudinaryMigration (start w) = (Rejected e, start w1)
         /\ checkMigrationStatus (start w) = (Rejected e, start w1)).
Proof.
  split.
  - intros Hdb.
    unfold Migration.migrateAllToCloudinary,
      Migration.testCloudinaryMigration, Migration.checkMigrationStatus.
    rewrite Hdb. repeat split.
  - intros d e w1 Hdb Hdocs.
    unfold Migration.migrateAllToCloudinary,
      Migration.testCloudinaryMigration, Migration.checkMigrationStatus.
    rewrite Hdb.
    unfold try_catch, bind, fetch_products, reject.
    cbn [world trace start]. rewrite Hdocs. repeat split.
Qed.

End MigrationMore.

(** *** More runs on concrete stores *)

Section MigrationMoreRuns.

Import Migration Stores.
Local Open Scope nat_scope.
Local Open Scope string_scope.

Lemma migrateProductToCloudinary_keeps_firebase_url_witness :
  exists data,
    In (EvUpdateDoc "p1" data (Ok tt)) (trace (snd (run_one_product ring)))
    /\ new_image_url data
       = "https://res.cloudinary.com/dsgi4fbqu/image/upload/v1/products/migrated.jpg"
    /\ new_old_firebase_url data = Some (image_url ring).
Proof.
  assert (H : exists data,
             In (EvUpdateDoc "p1" data (Ok tt))
                (trace (snd (run_one_product ring)))).
  { eexists. vm_compute. right. left. reflexivity. }
  destruct H as [data H]. exists data. split; [exact H|].
  destruct (@migrateProductToCloudinary_keeps_firebase_url nat unit (Some tt)
              (upload_unless "") updateDoc_ok iso_date ring 0 "p1" data
              (Ok tt) H)
    as (_ & url & u & Hurl & _ & Htrace & Hnew & Hold).
  vm_compute in Hurl. injection Hurl as <-.
  vm_compute in Htrace. injection Htrace as Hu _.
  split.
  - rewrite Hnew. symmetry. exact Hu.
  - destruct Hold as [Hold|[_ Hold]]; [exact Hold | discriminate].
Defined.

Lemma checkMigrationStatus_counts_witness :
  exists s,
    fst (checkMigrationStatus (Some tt)
           (getDocs_of [ring; pendant; migrated_ring]) (start 0))
    = Resolved s
    /\ totalProducts s = 3
    /\ cloudinaryProducts s + firebaseProducts s + otherProducts s
       = totalProducts s.
Proof.
  destruct (@checkMigrationStatus_counts nat unit (Some tt)
              (getDocs_of [ring; pendant; migrated_ring]) (upload_unless "")
              updateDoc_ok iso_date tt [ring; pendant; migrated_ring] 0 1
              eq_refl eq_refl)
    as (s & Hrun & Htotal & Hsum & _).
  exists s. repeat split; assumption.
Defined.

Lemma testCloudinaryMigration_first_product_witness :
  exists before after,
    [pendant; ring; necklace] = (before ++ ring :: after)%list
    /\ forallb (fun p' => negb (hasFirebaseUrl p')) before = true
    /\ snd (testCloudinaryMigration (Some tt)
              (getDocs_of [pendant; ring; necklace]) (upload_unless "")
              updateDoc_ok iso_date (start 0))
       = snd (migrateProductToCloudinary (Some tt) (upload_unless "")
                updateDoc_ok iso_date ring (start 1)).
Proof.
  destruct (@testCloudinaryMigration_first_product nat unit (Some tt)
              (getDocs_of [pendant; ring; necklace]) (upload_unless "")
              updateDoc_ok iso_date tt [pendant; ring; necklace] 0 1
              eq_refl eq_refl)
    as (before & after & Hsplit & Hbefore & Hsnd & _).
  exists before, after. repeat split; assumption.
Defined.

Lemma testCloudinaryMigration_migrates_again_witness :
  needs_migration migrated_ring = false
  /\ exists r rest,
      trace (snd (testCloudinaryMigration (Some tt)
                    (getDocs_of [pendant; migrated_ring]) (upload_unless "")
                    updateDoc_ok iso_date (start 0)))
      = EvUpload (image_url ring) "products" r :: rest.
Proof.
  exact (@testCloudinaryMigration_migrates_again nat unit (Some tt)
           (getDocs_of [pendant; migrated_ring]) (upload_unless "")
           updateDoc_ok iso_date tt [pendant; migrated_ring] migrated_ring
           (image_url ring) 0 1 eq_refl eq_refl eq_refl eq_refl eq_refl
           eq_refl).
Defined.

End MigrationMoreRuns.

(** ** The Cloudinary client *)

Section CloudinaryStrings.

Import Cloudinary.
Local Open Scope string_scope.

(** *** [extractPublicId] *)

Lemma upload_match_eq (url : string) :
  upload_match url
  = match upload_match_here url with
    | Some group => Some group
    | None =>
      match url with
      | EmptyString => None
      | String _ url' => upload_match url'
      end
    end.
Proof. now destruct url. Qed.

Lemma append_assoc (a b c : string) : (a ++ b) ++ c = a ++ (b ++ c).
Proof. induction a as [|x a IH]; cbn; [reflexivity | now rewrite IH]. Qed.

Lemma append_nil_r (a : string) : a ++ "" = a.
Proof. induction a as [|x a IH]; cbn; [reflexivity | now rewrite IH]. Qed.

Lemma all_chars_app (test : ascii -> bool) (a b : string) :
  all_chars test (a ++ b) = all_chars test a && all_chars test b.
Proof.
  induction a as [|x a IH]; cbn; [reflexivity|].
  now rewrite IH, andb_assoc.
Qed.

Lemma prefix_cons (a b : ascii) (p s : string) :
  String.prefix (String a p) (String b s) = Ascii.eqb a b && String.prefix p s.
Proof.
  cbn [String.prefix]. destruct (ascii_dec a b) as [->|Hne].
  - now rewrite Ascii.eqb_refl.
  - apply Ascii.eqb_neq in Hne. now rewrite Hne.
Qed.

Lemma prefix_nil_r (a : ascii) (p : string) :
  String.prefix (String a p) "" = false.
Proof. reflexivity. Qed.

Lemma prefix_nil_l (s : string) : String.prefix "" s = true.
Proof. now destruct s. Qed.

(** An occurrence of ["/upload/"] that starts in [base] and is followed by
    ["/upload/"] is an occurrence of ["/upload"] in [base]. *)
Lemma prefix_upload_overlap (base t : string) :
  base <> "" ->
  String.prefix "/upload" base = false ->
  String.prefix "/upload/" (base ++ "/upload/" ++ t) = false.
Proof.
  intros Hne Hpre.
  destruct base as [|c1 base]; [contradiction|]. clear Hne.
  cbn [append] in *.
  repeat (rewrite ?prefix_cons, ?prefix_nil_l, ?prefix_nil_r in *;
          cbn [andb] in *;
          match goal with
          | |- false = false => reflexivity
          | H : true = false |- _ => discriminate H
          | |- context [Ascii.eqb ?a ?c] =>
            is_var c;
            destruct (Ascii.eqb_spec a c) as [<-|]; cbn [andb] in *;
            [|reflexivity]
          | |- context [Ascii.eqb ?a ?c] =>
            let v := eval vm_compute in (Ascii.eqb a c) in
            change (Ascii.eqb a c) with v in *
          | |- context [String.prefix _ (?s ++ _)] =>
            destruct s; cbn [append] in *
          end).
Qed.

Lemma prefix_true_app (p s : string) :
  String.prefix p s = true -> exists t, s = p ++ t.
Proof.
  revert s. induction p as [|a p IH]; intros s H.
  - now exists s.
  - destruct s as [|b s]; [discriminate|].
    rewrite prefix_cons in H. apply andb_true_iff in H as [Hab Hp].
    apply Ascii.eqb_eq in Hab as ->.
    destruct (IH s Hp) as [t ->]. now exists t.
Qed.

Lemma upload_match_skip (base t : string) :
  Urls.includes base "/upload" = false ->
  upload_match (base ++ "/upload/" ++ t) = upload_match ("/upload/" ++ t).
Proof.
  induction base as [|c base IH]; intros H; [reflexivity|].
  cbn [Urls.includes] in H. apply orb_false_iff in H as [Hpre Hinc].
  rewrite upload_match_eq. unfold upload_match_here.
  rewrite (@prefix_upload_overlap (String c base) t) by easy.
  cbn [append]. exact (IH Hinc).
Qed.

Lemma after_slash_app (version rest : string) :
  all_chars (fun c => negb (is_slash c)) version = true ->
  after_slash (version ++ "/" ++ rest) = Some rest.
Proof.
  induction version as [|c version IH]; intros H; [reflexivity|].
  cbn in H. apply andb_true_iff in H as [Hc Hv].
  cbn [append after_slash]. apply negb_true_iff in Hc. rewrite Hc.
  exact (IH Hv).
Qed.

Lemma after_segment_app (version rest : string) :
  is_segment version = true ->
  after_segment (version ++ "/" ++ rest) = Some rest.
Proof.
  unfold is_segment. intros H.
  destruct version as [|c version]; [discriminate|].
  cbn in H. apply andb_true_iff in H as [Hc Hv].
  cbn [append after_segment]. apply negb_true_iff in Hc. rewrite Hc.
  exact (@after_slash_app version rest Hv).
Qed.

Lemma after_slash_shape (s rest : string) :
  after_slash s = Some rest ->
  exists version,
    s = version ++ "/" ++ rest
    /\ all_chars (fun c => negb (is_slash c)) version = true.
Proof.
  induction s as [|c s IH]; intros H; [discriminate|].
  cbn [after_slash] in H. destruct (is_slash c) eqn:Hc.
  - injection H as ->. exists "". split; [|reflexivity].
    unfold is_slash in Hc. apply Ascii.eqb_eq in Hc as ->. reflexivity.
  - destruct (IH H) as (version & -> & Hv).
    exists (String c version). split; [reflexivity|].
    cbn. now rewrite Hc.
Qed.

Lemma after_segment_shape (s rest : string) :
  after_segment s = Some rest ->
  exists version, s = version ++ "/" ++ rest /\ is_segment version = true.
Proof.
  destruct s as [|c s]; [discriminate|].
  cbn [after_segment]. destruct (is_slash c) eqn:Hc; [discriminate|].
  intros H. destruct (@after_slash_shape s _ H) as (version & -> & Hv).
  exists (String c version). split; [reflexivity|].
  unfold is_segment. cbn. now rewrite Hc.
Qed.

Lemma is_extension_with_dot (a b : string) :
  is_extension (a ++ "." ++ b) = false.
Proof.
  unfold is_extension. rewrite all_chars_app. cbn.
  now rewrite andb_false_r, andb_false_r.
Qed.

Lemma strip_extension_app (id ext : string) :
  is_extension ext = true ->
  strip_extension (id ++ "." ++ ext) = id.
Proof.
  intros Hext. induction id as [|c id IH].
  - cbn. now rewrite Hext.
  - cbn [append strip_extension].
    change (id ++ String "." ext) with (id ++ "." ++ ext).
    rewrite is_extension_with_dot, andb_false_r. now rewrite IH.
Qed.

Lemma nonempty_app_r (a b : string) : nonempty b = true -> nonempty (a ++ b) = true.
Proof. now destruct a. Qed.

(** X18. The public id of a delivery URL.  For a URL made of a base in which
    ["/upload"] does not occur, then ["/upload/"], one segment (the version
    or a transformation), a public id and an extension, [extractPublicId]
    gives the public id, with its folders and its dots. *)
Theorem extractPublicId_canonical (base version id ext : string) :
  Urls.includes base "/upload" = false ->
  is_segment version = true ->
  is_line id = true ->
  is_extension ext = true ->
  is_line ext = true ->
  extractPublicId (base ++ "/upload/" ++ version ++ "/" ++ id ++ "." ++ ext)
  = Some id.
Proof.
  intros Hbase Hversion Hid Hext Hline.
  unfold extractPublicId.
  rewrite upload_match_skip by assumption.
  rewrite upload_match_eq. unfold upload_match_here.
  change (String.prefix "/upload/" ("/upload/" ++ ?t))
    with (String.prefix "" t).
  cbn [append drop]. rewrite prefix_nil_l.
  change (String "/" (?a ++ ?b)) with ("/" ++ a ++ b).
  rewrite after_segment_app by assumption.
  unfold to_end.
  rewrite nonempty_app_r by reflexivity.
  change (all_chars _ ?s) with (is_line s).
  unfold is_line in *. rewrite all_chars_app, Hid. cbn [andb app all_chars append].
  change (all_chars _ ext) with (is_line ext).
  unfold is_line. rewrite Hline. cbn.
  f_equal. now apply strip_extension_app.
Qed.

Lemma strip_extension_prefix (s : string) :
  exists t, s = strip_extension s ++ t.
Proof.
  induction s as [|c s [t IH]].
  - now exists "".
  - cbn [strip_extension]. destruct (is_dot c && is_extension s).
    + now exists (String c s).
    + exists t. cbn [append]. now rewrite <- IH.
Qed.

(** X19. [extractPublicId] gives an id only for a URL in which ["/upload/"]
    is followed by one segment, a slash and at least one more character up
    to the end of the URL; the id is a prefix of what follows that slash,
    and it is empty only when all of it is an extension. *)
Theorem extractPublicId_shape (url id : string) :
  extractPublicId url = Some id ->
  exists before version group rest,
    url = before ++ "/upload/" ++ version ++ "/" ++ group
    /\ is_segment version = true
    /\ nonempty group = true
    /\ is_line group = true
    /\ id = strip_extension group
    /\ group = id ++ rest.
Proof.
  unfold extractPublicId.
  destruct (upload_match url) as [group|] eqn:Hmatch; [|discriminate].
  intros H. injection H as <-.
  induction url as [|c url IH].
  - discriminate.
  - rewrite upload_match_eq in Hmatch.
    destruct (upload_match_here (String c url)) as [g|] eqn:Hhere.
    + injection Hmatch as ->. unfold upload_match_here in Hhere.
      destruct (String.prefix "/upload/" (String c url)) eqn:Hpre;
        [|discriminate].
      destruct (@prefix_true_app _ _ Hpre) as [t Ht]. rewrite Ht in Hhere |- *.
      cbn [append drop] in Hhere.
      destruct (after_segment t) as [r|] eqn:Hseg; [|discriminate].
      destruct (@after_segment_shape t _ Hseg) as (version & -> & Hv).
      unfold to_end in Hhere.
      destruct (nonempty r && all_chars _ r) eqn:Hr; [|discriminate].
      injection Hhere as ->. apply andb_true_iff in Hr as [Hne Hline].
      destruct (@strip_extension_prefix group) as [rest Hrest].
      exists "", version, group, rest. now repeat split.
    + destruct (IH Hmatch)
        as (before & version & g & rest & -> & Hv & Hne & Hline & Hrest).
      exists (String c before), version, g, rest. now repeat split.
Qed.

Lemma upload_match_no_slash (s : string) :
  all_chars (fun c => negb (is_slash c)) s = true -> upload_match s = None.
Proof.
  induction s as [|c s IH]; intros H; [reflexivity|].
  cbn in H. apply andb_true_iff in H as [Hc Hs].
  rewrite upload_match_eq. unfold upload_match_here.
  rewrite prefix_cons. unfold is_slash in Hc. apply negb_true_iff in Hc.
  rewrite Ascii.eqb_sym, Hc. cbn [andb]. exact (IH Hs).
Qed.

(** X20. A URL with nothing between ["/upload/"] and the name of the image,
    neither version nor transformation nor folder, has no public id for
    [extractPublicId]: the result is null. *)
Theorem extractPublicId_unversioned (base name : string) :
  Urls.includes base "/upload" = false ->
  all_chars (fun c => negb (is_slash c)) name = true ->
  extractPublicId (base ++ "/upload/" ++ name) = None.
Proof.
  intros Hbase Hname. unfold extractPublicId.
  rewrite upload_match_skip by assumption.
  assert (Hseg : after_segment name = None).
  { destruct name as [|c name]; [reflexivity|].
    cbn in Hname. apply andb_true_iff in Hname as [Hc Hn].
    cbn [after_segment]. apply negb_true_iff in Hc. rewrite Hc.
    clear Hc. induction name as [|d name IH]; [reflexivity|].
    cbn in Hn. apply andb_true_iff in Hn as [Hd Hn].
    cbn [after_slash]. apply negb_true_iff in Hd. rewrite Hd. exact (IH Hn). }
  rewrite upload_match_eq. unfold upload_match_here.
  change (String.prefix "/upload/" ("/upload/" ++ ?t))
    with (String.prefix "" t).
  cbn [append drop]. rewrite prefix_nil_l, Hseg.
  do 7 (rewrite upload_match_eq; unfold upload_match_here;
        rewrite prefix_cons;
        match goal with
        | |- context [Ascii.eqb ?a ?c] =>
          let v := eval vm_compute in (Ascii.eqb a c) in
          change (Ascii.eqb a c) with v
        end; cbn [andb]).
  assert (Hpre : String.prefix "upload/" name = false).
  { destruct (String.prefix "upload/" name) eqn:Hpre; [|reflexivity].
    destruct (@prefix_true_app _ _ Hpre) as [t ->].
    rewrite all_chars_app in Hname. discriminate Hname. }
  rewrite Hpre, (@upload_match_no_slash name Hname). reflexivity.
Qed.

(** *** The file name of the proxy method *)

Lemma last_element_no_slash (cur s : string) :
  all_chars (fun c => negb (is_slash c)) s = true ->
  last_element cur s = cur ++ s.
Proof.
  revert cur. induction s as [|c s IH]; intros cur H.
  - cbn. now rewrite append_nil_r.
  - cbn in H. apply andb_true_iff in H as [Hc Hs].
    cbn [last_element]. apply negb_true_iff in Hc. rewrite Hc.
    rewrite (IH _ Hs), append_assoc. reflexivity.
Qed.

Lemma last_element_after_slash (cur dir name : string) :
  last_element cur (dir ++ "/" ++ name) = last_element "" name.
Proof.
  revert cur. induction dir as [|c dir IH]; intros cur.
  - reflexivity.
  - cbn [append last_element]. destruct (is_slash c); apply IH.
Qed.

(** X21. The file that goes through the proxy is named after the last
    element of the path of the URL: what follows the last slash, with any
    query string; and ["image.jpg"] when the URL ends with a slash.  The
    name is never empty and has no slash. *)
Theorem filename_of_last_element (dir name : string) :
  all_chars (fun c => negb (is_slash c)) name = true ->
  filename_of (dir ++ "/" ++ name)
  = (if truthy name then name else "image.jpg")
  /\ is_segment (filename_of (dir ++ "/" ++ name)) = true.
Proof.
  intros Hname.
  assert (H : filename_of (dir ++ "/" ++ name)
              = if truthy name then name else "image.jpg").
  { unfold filename_of.
    rewrite last_element_after_slash, last_element_no_slash by assumption.
    reflexivity. }
  split; [exact H|]. rewrite H.
  destruct name as [|c name]; [reflexivity|].
  cbn [truthy String.eqb negb]. unfold is_segment. now rewrite Hname.
Qed.

(** *** The hexadecimal form of a digest *)

Lemma concat_cons (x : string) (xs : list string) :
  String.concat "" (x :: xs) = x ++ String.concat "" xs.
Proof.
  destruct xs as [|y xs]; [|reflexivity].
  cbn. now rewrite append_nil_r.
Qed.

Lemma hex_of_bytes_cons (b : Byte.byte) (bs : list Byte.byte) :
  exists c1 c2,
    hex_of_bytes (b :: bs) = String c1 (String c2 (hex_of_bytes bs))
    /\ forall b' c1' c2',
        padStart 2 "0" (toString16 (Byte.to_N b'))
        = String c1' (String c2' "") ->
        c1' = c1 -> c2' = c2 -> b' = b.
Proof.
  unfold hex_of_bytes. cbn [map]. rewrite concat_cons.
  pose (value := fun c : ascii =>
                   match c with
                   | "0" => 0 | "1" => 1 | "2" => 2 | "3" => 3
                   | "4" => 4 | "5" => 5 | "6" => 6 | "7" => 7
                   | "8" => 8 | "9" => 9 | "a" => 10 | "b" => 11
                   | "c" => 12 | "d" => 13 | "e" => 14 | _ => 15
                   end%char%N).
  pose (read := fun s : string =>
                  match s with
                  | String c1 (String c2 _) =>
                    Byte.of_N (16 * value c1 + value c2)
                  | _ => None
                  end).
  assert (Hread : forall x,
             read (padStart 2 "0" (toString16 (Byte.to_N x))) = Some x)
    by (intros x; destruct x; vm_compute; reflexivity).
  pose proof (Hread b) as Hb.
  destruct (padStart 2 "0" (toString16 (Byte.to_N b))) as [|c1 [|c2 rest]]
    eqn:Hhex; try discriminate Hb.
  assert (Hrest : rest = "").
  { clear - Hhex. destruct b; vm_compute in Hhex; now injection Hhex. }
  subst rest. exists c1, c2. split; [reflexivity|].
  intros b' c1' c2' Hhex' -> ->.
  pose proof (Hread b') as Hb'. rewrite Hhex' in Hb'. congruence.
Qed.

Lemma hex_of_bytes_length (bs : list Byte.byte) :
  (String.length (hex_of_bytes bs) = 2 * List.length bs)%nat.
Proof.
  induction bs as [|b bs IH]; [reflexivity|].
  destruct (@hex_of_bytes_cons b bs) as (c1 & c2 & -> & _).
  cbn [String.length List.length]. rewrite IH. lia.
Qed.

Lemma hex_of_bytes_injective (bs bs' : list Byte.byte) :
  hex_of_bytes bs = hex_of_bytes bs' -> bs = bs'.
Proof.
  revert bs'. induction bs as [|b bs IH]; intros [|b' bs'] H.
  - reflexivity.
  - apply (f_equal String.length) in H.
    rewrite !hex_of_bytes_length in H. cbn in H. lia.
  - apply (f_equal String.length) in H.
    rewrite !hex_of_bytes_length in H. cbn in H. lia.
  - destruct (@hex_of_bytes_cons b bs) as (c1 & c2 & Hb & Hinv).
    destruct (@hex_of_bytes_cons b' bs') as (c1' & c2' & Hb' & _).
    rewrite Hb, Hb' in H. injection H as H1 H2 H3.
    f_equal; [|exact (IH _ H3)].
    symmetry. apply (Hinv b' c1' c2'); [|congruence..].
    clear - Hb'. unfold hex_of_bytes in Hb'. cbn [map] in Hb'.
    rewrite concat_cons in Hb'.
    destruct (@hex_of_bytes_cons b' nil) as (d1 & d2 & Hnil & _).
    unfold hex_of_bytes in Hnil. cbn [map String.concat] in Hnil.
    rewrite Hnil in Hb' |- *. cbn [append] in Hb'.
    now injection Hb' as -> ->.
Qed.

(** *** The parameters of a signature *)

Lemma leb_trans (a b c : string) :
  String.leb a b = true -> String.leb b c = true -> String.leb a c = true.
Proof.
  unfold String.leb. intros Hab Hbc.
  destruct (String.compare a b) eqn:Eab; try discriminate.
  - apply String.compare_eq_iff in Eab as ->. exact Hbc.
  - destruct (String.compare b c) eqn:Ebc; try discriminate.
    + apply String.compare_eq_iff in Ebc as <-. now rewrite Eab.
    + apply OrderedTypeEx.String_as_OT.cmp_lt in Eab, Ebc.
      pose proof (OrderedTypeEx.String_as_OT.lt_trans _ _ _ Eab Ebc) as Hac.
      apply OrderedTypeEx.String_as_OT.cmp_lt in Hac.
      unfold OrderedTypeEx.String_as_OT.cmp in Hac. now rewrite Hac.
Qed.

Lemma insert_sorted_comm (a b : string) (l : list string) :
  insert_sorted a (insert_sorted b l) = insert_sorted b (insert_sorted a l).
Proof.
  induction l as [|x l IH]; cbn [insert_sorted].
  - destruct (String.leb a b) eqn:Hab, (String.leb b a) eqn:Hba;
      try reflexivity.
    + now rewrite (String.leb_antisym _ _ Hab Hba).
    + destruct (String.leb_total a b); congruence.
  - destruct (String.leb a x) eqn:Hax, (String.leb b x) eqn:Hbx;
      cbn [insert_sorted]; rewrite ?Hax, ?Hbx.
    + destruct (String.leb a b) eqn:Hab, (String.leb b a) eqn:Hba;
        try reflexivity.
      * now rewrite (String.leb_antisym _ _ Hab Hba).
      * destruct (String.leb_total a b); congruence.
    + destruct (String.leb b a) eqn:Hba; [|reflexivity].
      rewrite (@leb_trans _ _ _ Hba Hax) in Hbx. discriminate.
    + destruct (String.leb a b) eqn:Hab; [|reflexivity].
      rewrite (@leb_trans _ _ _ Hab Hbx) in Hax. discriminate.
    + now rewrite IH.
Qed.

Lemma sort_permutation (l l' : list string) :
  Permutation l l' -> sort l = sort l'.
Proof.
  induction 1 as [|x l l' _ IH|x y l|l l' l'' _ IH1 _ IH2].
  - reflexivity.
  - cbn. unfold sort in IH. now rewrite IH.
  - cbn. apply insert_sorted_comm.
  - congruence.
Qed.

Lemma get_not_key (params : Params) (key : string) :
  ~ In key (keys params) -> get params key = None.
Proof.
  induction params as [|[k v] params IH]; intros H; [reflexivity|].
  cbn [get]. destruct (String.eqb_spec k key) as [->|Hne].
  - exfalso. apply H. now left.
  - apply IH. intros Hin. apply H. now right.
Qed.

Lemma get_permutation (params params' : Params) (key : string) :
  NoDup (keys params) ->
  Permutation params params' ->
  get params key = get params' key.
Proof.
  intros Hnd Hperm. induction Hperm
    as [|[k v] l l' Hperm IH|[k1 v1] [k2 v2] l|l l' l'' H1 IH1 H2 IH2].
  - reflexivity.
  - cbn [get]. destruct (String.eqb k key); [reflexivity|].
    apply IH. now inversion Hnd.
  - cbn [get].
    destruct (String.eqb_spec k1 key) as [->|H1],
             (String.eqb_spec k2 key) as [->|H2]; try reflexivity.
    exfalso. inversion Hnd as [|? ? Hnotin _]. apply Hnotin. now left.
  - rewrite IH1 by assumption. apply IH2.
    unfold keys in *.
    exact (Permutation_NoDup (Permutation_map fst H1) Hnd).
Qed.

(** The string that is signed does not depend on the order in which the
    parameters are written. *)
Lemma sortedParams_permutation (params params' : Params) :
  NoDup (keys params) ->
  Permutation params params' ->
  sortedParams params = sortedParams params'.
Proof.
  intros Hnd Hperm. unfold sortedParams, keys.
  rewrite (@sort_permutation _ _ (Permutation_map fst Hperm)).
  f_equal. apply map_ext. intros key.
  now rewrite (@get_permutation _ _ key Hnd Hperm).
Qed.

End CloudinaryStrings.

(** *** The requests of the client *)

Section CloudinaryFacts.

Import Cloudinary.
Local Open Scope string_scope.

Context {Bytes World : Type}.
Variable API_SECRET : option string.
Variable fetch :
  Request Bytes -> World -> Response (HttpResponse Bytes) * World.
Variable digest_SHA256 : string -> Response (list Byte.byte).
Variable Date_now : World -> N.
Variable encodeURIComponent : string -> string.

Local Abbreviation State := (St Bytes World).
Local Abbreviation secret := (Cloudinary.secret API_SECRET).
Local Abbreviation uploadToCloudinary :=
  (@Cloudinary.uploadToCloudinary Bytes World API_SECRET fetch).
Local Abbreviation fetch_upload :=
  (@Cloudinary.fetch_upload Bytes World fetch).
Local Abbreviation uploadFromUrlWithProxy :=
  (@Cloudinary.uploadFromUrlWithProxy Bytes World API_SECRET fetch Date_now
                                      encodeURIComponent).
Local Abbreviation uploadFromUrl :=
  (@Cloudinary.uploadFromUrl Bytes World API_SECRET fetch Date_now
                             encodeURIComponent).
Local Abbreviation sha256 := (@Cloudinary.sha256 Bytes World digest_SHA256).
Local Abbreviation generateSignature :=
  (@Cloudinary.generateSignature Bytes World API_SECRET digest_SHA256).
Local Abbreviation deleteFromCloudinary :=
  (@Cloudinary.deleteFromCloudinary Bytes World API_SECRET fetch
                                    digest_SHA256 Date_now).
Local Abbreviation proxy_request :=
  (@Cloudinary.proxy_request Bytes encodeURIComponent).

(** The state after one more request. *)
Local Abbreviation after st request r w :=
  {| world := w; trace := trace st ++ [EvFetch request r] |}.

Lemma secret_truthy (s : string) : secret = Some s -> truthy s = true.
Proof.
  unfold Cloudinary.secret. destruct API_SECRET as [s'|]; [|discriminate].
  destruct (truthy s') eqn:Hs; [|discriminate]. now intros [= <-].
Qed.

Lemma truthy_url_spec (result : UploadResult) (u : string) :
  truthy_url result = Some u ->
  secure_url result = Some u /\ truthy u = true.
Proof.
  unfold truthy_url. destruct (secure_url result) as [u'|]; [|discriminate].
  destruct (truthy u') eqn:Hu; [|discriminate]. now intros [= <-].
Qed.

(** One call of [uploadToCloudinary]: it settles, after one request when
    the secret is there. *)
Lemma uploadToCloudinary_settles
      (file : Compression.File Bytes) (folder : string) (st : State) :
  match secret with
  | None =>
    uploadToCloudinary file folder st
    = (Rejected (JsError "Cloudinary API Secret not configured. Please add VITE_CLOUDINARY_API_SECRET to your .env file"),
       st)
  | Some _ =>
    exists r w,
      fetch (upload_request (FormFile file) folder) (world st) = (r, w)
      /\ snd (uploadToCloudinary file folder st)
         = after st (upload_request (FormFile file) folder) r w
      /\ match fst (uploadToCloudinary file folder st) with
         | Resolved u => truthy u = true
         | Rejected e =>
           exists m, e = JsError ("Failed to upload image: " ++ m)
         | Pending => False
         end
  end.
Proof.
  unfold Cloudinary.uploadToCloudinary.
  destruct secret as [s|]; [|reflexivity].
  unfold try_catch, bind, do_fetch, settle, resolve, reject.
  destruct (fetch (upload_request (FormFile file) folder) (world st))
    as [[response|e] w] eqn:Hfetch; eexists _, w;
    (split; [reflexivity|]); cbn; [|split; [reflexivity | now eexists]].
  destruct (resp_ok response).
  - destruct (resp_json response) as [result|e]; cbn;
      [|split; [reflexivity | now eexists]].
    destruct (truthy_url result) as [u|] eqn:Hurl; cbn;
      [|split; [reflexivity | now eexists]].
    split; [reflexivity|]. exact (proj2 (@truthy_url_spec _ _ Hurl)).
  - destruct (resp_text response); cbn; (split; [reflexivity | now eexists]).
Qed.

(** With the secret, [uploadToCloudinary] resolves with the URL that the
    answer to its request gives, and only then. *)
Lemma uploadToCloudinary_resolves
      (file : Compression.File Bytes) (folder : string) (st : State)
      (s : string) (r : Response (HttpResponse Bytes)) (w : World)
      (u : string) :
  secret = Some s ->
  fetch (upload_request (FormFile file) folder) (world st) = (r, w) ->
  fst (uploadToCloudinary file folder st) = Resolved u
  <-> uploaded_url r = Some u.
Proof.
  intros Hsecret Hfetch.
  unfold Cloudinary.uploadToCloudinary. rewrite Hsecret.
  unfold try_catch, bind, do_fetch, settle, resolve, reject.
  rewrite Hfetch.
  destruct r as [response|e]; cbn [uploaded_url fst];
    [|split; discriminate].
  destruct (resp_ok response).
  - destruct (resp_json response) as [result|e]; cbn [fst];
      [|split; discriminate].
    destruct (truthy_url result) as [u'|]; cbn [fst];
      split; congruence.
  - destruct (resp_text response); cbn [fst]; split; discriminate.
Qed.

(** X22. With the secret configured, [uploadToCloudinary] makes exactly one
    request, the upload of the file with the preset and the folder.  It
    resolves only with the non-empty [secure_url] of the JSON of a response
    that is ok; whatever fails after the check of the secret, be it the
    network, the status, the body of the response or a missing URL, is
    rejected as an [Error] whose message starts with "Failed to upload
    image: ".  Without the secret it rejects before any request, with the
    message about the configuration, not wrapped. *)
Theorem uploadToCloudinary_outcomes
        (file : Compression.File Bytes) (folder : string) (st : State) :
  match secret with
  | None =>
    uploadToCloudinary file folder st
    = (Rejected (JsError "Cloudinary API Secret not configured. Please add VITE_CLOUDINARY_API_SECRET to your .env file"),
       st)
  | Some _ =>
    exists r w,
      fetch (upload_request (FormFile file) folder) (world st) = (r, w)
      /\ snd (uploadToCloudinary file folder st)
         = after st (upload_request (FormFile file) folder) r w
      /\ match fst (uploadToCloudinary file folder st) with
         | Resolved u =>
           truthy u = true
           /\ exists response result,
               r = Ok response
               /\ resp_ok response = true
               /\ resp_json response = Ok result
               /\ secure_url result = Some u
         | Rejected e =>
           exists m, e = JsError ("Failed to upload image: " ++ m)
         | Pending => False
         end
  end.
Proof.
  unfold Cloudinary.uploadToCloudinary.
  destruct secret as [s|]; [|reflexivity].
  unfold try_catch, bind, do_fetch, settle, resolve, reject.
  destruct (fetch (upload_request (FormFile file) folder) (world st))
    as [[response|e] w] eqn:Hfetch; eexists _, w;
    (split; [reflexivity|]).
  2:{ cbn. split; [reflexivity|]. now eexists. }
  destruct (resp_ok response) eqn:Hok.
  - destruct (resp_json response) as [result|e] eqn:Hjson.
    + destruct (truthy_url result) as [u|] eqn:Hurl; cbn.
      * split; [reflexivity|].
        destruct (@truthy_url_spec _ _ Hurl) as [Hsec Htruthy].
        split; [exact Htruthy|]. now exists response, result.
      * split; [reflexivity|]. now eexists.
    + cbn. split; [reflexivity|]. now eexists.
  - destruct (resp_text response) as [errorText|e]; cbn;
      (split; [reflexivity|]); now eexists.
Qed.

Lemma fetch_upload_run (imageUrl folder : string) (st : State) :
  exists r w,
    fetch (upload_request (FormString imageUrl) folder) (world st) = (r, w)
    /\ snd (fetch_upload imageUrl folder st)
       = after st (upload_request (FormString imageUrl) folder) r w
    /\ match fst (fetch_upload imageUrl folder st) with
       | Resolved u => truthy u = true
       | Rejected _ => True
       | Pending => False
       end.
Proof.
  unfold Cloudinary.fetch_upload, bind, do_fetch, settle, resolve, reject.
  destruct (fetch (upload_request (FormString imageUrl) folder) (world st))
    as [[response|e] w] eqn:Hfetch; eexists _, w;
    (split; [reflexivity|]).
  2:{ now cbn. }
  destruct (resp_ok response); [|now cbn].
  destruct (resp_json response) as [result|e]; [|now cbn].
  destruct (truthy_url result) as [u|] eqn:Hurl; cbn; [|easy].
  split; [reflexivity|]. exact (proj2 (@truthy_url_spec _ _ Hurl)).
Qed.

Lemma uploadFromUrlWithProxy_run (imageUrl folder : string) (st : State) :
  exists r w,
    fetch (proxy_request imageUrl) (world st) = (r, w)
    /\ ((exists u, fst (uploadFromUrlWithProxy imageUrl folder st) = Resolved u
                   /\ truthy u = true /\ secret <> None)
        \/ fst (uploadFromUrlWithProxy imageUrl folder st)
           = Rejected (JsError (manual_message imageUrl)))
    /\ (snd (uploadFromUrlWithProxy imageUrl folder st)
        = after st (proxy_request imageUrl) r w
        /\ (forall u,
               fst (uploadFromUrlWithProxy imageUrl folder st)
               <> Resolved u)
        \/ exists response blob r' w',
            secret <> None
            /\ r = Ok response
            /\ resp_ok response = true
            /\ resp_blob response = Ok blob
            /\ snd (uploadFromUrlWithProxy imageUrl folder st)
               = after (after st (proxy_request imageUrl) r w)
                       (upload_request
                          (FormFile (proxy_file imageUrl blob (Date_now w)))
                          folder) r' w').
Proof.
  remember (uploadFromUrlWithProxy imageUrl folder st) as res eqn:Hres.
  unfold Cloudinary.uploadFromUrlWithProxy, try_catch, bind, do_fetch,
    now, settle, resolve, reject, uploadFromUrlManual in Hres.
  destruct (fetch (proxy_request imageUrl) (world st))
    as [[response|e] w] eqn:Hfetch; eexists _, w;
    (split; [reflexivity|]).
  2:{ subst res. cbn. split; [now right|]. left.
      split; [reflexivity|discriminate]. }
  destruct (resp_ok response) eqn:Hok.
  2:{ subst res. cbn. split; [now right|]. left.
      split; [reflexivity|discriminate]. }
  destruct (resp_blob response) as [blob|e] eqn:Hblob.
  2:{ subst res. cbn. split; [now right|]. left.
      split; [reflexivity|discriminate]. }
  cbn [world] in Hres.
  pose proof (@uploadToCloudinary_settles
                (proxy_file imageUrl blob (Date_now w)) folder
                (after st (proxy_request imageUrl) (Ok response) w)) as Hup.
  destruct secret as [s|] eqn:Hsecret.
  - destruct Hup as (r' & w' & Hfetch' & Hsnd & Hfst).
    destruct (Cloudinary.uploadToCloudinary _ _ _ _ _) as [[u|e|] st'];
      subst res; cbn [fst snd] in *.
    + rename Hfst into Hu. split.
      * left. exists u. now repeat split.
      * right. exists response, blob, r', w'. now repeat split.
    + split; [now right|]. right.
      exists response, blob, r', w'. now repeat split.
    + contradiction.
  - rewrite Hup in Hres. subst res. cbn [fst snd].
    split; [now right|]. left. split; [reflexivity|discriminate].
Qed.

(** [uploadFromUrl] settles, and its rejections all have the message of
    [uploadFromUrlManual]. *)
Lemma uploadFromUrl_settles (imageUrl folder : string) (st : State) :
  match fst (uploadFromUrl imageUrl folder st) with
  | Resolved u => truthy u = true
  | Rejected e => e = JsError (manual_message imageUrl)
  | Pending => False
  end.
Proof.
  destruct (@fetch_upload_run imageUrl folder st)
    as (r1 & w1 & _ & _ & Hfst).
  unfold Cloudinary.uploadFromUrl, try_catch.
  destruct (Cloudinary.fetch_upload fetch imageUrl folder st)
    as [[u|e|] st1]; cbn [fst] in *; [exact Hfst| |contradiction].
  destruct (@uploadFromUrlWithProxy_run imageUrl folder st1)
    as (r2 & w2 & _ & Hout & _).
  destruct (uploadFromUrlWithProxy imageUrl folder st1) as [[u|e'|] st2];
    cbn [fst] in *.
  - destruct Hout as [(u' & [= <-] & Hu & _)|Hrej]; [exact Hu|discriminate].
  - destruct Hout as [(u' & Hu' & _)|[= ->]]; [discriminate|reflexivity].
  - destruct Hout as [(u' & Hu' & _)|Hrej]; discriminate.
Qed.

(** X23. What [uploadFromUrl] does, by what the network answers.  Its
    first request is the upload of the URL itself, made without any check
    of the secret; when the answer gives a URL, the call resolves with it
    and this is the only request.  Otherwise the image is asked from the
    proxy.  When the proxy gives a blob and the secret is configured, a
    third and last request uploads a file named after the last element of
    the URL, and the call resolves with the URL this upload gives.  In
    every other case, and so always without the secret, the call rejects,
    with the message of [uploadFromUrlManual], which speaks of CORS
    whatever went wrong.  It never stays pending. *)
Theorem uploadFromUrl_outcomes (imageUrl folder : string) (st : State) :
  exists r1 w1,
    fetch (upload_request (FormString imageUrl) folder) (world st) = (r1, w1)
    /\ match uploaded_url r1 with
       | Some u =>
         truthy u = true
         /\ uploadFromUrl imageUrl folder st
            = (Resolved u,
               after st (upload_request (FormString imageUrl) folder) r1 w1)
       | None =>
         exists r2 w2,
           fetch (proxy_request imageUrl) w1 = (r2, w2)
           /\ match proxied_blob r2, secret with
              | Some blob, Some _ =>
                exists r3 w3,
                  fetch (upload_request
                           (FormFile (proxy_file imageUrl blob (Date_now w2)))
                           folder) w2
                  = (r3, w3)
                  /\ uploadFromUrl imageUrl folder st
                     = (match uploaded_url r3 with
                        | Some u => Resolved u
                        | None =>
                          Rejected (JsError (manual_message imageUrl))
                        end,
                        after
                          (after
                             (after st
                                (upload_request (FormString imageUrl) folder)
                                r1 w1)
                             (proxy_request imageUrl) r2 w2)
                          (upload_request
                             (FormFile
                                (proxy_file imageUrl blob (Date_now w2)))
                             folder)
                          r3 w3)
              | _, _ =>
                uploadFromUrl imageUrl folder st
                = (Rejected (JsError (manual_message imageUrl)),
                   after
                     (after st (upload_request (FormString imageUrl) folder)
                            r1 w1)
                     (proxy_request imageUrl) r2 w2)
              end
       end.
Proof.
  destruct (fetch (upload_request (FormString imageUrl) folder) (world st))
    as [r1 w1] eqn:Hfetch1.
  exists r1, w1. split; [reflexivity|].
  set (st1 := after st (upload_request (FormString imageUrl) folder) r1 w1).
  assert (Hproxy :
            exists r2 w2,
              fetch (proxy_request imageUrl) w1 = (r2, w2)
              /\ match proxied_blob r2, secret with
                 | Some blob, Some _ =>
                   exists r3 w3,
                   fetch (upload_request
                            (FormFile
                               (proxy_file imageUrl blob (Date_now w2)))
                            folder) w2
                   = (r3, w3)
                   /\ uploadFromUrlWithProxy imageUrl folder st1
                      = (match uploaded_url r3 with
                         | Some u => Resolved u
                         | None =>
                           Rejected (JsError (manual_message imageUrl))
                         end,
                         after (after st1 (proxy_request imageUrl) r2 w2)
                               (upload_request
                                  (FormFile
                                     (proxy_file imageUrl blob
                                                 (Date_now w2)))
                                  folder)
                               r3 w3)
                 | _, _ =>
                   uploadFromUrlWithProxy imageUrl folder st1
                   = (Rejected (JsError (manual_message imageUrl)),
                      after st1 (proxy_request imageUrl) r2 w2)
                 end).
  { remember (uploadFromUrlWithProxy imageUrl folder st1) as res eqn:Hres.
    unfold Cloudinary.uploadFromUrlWithProxy, try_catch, bind, do_fetch,
      now, settle, resolve, reject, uploadFromUrlManual in Hres.
    cbn [world trace st1] in Hres.
    destruct (fetch (proxy_request imageUrl) w1) as [r2 w2] eqn:Hfetch2.
    exists r2, w2. split; [reflexivity|].
    destruct r2 as [response|e]; cbn [proxied_blob];
      [|now destruct secret].
    destruct (resp_ok response); [|now destruct secret].
    destruct (resp_blob response) as [blob|e]; [|now destruct secret].
    cbn [world trace] in Hres.
    unfold Cloudinary.uploadToCloudinary in Hres.
    destruct secret as [s|]; [|exact Hres].
    unfold try_catch, bind, do_fetch, settle, resolve, reject in Hres.
    cbn [world trace] in Hres.
    destruct (fetch (upload_request (FormFile _) folder) w2)
      as [r3 w3] eqn:Hfetch3.
    exists r3, w3. split; [reflexivity|].
    destruct r3 as [response3|e3]; cbn [uploaded_url]; [|exact Hres].
    destruct (resp_ok response3).
    - destruct (resp_json response3) as [result|e3]; [|exact Hres].
      now destruct (truthy_url result).
    - now destruct (resp_text response3). }
  remember (uploadFromUrl imageUrl folder st) as res eqn:Hres.
  unfold Cloudinary.uploadFromUrl, Cloudinary.fetch_upload, try_catch,
    bind, do_fetch, settle, resolve, reject in Hres.
  rewrite Hfetch1 in Hres. fold st1 in Hres.
  assert (Hfall :
            res = uploadFromUrlWithProxy imageUrl folder st1 ->
            exists r2 w2,
              fetch (proxy_request imageUrl) w1 = (r2, w2)
              /\ match proxied_blob r2, secret with
                 | Some blob, Some _ =>
                   exists r3 w3,
                   fetch (upload_request
                            (FormFile
                               (proxy_file imageUrl blob (Date_now w2)))
                            folder) w2
                   = (r3, w3)
                   /\ res
                      = (match uploaded_url r3 with
                         | Some u => Resolved u
                         | None =>
                           Rejected (JsError (manual_message imageUrl))
                         end,
                         after (after st1 (proxy_request imageUrl) r2 w2)
                               (upload_request
                                  (FormFile
                                     (proxy_file imageUrl blob
                                                 (Date_now w2)))
                                  folder)
                               r3 w3)
                 | _, _ =>
                   res
                   = (Rejected (JsError (manual_message imageUrl)),
                      after st1 (proxy_request imageUrl) r2 w2)
                 end).
  { intros ->. destruct Hproxy as (r2 & w2 & Hfetch2 & Hrest).
    exists r2, w2. split; [exact Hfetch2|].
    destruct (proxied_blob r2) as [blob|], secret as [s|];
      try (now rewrite Hrest);
      destruct Hrest as (r3 & w3 & Hfetch3 & Hrest); exists r3, w3;
      (split; [exact Hfetch3|]); rewrite Hrest;
      now destruct (uploaded_url r3). }
  assert (Hcatch :
            forall x : Outcome string * State,
              (let (o, s') := x in
               match o with
               | Resolved a => (Resolved a, s')
               | Rejected e0 => (Rejected e0, s')
               | Pending => (Pending, s')
               end) = x)
    by (now intros [[?|?|] ?]).
  destruct r1 as [response|e]; cbn [uploaded_url];
    [|apply Hfall; now rewrite Hres, Hcatch].
  destruct (resp_ok response); [|apply Hfall; now rewrite Hres, Hcatch].
  destruct (resp_json response) as [result|e];
    [|apply Hfall; now rewrite Hres, Hcatch].
  destruct (truthy_url result) as [u|] eqn:Hurl;
    [|apply Hfall; now rewrite Hres, Hcatch].
  split; [exact (proj2 (@truthy_url_spec _ _ Hurl))|exact Hres].
Qed.

(** X24. [sha256] resolves with the digest written with two lower-case
    hexadecimal digits for each byte, so that two messages get the same
    string only when their digests are equal; it rejects with the error of
    the digest when that fails. *)
Theorem sha256_hex (message message' : string) (st : State) :
  match digest_SHA256 message with
  | Ok bs =>
    exists sig,
      sha256 message st = (Resolved sig, st)
      /\ String.length sig = (2 * List.length bs)%nat
      /\ forall bs',
          digest_SHA256 message' = Ok bs' ->
          sha256 message' st = (Resolved sig, st) ->
          bs' = bs
  | Throws e => sha256 message st = (Rejected e, st)
  end.
Proof.
  unfold Cloudinary.sha256, bind, settle, resolve, reject.
  destruct (digest_SHA256 message) as [bs|e]; [|reflexivity].
  exists (hex_of_bytes bs). split; [reflexivity|].
  split; [apply hex_of_bytes_length|].
  intros bs' -> [= H]. now apply hex_of_bytes_injective.
Qed.

(** X25. The signature does not depend on the order in which the
    parameters are written in the object: [generateSignature] signs the
    parameters in the order of their names. *)
Theorem generateSignature_order_independent
        (params params' : Params) (st : State) :
  NoDup (keys params) ->
  Permutation params params' ->
  generateSignature params st = generateSignature params' st.
Proof.
  intros Hnd Hperm. unfold Cloudinary.generateSignature.
  now rewrite (@sortedParams_permutation _ _ Hnd Hperm).
Qed.

(** [deleteFromCloudinary] resolves. *)
Lemma deleteFromCloudinary_resolves (imageUrl : string) (st : State) :
  fst (deleteFromCloudinary imageUrl st) = Resolved tt.
Proof.
  unfold Cloudinary.deleteFromCloudinary.
  destruct secret as [s|] eqn:Hsecret; [|reflexivity].
  destruct (extractPublicId imageUrl) as [publicId|]; [|reflexivity].
  destruct (truthy publicId); [|reflexivity].
  unfold try_catch, bind, now, Cloudinary.generateSignature,
    Cloudinary.sha256, bind, do_fetch, settle, resolve, reject.
  rewrite Hsecret.
  destruct (digest_SHA256 _) as [bs|e]; [|reflexivity].
  destruct (fetch _ (world st)) as [[response|e] w]; [|reflexivity].
  destruct (resp_ok response); [reflexivity|].
  now destruct (resp_text response).
Qed.

(** X26. [deleteFromCloudinary] never rejects: whatever fails, the caller
    is not told.  It makes at most one request.  It makes none without the
    secret, for a URL that [extractPublicId] finds no public id or an
    empty one in, or when the digest fails.  The request, when there is
    one, destroys the public id of the URL; it is signed with the hash of
    ["public_id=<id>&timestamp=<seconds>"] followed by the secret, the
    time being the clock rounded to seconds. *)
Theorem deleteFromCloudinary_never_rejects (imageUrl : string) (st : State) :
  fst (deleteFromCloudinary imageUrl st) = Resolved tt
  /\ (snd (deleteFromCloudinary imageUrl st) = st
      \/ exists s publicId bs r w,
          let time := round_seconds (Date_now (world st)) in
          secret = Some s
          /\ extractPublicId imageUrl = Some publicId
          /\ truthy publicId = true
          /\ digest_SHA256 ("public_id=" ++ publicId ++ "&timestamp="
                            ++ decimal time ++ s) = Ok bs
          /\ fetch (destroy_request publicId (hex_of_bytes bs) time) (world st)
             = (r, w)
          /\ snd (deleteFromCloudinary imageUrl st)
             = after st (destroy_request publicId (hex_of_bytes bs) time) r w).
Proof.
  unfold Cloudinary.deleteFromCloudinary.
  destruct secret as [s|] eqn:Hsecret; [|split; [reflexivity | now left]].
  destruct (extractPublicId imageUrl) as [publicId|];
    [|split; [reflexivity | now left]].
  destruct (truthy publicId) eqn:Hid; [|split; [reflexivity | now left]].
  unfold try_catch, bind, now, Cloudinary.generateSignature,
    Cloudinary.sha256, bind, do_fetch, settle, resolve, reject.
  rewrite Hsecret. cbn [world].
  change (sortedParams [("timestamp", Num ?t); ("public_id", Str publicId)])
    with ("public_id=" ++ publicId ++ "&timestamp=" ++ decimal t).
  rewrite !append_assoc. cbn [append].
  destruct (digest_SHA256 _) as [bs|e] eqn:Hdigest;
    [|split; [reflexivity | now left]].
  destruct (fetch _ (world st)) as [r w] eqn:Hfetch.
  split.
  - destruct r as [response|e]; [|reflexivity].
    destruct (resp_ok response); [reflexivity|].
    now destruct (resp_text response).
  - right. exists s, publicId, bs, r, w. cbn zeta.
    repeat split; try assumption.
    destruct r as [response|e]; [|reflexivity].
    destruct (resp_ok response); [reflexivity|].
    now destruct (resp_text response).
Qed.

End CloudinaryFacts.

(** *** Runs on concrete networks *)

Section CloudinaryRuns.

Import Cloudinary Networks.
Local Open Scope string_scope.

Lemma extractPublicId_canonical_witness :
  extractPublicId ring_url = Some "products/ring".
Proof.
  exact (@extractPublicId_canonical
           "https://res.cloudinary.com/dsgi4fbqu/image" "v1700000000"
           "products/ring" "jpg" eq_refl eq_refl eq_refl eq_refl eq_refl).
Defined.

Lemma extractPublicId_shape_witness :
  exists before version group rest,
    ring_url = before ++ "/upload/" ++ version ++ "/" ++ group
    /\ is_segment version = true
    /\ nonempty group = true
    /\ is_line group = true
    /\ "products/ring" = strip_extension group
    /\ group = "products/ring" ++ rest.
Proof.
  exact (@extractPublicId_shape ring_url "products/ring" eq_refl).
Defined.

Lemma extractPublicId_unversioned_witness :
  extractPublicId "https://res.cloudinary.com/demo/image/upload/sample.jpg"
  = None.
Proof.
  exact (@extractPublicId_unversioned
           "https://res.cloudinary.com/demo/image" "sample.jpg"
           eq_refl eq_refl).
Defined.

Lemma filename_of_last_element_witness :
  filename_of firebase_ring_url = "ring.jpg"
  /\ filename_of "https://firebasestorage.googleapis.com/v0/b/gems/o/"
     = "image.jpg".
Proof.
  split.
  - exact (proj1 (@filename_of_last_element
                    "https://firebasestorage.googleapis.com/v0/b/gems/o"
                    "ring.jpg" eq_refl)).
  - exact (proj1 (@filename_of_last_element
                    "https://firebasestorage.googleapis.com/v0/b/gems/o"
                    "" eq_refl)).
Defined.

Lemma generateSignature_order_independent_witness :
  generateSignature (Some "s3cr3t") digest_constant
                    [("timestamp", Num 1700000000); ("public_id", Str "ring")]
                    (@start unit nat 0%nat)
  = generateSignature (Some "s3cr3t") digest_constant
                      [("public_id", Str "ring"); ("timestamp", Num 1700000000)]
                      (@start unit nat 0%nat).
Proof.
  apply generateSignature_order_independent.
  - repeat constructor; cbn; intuition discriminate.
  - apply perm_swap.
Defined.

(** Without the secret and with the network down, the proxy is asked
    after Cloudinary, and the rejection speaks of CORS. *)
Example uploadFromUrl_network_down :
  fst run_upload_network_down
  = Rejected (JsError (manual_message firebase_ring_url))
  /\ requests (trace (snd run_upload_network_down))
     = [upload_request (FormString firebase_ring_url) "products";
        proxy_request encode_nothing firebase_ring_url].
Proof. split; reflexivity. Qed.

(** The deletion of the ring destroys ["products/ring"], at the time of
    the clock rounded down to seconds, with the digest in hexadecimal as
    signature. *)
Example deleteFromCloudinary_ring :
  fst run_delete_ring = Resolved tt
  /\ requests (trace (snd run_delete_ring))
     = [destroy_request "products/ring" "000fa0ff" 1700000000].
Proof. split; vm_compute; reflexivity. Qed.

End CloudinaryRuns.

(** ** The migration utility over the Cloudinary client *)

Section MigrationWithCloudinaryFacts.

Import Migration.
Local Open Scope string_scope.

Context {Bytes World Firestore : Type}.
Variable API_SECRET : option string.
Variable fetch :
  Cloudinary.Request Bytes -> World
  -> Response (Cloudinary.HttpResponse Bytes) * World.
Variable Date_now : World -> N.
Variable encodeURIComponent : string -> string.
Variable db : option Firestore.
Variable getDocs : Firestore -> World -> Response (list Product) * World.
Variable updateDoc :
  Firestore -> string -> UpdateData -> World -> Response unit * World.
Variable Date_toISOString : World -> string.

Local Abbreviation Net := (Cloudinary.St Bytes World).
Local Abbreviation migrateAllToCloudinary :=
  (MigrationWithCloudinary.migrateAllToCloudinary
     API_SECRET fetch Date_now encodeURIComponent db getDocs updateDoc
     Date_toISOString).
Local Abbreviation uploadFromUrl :=
  (MigrationWithCloudinary.uploadFromUrl
     API_SECRET fetch Date_now encodeURIComponent).
Local Abbreviation replay := (@Migration.replay Firestore db).

(** X27. The errors of a migration run over the Cloudinary client never
    say why an upload failed.  In a run that gets the products from the
    store, the products recorded are those of the store that need
    migration, in order, each with the outcome that the answers of the
    platform give it, and [errors] has the entries of those that were
    rejected.  Every upload that failed in the run failed with the message
    of [uploadFromUrlManual] for the URL it was given; so the message of a
    rejected product is that message for its own Firebase Storage URL,
    whatever went wrong with the upload, unless it is the message of what
    the write of its document threw. *)
Theorem migrateAll_errors_over_cloudinary
        (d : Firestore) (products : list Product) (net0 : Net) (w1 : World) :
  db = Some d ->
  getDocs d (Cloudinary.world net0) = (Ok products, w1) ->
  exists results st',
    migrateAllToCloudinary (Migration.start net0) = (Resolved results, st')
    /\ map fst (processed (trace st')) = filter needs_migration products
    /\ replay (filter needs_migration products) (platform (trace st'))
       = Some (processed (trace st'))
    /\ errors results = error_entries (processed (trace st'))
    /\ (forall url folder e,
           In (EvUpload url folder (Throws e)) (trace st') ->
           e = JsError (Cloudinary.manual_message url))
    /\ (forall p e,
           In (p, Rejected e) (processed (trace st')) ->
           In p (filter needs_migration products)
           /\ exists url,
               firebaseUrl_of p = Some url
               /\ (e = JsError (Cloudinary.manual_message url)
                   \/ exists data,
                       In (EvUpdateDoc (id p) data (Throws e)) (trace st'))).
Proof.
  intros Hdb Hdocs.
  assert (Hdocs' : MigrationWithCloudinary.on_store (getDocs d) net0
                   = (Ok products,
                      {| Cloudinary.world := w1;
                         Cloudinary.trace := Cloudinary.trace net0 |})).
  { unfold MigrationWithCloudinary.on_store. now rewrite Hdocs. }
  unfold MigrationWithCloudinary.migrateAllToCloudinary.
  destruct (@migrateAll_run Net Firestore db
              (fun d => MigrationWithCloudinary.on_store (getDocs d))
              uploadFromUrl
              (fun d id data =>
                 MigrationWithCloudinary.on_store (updateDoc d id data))
              (fun st => Date_toISOString (Cloudinary.world st))
              d products net0 _ Hdb Hdocs')
    as (results & st' & Hrun & Hproc & _ & _ & _ & Herrors & _).
  destruct (@migrateAll_replay Net Firestore db
              (fun d => MigrationWithCloudinary.on_store (getDocs d))
              uploadFromUrl
              (fun d id data =>
                 MigrationWithCloudinary.on_store (updateDoc d id data))
              (fun st => Date_toISOString (Cloudinary.world st))
              d products net0 _ Hdb Hdocs')
    as (results' & st'' & Hrun' & Hreplay & Hanswered).
  rewrite Hrun in Hrun'. injection Hrun' as <- <-.
  assert (Hmanual : forall url folder e,
             In (EvUpload url folder (Throws e)) (trace st') ->
             e = JsError (Cloudinary.manual_message url)).
  { intros url folder e Hin.
    rewrite Forall_forall in Hanswered. apply Hanswered in Hin.
    destruct Hin as [w Hup]. cbn [fst] in Hup.
    unfold MigrationWithCloudinary.uploadFromUrl in Hup.
    pose proof (@uploadFromUrl_settles Bytes World API_SECRET fetch Date_now
                  encodeURIComponent url folder w) as Hsettle.
    destruct (Cloudinary.uploadFromUrl _ _ _ _ _ _ _) as [[u|e'|] w'];
      cbn [fst] in *; [discriminate| |contradiction].
    injection Hup as <-. exact Hsettle. }
  exists results, st'. repeat (split; [assumption|]).
  intros p e Hin.
  destruct (@replay_rejected Firestore db _ _ _ Hreplay p e Hin)
    as (Hp & url & Hurl & Hev).
  split; [exact Hp|]. exists url. split; [exact Hurl|].
  destruct Hev as [Hev|[data Hev]].
  - left. apply (Hmanual url "products").
    unfold platform in Hev. now apply filter_In in Hev.
  - right. exists data. unfold platform in Hev. now apply filter_In in Hev.
Qed.

End MigrationWithCloudinaryFacts.

(** ** The product store *)

Section SupabaseFacts.

Import Supabase.
Local Open Scope string_scope.

Context {Bytes World Firestore Auth Storage DocRef : Type}.
Variable db : option Firestore.
Variable auth : option Auth.
Variable storage : option Storage.
Variable storageBucket : option string.
Variable API_SECRET : option string.
Variable fetch :
  Cloudinary.Request Bytes -> World
  -> Response (Cloudinary.HttpResponse Bytes) * World.
Variable digest_SHA256 : string -> Response (list Byte.byte).
Variable Date_now : World -> N.
Variable currentUser : Auth -> World -> bool.
Variable doc : Firestore -> string -> Response DocRef.
Variable getDoc : DocRef -> World -> Response (option ProductData) * World.
Variable deleteDoc : DocRef -> World -> Response unit * World.
Variable deleteObject : Storage -> string -> World -> Response unit * World.
Variable decodeURIComponent : string -> Response string.

Local Abbreviation State := (St Bytes World).
Local Abbreviation uploadToCloudinary :=
  (@Cloudinary.uploadToCloudinary Bytes World API_SECRET fetch).
Local Abbreviation deleteFromCloudinary :=
  (@Cloudinary.deleteFromCloudinary Bytes World API_SECRET fetch
                                    digest_SHA256 Date_now).
Local Abbreviation uploadImageToStorage :=
  (@Supabase.uploadImageToStorage Bytes World API_SECRET fetch).
Local Abbreviation deleteImageFromStorage :=
  (@Supabase.deleteImageFromStorage Bytes World Storage storage storageBucket
                                    API_SECRET fetch digest_SHA256 Date_now
                                    deleteObject decodeURIComponent).
Local Abbreviation deleteProduct :=
  (@Supabase.deleteProduct Bytes World Firestore Auth Storage DocRef db auth
                           storage storageBucket API_SECRET fetch
                           digest_SHA256 Date_now currentUser doc getDoc
                           deleteDoc deleteObject decodeURIComponent).

(** X28. [uploadImageToStorage] makes the single request of
    [uploadToCloudinary] for the folder "products" and touches nothing of
    Firebase.  It resolves exactly when [uploadToCloudinary] does, with the
    same URL: with the secret configured, exactly when the answer to the
    request gives a URL.  It rejects when [uploadToCloudinary] rejects,
    with an [Error] whose message is "Failed to upload image: " followed
    by the message of that rejection; so with the secret the prefix is
    there twice, the failure having been wrapped by [uploadToCloudinary]
    already, and without the secret the message about the configuration
    follows the prefix. *)
Theorem uploadImageToStorage_outcomes
        (file : Compression.File Bytes) (st : State) :
  uploadImageToStorage file st
  = (match fst (uploadToCloudinary file "products" (net st)) with
     | Resolved u => Resolved u
     | Rejected e =>
       Rejected (JsError ("Failed to upload image: " ++ message_of e))
     | Pending => Pending
     end,
     {| net := snd (uploadToCloudinary file "products" (net st));
        log := log st |})
  /\ match Cloudinary.secret API_SECRET with
     | Some _ =>
       exists r w,
         fetch (Cloudinary.upload_request (Cloudinary.FormFile file)
                                          "products")
               (Cloudinary.world (net st))
         = (r, w)
         /\ match Cloudinary.uploaded_url r with
            | Some u => fst (uploadImageToStorage file st) = Resolved u
            | None =>
              exists m,
                fst (uploadImageToStorage file st)
                = Rejected
                    (JsError
                       ("Failed to upload image: Failed to upload image: "
                        ++ m))
            end
     | None =>
       fst (uploadImageToStorage file st)
       = Rejected (JsError "Failed to upload image: Cloudinary API Secret not configured. Please add VITE_CLOUDINARY_API_SECRET to your .env file")
     end.
Proof.
  assert (Heq : uploadImageToStorage file st
                = (match fst (uploadToCloudinary file "products" (net st)) with
                   | Resolved u => Resolved u
                   | Rejected e =>
                     Rejected (JsError ("Failed to upload image: "
                                        ++ message_of e))
                   | Pending => Pending
                   end,
                   {| net := snd (uploadToCloudinary file "products" (net st));
                      log := log st |})).
  { unfold Supabase.uploadImageToStorage, try_catch, bind, cloudinary,
      resolve, reject.
    now destruct (uploadToCloudinary file "products" (net st))
      as [[u|e|] n]. }
  split; [exact Heq|]. rewrite Heq. cbn [fst].
  pose proof (@uploadToCloudinary_settles Bytes World API_SECRET fetch file
                "products" (net st)) as Hup.
  destruct (Cloudinary.secret API_SECRET) as [s|] eqn:Hsecret.
  - destruct Hup as (r & w & Hfetch & _ & Hfst).
    exists r, w. split; [exact Hfetch|].
    pose proof (fun u =>
                  @uploadToCloudinary_resolves Bytes World API_SECRET fetch
                    file "products" (net st) s r w u Hsecret Hfetch)
      as Hiff.
    destruct (Cloudinary.uploaded_url r) as [u|].
    + now rewrite (proj2 (Hiff u) eq_refl).
    + destruct (fst (uploadToCloudinary file "products" (net st)))
        as [u|e|].
      * now pose proof (proj1 (Hiff u) eq_refl).
      * destruct Hfst as [m ->]. now exists m.
      * contradiction.
  - now rewrite Hup.
Qed.

(** One call of [deleteImageFromStorage]: it resolves, and deletes at most
    one object. *)
Lemma deleteImageFromStorage_settles (imageUrl : string) (st : State) :
  fst (deleteImageFromStorage imageUrl st) = Resolved tt
  /\ exists objects,
      log (snd (deleteImageFromStorage imageUrl st)) = (log st ++ objects)%list
      /\ forallb is_deleteObject objects = true
      /\ (List.length objects <= 1)%nat.
Proof.
  unfold Supabase.deleteImageFromStorage, try_catch.
  destruct (Urls.isCloudinaryUrl imageUrl).
  { unfold cloudinary.
    pose proof (@deleteFromCloudinary_resolves Bytes World API_SECRET fetch
                  digest_SHA256 Date_now imageUrl (net st)) as Hdel.
    destruct (deleteFromCloudinary imageUrl (net st)) as [r n].
    cbn [fst] in Hdel. subst r. cbn [fst snd log].
    split; [reflexivity|]. exists []. rewrite app_nil_r.
    repeat split. cbn. lia. }
  assert (Hskip : fst (@resolve State unit tt st) = Resolved tt
                  /\ exists objects,
                      log (snd (@resolve State unit tt st))
                      = (log st ++ objects)%list
                      /\ forallb is_deleteObject objects = true
                      /\ (List.length objects <= 1)%nat).
  { split; [reflexivity|]. exists []. rewrite app_nil_r.
    repeat split. cbn. lia. }
  destruct storage as [s|]; [|exact Hskip].
  destruct (Urls.isFirebaseStorageUrl imageUrl); [|exact Hskip].
  destruct (String.prefix _ imageUrl); [|exact Hskip].
  destruct (path_match imageUrl) as [group|]; [|exact Hskip].
  destruct (truthy group); [|exact Hskip].
  unfold bind, firebase, Supabase.settle, resolve, reject.
  destruct (decodeURIComponent group) as [path|e]; [|exact Hskip].
  destruct (deleteObject s path _) as [[[]|e] w]; cbn [fst snd log];
    (split; [reflexivity|]); eexists [_]; repeat split; cbn; lia.
Qed.

(** X29. [deleteImageFromStorage] never rejects: a failed deletion of an
    image is not reported.  A URL that contains "cloudinary.com" goes to
    [deleteFromCloudinary] and to nothing else, even when it is a Firebase
    Storage URL as well.  For any other URL no request is made to
    Cloudinary, and at most one object of Firebase Storage is deleted:
    only when the storage is there, the URL is a Firebase Storage URL that
    starts with the base URL of the bucket, and a path followed by a
    question mark is found in it; the object deleted is that path,
    decoded. *)
Theorem deleteImageFromStorage_never_rejects
        (imageUrl : string) (st : State) :
  fst (deleteImageFromStorage imageUrl st) = Resolved tt
  /\ if Urls.isCloudinaryUrl imageUrl
     then snd (deleteImageFromStorage imageUrl st)
          = {| net := snd (deleteFromCloudinary imageUrl (net st));
               log := log st |}
     else Cloudinary.trace (net (snd (deleteImageFromStorage imageUrl st)))
          = Cloudinary.trace (net st)
          /\ (snd (deleteImageFromStorage imageUrl st) = st
              \/ exists s group path r,
                  storage = Some s
                  /\ Urls.isFirebaseStorageUrl imageUrl = true
                  /\ String.prefix (baseUrl storageBucket) imageUrl = true
                  /\ path_match imageUrl = Some group
                  /\ decodeURIComponent group = Ok path
                  /\ log (snd (deleteImageFromStorage imageUrl st))
                     = (log st ++ [EvDeleteObject path r])%list).
Proof.
  unfold Supabase.deleteImageFromStorage, try_catch.
  destruct (Urls.isCloudinaryUrl imageUrl).
  { unfold cloudinary.
    pose proof (@deleteFromCloudinary_resolves Bytes World API_SECRET fetch
                  digest_SHA256 Date_now imageUrl (net st)) as Hdel.
    destruct (deleteFromCloudinary imageUrl (net st)) as [r n].
    cbn [fst] in Hdel. subst r. now split. }
  assert (Hskip : forall P : Prop,
             fst (@resolve State unit tt st) = Resolved tt
             /\ Cloudinary.trace (net (snd (@resolve State unit tt st)))
                = Cloudinary.trace (net st)
                /\ (snd (@resolve State unit tt st) = st \/ P))
    by (intros P; split; [reflexivity|]; split; [reflexivity | now left]).
  destruct storage as [s|]; [|apply Hskip].
  destruct (Urls.isFirebaseStorageUrl imageUrl) eqn:Hfirebase; [|apply Hskip].
  destruct (String.prefix _ imageUrl) eqn:Hbase; [|apply Hskip].
  destruct (path_match imageUrl) as [group|] eqn:Hmatch; [|apply Hskip].
  destruct (truthy group); [|apply Hskip].
  unfold bind, firebase, Supabase.settle, resolve, reject.
  destruct (decodeURIComponent group) as [path|e] eqn:Hdecode;
    [|apply Hskip].
  destruct (deleteObject s path _) as [[[]|e] w]; cbn [fst snd log net];
    (split; [reflexivity|]); (split; [reflexivity|]); right;
    eexists s, group, path, _; now repeat split.
Qed.

(** X30. [deleteProduct] touches nothing and rejects when Firebase is not
    configured or nobody is logged in.  Otherwise it reads the document
    and then deletes it.  When the document is read, the image of the
    product, if the document exists and has one, is handed to
    [deleteImageFromStorage], which deletes at most one object of Firebase
    Storage and reports no failure; then the deletion of the document is
    always attempted, as the last operation, whatever happened to the
    image; the call resolves exactly when that deletion succeeds.  Every
    failure of the store is rejected as an [Error] whose message is
    "Failed to delete product: " followed by the message of the failure. *)
Theorem deleteProduct_outcomes (id : string) (st : State) :
  match db with
  | None =>
    deleteProduct id st
    = (Rejected (JsError "Firebase database not initialized. Please check your configuration."),
       st)
  | Some d =>
    if match auth with
       | Some a => currentUser a (Cloudinary.world (net st))
       | None => false
       end
    then
      match doc d id with
      | Throws e =>
        deleteProduct id st
        = (Rejected (JsError ("Failed to delete product: " ++ message_of e)),
           st)
      | Ok docRef =>
        exists r1 w1 st1,
          getDoc docRef (Cloudinary.world (net st)) = (r1, w1)
          /\ st1 = {| net := {| Cloudinary.world := w1;
                                Cloudinary.trace := Cloudinary.trace (net st) |};
                      log := (log st ++ [EvGetDoc id r1])%list |}
          /\ match r1 with
             | Throws e =>
               deleteProduct id st
               = (Rejected (JsError ("Failed to delete product: "
                                     ++ message_of e)),
                  st1)
             | Ok docSnapshot =>
               exists st2 objects r2 w2,
                 st2 = match docSnapshot with
                       | Some productData =>
                         match data_image_url productData with
                         | Some image_url =>
                           if truthy image_url
                           then snd (deleteImageFromStorage image_url st1)
                           else st1
                         | None => st1
                         end
                       | None => st1
                       end
                 /\ log st2 = (log st1 ++ objects)%list
                 /\ forallb is_deleteObject objects = true
                 /\ (List.length objects <= 1)%nat
                 /\ deleteDoc docRef (Cloudinary.world (net st2)) = (r2, w2)
                 /\ deleteProduct id st
                    = (match r2 with
                       | Ok _ => Resolved tt
                       | Throws e =>
                         Rejected (JsError ("Failed to delete product: "
                                            ++ message_of e))
                       end,
                       {| net := {| Cloudinary.world := w2;
                                    Cloudinary.trace :=
                                      Cloudinary.trace (net st2) |};
                          log := (log st2 ++ [EvDeleteDoc id r2])%list |})
             end
      end
    else
      deleteProduct id st
      = (Rejected (JsError "You must be logged in to delete products"), st)
  end.
Proof.
  remember (deleteProduct id st) as res eqn:Hres.
  unfold Supabase.deleteProduct in Hres.
  destruct db as [d|]; [|exact Hres].
  unfold bind at 1, logged_in in Hres.
  destruct (match auth with Some a => _ | None => false end);
    cbn [negb] in Hres; [|exact Hres].
  unfold try_catch, bind at 1, Supabase.settle at 1 in Hres.
  destruct (doc d id) as [docRef|e]; [|exact Hres].
  unfold resolve at 1, bind at 1, firebase at 1 in Hres.
  destruct (getDoc docRef _) as [r1 w1] eqn:Hget.
  eexists r1, w1, _. split; [reflexivity|]. split; [reflexivity|].
  destruct r1 as [docSnapshot|e]; [|exact Hres].
  cbn [Supabase.settle resolve] in Hres.
  match type of Hres with
  | _ = (let (_, _) := bind ?m _ ?s in _) =>
    set (image := m) in Hres; set (st1 := s) in *
  end.
  assert (Himage : fst (image st1) = Resolved tt
                   /\ snd (image st1)
                      = match docSnapshot with
                        | Some productData =>
                          match data_image_url productData with
                          | Some image_url =>
                            if truthy image_url
                            then snd (deleteImageFromStorage image_url st1)
                            else st1
                          | None => st1
                          end
                        | None => st1
                        end
                   /\ exists objects,
                       log (snd (image st1)) = (log st1 ++ objects)%list
                       /\ forallb is_deleteObject objects = true
                       /\ (List.length objects <= 1)%nat).
  { assert (Hnone : fst (@resolve State unit tt st1) = Resolved tt
                    /\ snd (@resolve State unit tt st1) = st1
                    /\ exists objects,
                        log (snd (@resolve State unit tt st1))
                        = (log st1 ++ objects)%list
                        /\ forallb is_deleteObject objects = true
                        /\ (List.length objects <= 1)%nat).
    { split; [reflexivity|]. split; [reflexivity|]. exists [].
      rewrite app_nil_r. repeat split. cbn. lia. }
    subst image.
    destruct docSnapshot as [productData|]; [|exact Hnone].
    destruct (data_image_url productData) as [image_url|]; [|exact Hnone].
    destruct (truthy image_url); [|exact Hnone].
    destruct (deleteImageFromStorage_settles image_url st1) as [Hfst Hlog].
    now repeat split. }
  destruct Himage as (Hfst & Hsnd & objects & Hlog & Hobjects & Hlen).
  unfold bind, firebase in Hres. destruct (image st1) as [r st2] eqn:Himg.
  cbn [fst snd] in Hfst, Hsnd, Hlog. subst r.
  destruct (deleteDoc docRef _) as [r2 w2] eqn:Hdel.
  exists st2, objects, r2, w2.
  split; [exact Hsnd|]. split; [exact Hlog|]. split; [exact Hobjects|].
  split; [exact Hlen|]. split; [exact Hdel|].
  rewrite Hres. now destruct r2 as [[]|e].
Qed.

End SupabaseFacts.

(** *** Runs of the callers of the client *)

Section CallerRuns.

Import Migration Networks.
Local Open Scope string_scope.

Lemma migrateAll_errors_over_cloudinary_witness :
  exists st',
    run_migration_network_down
    = (Resolved {| total := 1; migrated := 0; skipped := 0; failed := 1;
                   errors := [("Ring",
                               Cloudinary.manual_message
                                 (image_url Stores.ring))] |},
       st')
    /\ map fst (processed (trace st')) = [Stores.ring]
    /\ forall url folder e,
        In (EvUpload url folder (Throws e)) (trace st') ->
        e = JsError (Cloudinary.manual_message url).
Proof.
  destruct (@migrateAll_errors_over_cloudinary
              unit nat unit None Networks.fetch_down Networks.clock
              Networks.encode_nothing (Some tt)
              (Stores.getDocs_of [Stores.ring]) Stores.updateDoc_ok
              Stores.iso_date tt [Stores.ring] (Cloudinary.start 0%nat)
              1%nat eq_refl eq_refl)
    as (results & st' & Hrun & Hproc & _ & _ & Hmanual & _).
  assert (Hvalue : exists st0,
             run_migration_network_down
             = (Resolved {| total := 1; migrated := 0; skipped := 0;
                            failed := 1;
                            errors := [("Ring",
                                        Cloudinary.manual_message
                                          (image_url Stores.ring))] |},
                st0))
    by (eexists; vm_compute; reflexivity).
  destruct Hvalue as [st0 Hvalue].
  assert (Hst : st0 = st').
  { unfold run_migration_network_down in Hvalue. rewrite Hrun in Hvalue.
    now injection Hvalue. }
  subst st0. exists st'. repeat split; assumption.
Defined.

(** With the network down the ring is not migrated, and the summary
    blames CORS. *)
Example migrateAll_network_down :
  fst run_migration_network_down
  = Resolved {| total := 1; migrated := 0; skipped := 0; failed := 1;
                errors := [("Ring",
                            Cloudinary.manual_message
                              (image_url Stores.ring))] |}.
Proof. vm_compute. reflexivity. Qed.

(** The deletion of a product with its image on Cloudinary: the document
    is read, one request destroys the image, the document is deleted. *)
Example deleteProduct_with_cloudinary_image :
  fst run_delete_product = Resolved tt
  /\ Supabase.log (snd run_delete_product)
     = [Supabase.EvGetDoc
          "p1" (Ok (Some {| Supabase.data_image_url := Some ring_url |}));
        Supabase.EvDeleteDoc "p1" (Ok tt)]
  /\ Cloudinary.requests
       (Cloudinary.trace (Supabase.net (snd run_delete_product)))
     = [Cloudinary.destroy_request "products/ring" "000fa0ff" 1700000000].
Proof. repeat split; vm_compute; reflexivity. Qed.

End CallerRuns.
